(** * 2048: the board engine (src/utils/board.ts) and the session hook
      (src/hooks/useGameLogic.ts), embedded and verified.

    Conventions of the embedding.
    - A tile value is a JavaScript number holding a non-negative integer; it
      is modelled as an unbounded [Z] (doubling and adding integers is exact
      on the values a game can reach).
    - A board is a JavaScript array of row arrays: [list (list Z)].  Indices
      are [nat].  A read out of range yields JavaScript's [undefined]; reads
      are modelled with [option] where the source can see [undefined], and
      the lemmas say when that cannot happen.
    - A function returning an object { a, b } returns the pair (a, b).
    - A thrown exception is [None] in an [option] result. *)

From Stdlib Require Import ZArith QArith Qround Lia Ascii String.
From Stdlib Require Import DecimalString DecimalPos.
From stdpp Require Import base list gmap sorting strings.

Close Scope Q_scope.
Local Open Scope nat_scope.

(** ** Arrays of arrays *)

Section Grid.
Context {T : Type}.

  (** [grid[r][c]], [None] standing for [undefined]. *)
Definition cell (grid : list (list T)) (r c : nat) : option T :=
    grid !! r ≫= (λ row, row !! c).

  (** [grid[r][c] = v] for a row that exists and a column inside it. *)
Definition setCell (r c : nat) (v : T) (grid : list (list T)) : list (list T) :=
    alter (λ row, <[c := v]> row) r grid.

  (** An n x n matrix: n rows, each of length n. *)
Definition shaped (n : nat) (grid : list (list T)) : Prop :=
    length grid = n ∧ Forall (λ row, length row = n) grid.

Definition square (grid : list (list T)) : Prop := shaped (length grid) grid.
End Grid.

Module Board.

Definition TileValue := Z.
Definition BoardType := list (list Z).

(** *** slideAndMerge *)

(** First loop of [slideAndMerge]: push every non-zero entry, in order. *)
Definition compact_loop (row : list Z) : list Z :=
  foldl (λ filtered x, if bool_decide (x ≠ 0%Z) then filtered ++ [x] else filtered)
        [] row.

(** Second loop of [slideAndMerge], by index.  [filtered !! (i + 1) = Some x]
    is the source's [i + 1 < filtered.length && filtered[i] === filtered[i + 1]].
    Every round advances [i], so [length filtered] rounds of fuel are enough
    ([merge_loop_enough_fuel]). *)
Fixpoint merge_loop (fuel : nat) (filtered : list Z) (i : nat)
    (newRow : list Z) (score : Z) : list Z * Z :=
  match fuel with
  | 0 => (newRow, score)
  | S fuel' =>
      match filtered !! i with
      | None => (newRow, score)
      | Some x =>
          if bool_decide (filtered !! (i + 1) = Some x) then
            let mergedValue := (x * 2)%Z in
            merge_loop fuel' filtered (i + 2) (newRow ++ [mergedValue])
                       (score + mergedValue)%Z
          else
            merge_loop fuel' filtered (i + 1) (newRow ++ [x]) score
      end
  end.

(** Third loop: [while (newRow.length < size) newRow.push(0)]. *)
Fixpoint pad_loop (fuel size : nat) (newRow : list Z) : list Z :=
  match fuel with
  | 0 => newRow
  | S fuel' =>
      if length newRow <? size then pad_loop fuel' size (newRow ++ [0%Z])
      else newRow
  end.

Definition slideAndMerge (row : list Z) : list Z * Z :=
  let size := length row in
  let filtered := compact_loop row in
  let '(newRow, score) := merge_loop (length filtered) filtered 0 [] 0%Z in
  (pad_loop size size newRow, score).

(** *** The line reducer as the specification words it *)

(** Step 1: remove the zero entries, keeping the order. *)
Definition removeZeros (line : list Z) : list Z :=
  filter (λ x, x ≠ 0%Z) line.

(** Steps 2 and 3: one pass from the left; an element equal to its successor
    is replaced, with it, by their double, which is added to the score delta
    and is not looked at again. *)
Fixpoint mergePass (l : list Z) : list Z * Z :=
  match l with
  | [] => ([], 0%Z)
  | [x] => ([x], 0%Z)
  | x :: ((y :: rest') as rest) =>
      if bool_decide (x = y) then
        let '(r, s) := mergePass rest' in ((2 * x)%Z :: r, (2 * x + s)%Z)
      else
        let '(r, s) := mergePass rest in (x :: r, s)
  end.

(** Step 4: zeros on the right up to the original length. *)
Definition padRight (n : nat) (l : list Z) : list Z :=
  l ++ replicate (n - length l) 0%Z.

Definition reduceLine (line : list Z) : list Z * Z :=
  let '(merged, delta) := mergePass (removeZeros line) in
  (padRight (length line) merged, delta).

(** *** createEmptyBoard, getEmptyCells *)

Definition createEmptyBoard (size : nat) : BoardType :=
  replicate size (replicate size 0%Z).

(** Inner loop of [getEmptyCells] on row [r], the counter starting at [c]. *)
Fixpoint emptyInRow (r c : nat) (row : list Z) : list (nat * nat) :=
  match row with
  | [] => []
  | v :: row' =>
      (if bool_decide (v = 0%Z) then [(r, c)] else []) ++ emptyInRow r (S c) row'
  end.

(** Outer loop, the row counter starting at [r]. *)
Fixpoint emptyFrom (r : nat) (board : BoardType) : list (nat * nat) :=
  match board with
  | [] => []
  | row :: board' => emptyInRow r 0 row ++ emptyFrom (S r) board'
  end.

Definition getEmptyCells (board : BoardType) : list (nat * nat) :=
  emptyFrom 0 board.

(** *** addRandomTile *)

(** [Math.floor(u * n)] for a draw [u] of [Math.random()]. *)
Definition randomIndex (u : Q) (n : nat) : Z :=
  Qfloor (u * inject_Z (Z.of_nat n)).

(** What [Math.random()] promises: a number in [0, 1). *)
Definition validDraw (u : Q) : Prop := (0 <= u)%Q ∧ (u < 1)%Q.

(** [u < 0.9 ? 2 : 4]. *)
Definition tileFor (u : Q) : Z :=
  if Qle_bool (9 # 10) u then 4%Z else 2%Z.

(** [u1] is the draw that picks the cell, [u2] the one that picks the value.
    [None] is the TypeError of destructuring [emptyCells[k]] when it is
    [undefined]; [addRandomTile_total] shows it does not happen for draws
    in [0, 1). *)
Definition addRandomTile (u1 u2 : Q) (board : BoardType)
    : option (BoardType * option (nat * nat)) :=
  let newBoard := (λ row : list Z, row) <$> board in
  let emptyCells := getEmptyCells newBoard in
  if length emptyCells =? 0 then Some (newBoard, None)
  else
    let k := randomIndex u1 (length emptyCells) in
    if (k <? 0)%Z then None
    else
      match emptyCells !! Z.to_nat k with
      | None => None
      | Some (r, c) => Some (setCell r c (tileFor u2) newBoard, Some (r, c))
      end.

(** *** initBoard *)

Definition initBoard (size : nat) (u1 u2 u3 u4 : Q)
    : option (BoardType * list (nat * nat)) :=
  let board := createEmptyBoard size in
  result1 ← addRandomTile u1 u2 board;
  let '(board, newTiles) :=
    match result1.2 with
    | Some coords => (result1.1, [coords])
    | None => (board, [])
    end in
  result2 ← addRandomTile u3 u4 board;
  let '(board, newTiles) :=
    match result2.2 with
    | Some coords => (result2.1, newTiles ++ [coords])
    | None => (board, newTiles)
    end in
  Some (board, newTiles).

(** *** rotateRight, rotateLeft *)

Section Rotate.
Context {T : Type}.
  (** What a slot of [new Array(size)] that was never written, or a read
      [grid[r][c]] outside row [r], evaluates to.  On a square grid neither
      occurs ([rotateRight_undef], [rotateLeft_undef]). *)
Variable undef : T.

Definition rotateRight (grid : list (list T)) : list (list T) :=
    let size := length grid in
    let newGrid := replicate size (replicate size undef) in
    foldl (λ newGrid r,
      foldl (λ newGrid c,
        setCell c (size - 1 - r) (default undef (cell grid r c)) newGrid)
        newGrid (seq 0 size))
      newGrid (seq 0 size).

Definition rotateLeft (grid : list (list T)) : list (list T) :=
    let size := length grid in
    let newGrid := replicate size (replicate size undef) in
    foldl (λ newGrid r,
      foldl (λ newGrid c,
        setCell (size - 1 - c) r (default undef (cell grid r c)) newGrid)
        newGrid (seq 0 size))
      newGrid (seq 0 size).
End Rotate.

(** *** operate and the four moves *)

(** [board.map] with the callback adding each row's score to [totalScore]. *)
Definition operate (board : BoardType) : BoardType * Z :=
  foldl (λ '(newBoard, totalScore) row,
           let '(newRow, score) := slideAndMerge row in
           (newBoard ++ [newRow], (totalScore + score)%Z))
        ([], 0%Z) board.

Definition moveLeft (board : BoardType) : BoardType * Z :=
  let '(newBoard, score) := operate board in
  (newBoard, score).

Definition moveRight (board : BoardType) : BoardType * Z :=
  let reversed := reverse <$> board in
  let '(newReversed, score) := operate reversed in
  let newBoard := reverse <$> newReversed in
  (newBoard, score).

(** The stand-in for [undefined] in a board of numbers; it is not read on a
    square board. *)
Definition undefinedTile : Z := (-1)%Z.

Definition moveUp (board : BoardType) : BoardType * Z :=
  let rotated := rotateLeft undefinedTile board in
  let '(newRotated, score) := operate rotated in
  let newBoard := rotateRight undefinedTile newRotated in
  (newBoard, score).

Definition moveDown (board : BoardType) : BoardType * Z :=
  let rotated := rotateRight undefinedTile board in
  let '(newRotated, score) := operate rotated in
  let newBoard := rotateLeft undefinedTile newRotated in
  (newBoard, score).

(** *** areBoardsEqual, hasWon, canMove, isGameOver *)

(** The test [b1 === b2] on the identity of the two arrays only shortcuts
    the comparison below, which answers [true] for an array and itself. *)
Definition areBoardsEqual (b1 b2 : BoardType) : bool :=
  if negb (length b1 =? length b2) then false
  else
    forallb (λ '(row1, row2),
               if negb (length row1 =? length row2) then false
               else forallb (λ '(x, y), (x =? y)%Z) (zip row1 row2))
            (zip b1 b2).

Definition hasWon (board : BoardType) : bool :=
  existsb (λ row, existsb (λ v, (v =? 2048)%Z) row) board.

(** Both loops run to [board.length]; a read outside a row is [undefined],
    and [undefined === undefined] holds, as [None = None] does. *)
Definition canMove (board : BoardType) : bool :=
  let size := length board in
  existsb (λ r,
    existsb (λ c,
      (bool_decide (r < size - 1)
         && bool_decide (cell board r c = cell board (r + 1) c))
      || (bool_decide (c < size - 1)
            && bool_decide (cell board r c = cell board r (c + 1))))
      (seq 0 size))
    (seq 0 size).

Definition isGameOver (board : BoardType) : bool :=
  let hasEmptyCells := 0 <? length (getEmptyCells board) in
  if hasEmptyCells then false else negb (canMove board).

End Board.

(** ** The session hook (src/hooks/useGameLogic.ts) *)

Module GameLogic.
Import Board.

(** The five [useState] cells of [useGameLogic]. *)
Record GameState := mkGameState {
  board : BoardType;
  score : Z;
  highScore : Z;
  isGameOver : bool;
  hasWon : bool
}.

(** The names under which the hook imports the two board queries. *)
Definition checkWin := Board.hasWon.
Definition checkGameOver := Board.isGameOver.

Inductive Direction := ArrowUp | ArrowDown | ArrowLeft | ArrowRight.

(** The [switch] of [handleKeyDown]. *)
Definition moveFunc (d : Direction) : BoardType → BoardType * Z :=
  match d with
  | ArrowUp => moveUp
  | ArrowDown => moveDown
  | ArrowLeft => moveLeft
  | ArrowRight => moveRight
  end.

(** [handleMove], with the two draws its call of [addRandomTile] consumes.
    The setters are the field updates; [None] is an exception leaving the
    handler. *)
Definition handleMove (moveFn : BoardType → BoardType * Z) (u1 u2 : Q)
    (s : GameState) : option GameState :=
  if isGameOver s then Some s
  else
    let '(newBoard, moveScore) := moveFn (board s) in
    if negb (areBoardsEqual (board s) newBoard) then
      '(boardWithNewTile, _) ← addRandomTile u1 u2 newBoard;
      let s1 := mkGameState boardWithNewTile (score s + moveScore)%Z
                            (highScore s) (isGameOver s) (hasWon s) in
      let newBoardHasWon := checkWin boardWithNewTile in
      if newBoardHasWon then
        Some (mkGameState (board s1) (score s1) (highScore s1) true true)
      else if checkGameOver boardWithNewTile then
        Some (mkGameState (board s1) (score s1) (highScore s1) true (hasWon s1))
      else Some s1
    else Some s.

(** The effect on [score, highScore]. *)
Definition syncHighScore (s : GameState) : GameState :=
  if ((highScore s <? score s) && (0 <? score s))%Z then
    mkGameState (board s) (score s) (score s) (isGameOver s) (hasWon s)
  else s.

Definition restartGame (boardSize : nat) (u1 u2 u3 u4 : Q) (s : GameState)
    : option GameState :=
  '(initialBoard, _) ← initBoard boardSize u1 u2 u3 u4;
  Some (mkGameState initialBoard 0%Z (highScore s) false false).

(** The session once mounted: [useState] initial values, then the effect
    that calls [restartGame], whose board replaces the first one. *)
Definition initialSession (boardSize : nat) (u1 u2 u3 u4 : Q) : option GameState :=
  '(initialBoard, _) ← initBoard boardSize u1 u2 u3 u4;
  Some (mkGameState initialBoard 0%Z 0%Z false false).

(** One key press: the direction and the draws available to the spawn. *)
Definition Input : Type := Direction * (Q * Q).

Definition keyDown (i : Input) (s : GameState) : option GameState :=
  syncHighScore <$> handleMove (moveFunc i.1) i.2.1 i.2.2 s.

(** Inputs are served one after the other. *)
Fixpoint play (inputs : list Input) (s : GameState) : option GameState :=
  match inputs with
  | [] => Some s
  | i :: inputs' => s' ← keyDown i s; play inputs' s'
  end.

(** The session takes a move when it is not over and the move changes the
    board. *)
Definition accepted (moveFn : BoardType → BoardType * Z) (s : GameState) : bool :=
  negb (isGameOver s) && negb (areBoardsEqual (board s) (moveFn (board s)).1).

(** The score deltas of the moves taken along [play]. *)
Fixpoint acceptedDeltas (inputs : list Input) (s : GameState) : list Z :=
  match inputs with
  | [] => []
  | i :: inputs' =>
      (if accepted (moveFunc i.1) s then [(moveFunc i.1 (board s)).2] else [])
      ++ match keyDown i s with
         | Some s' => acceptedDeltas inputs' s'
         | None => []
         end
  end.

(** The move changes the board, whether the session takes it or not. *)
Definition changing (moveFn : BoardType → BoardType * Z) (s : GameState) : bool :=
  negb (areBoardsEqual (board s) (moveFn (board s)).1).

(** The score deltas of the board-changing moves along [play]. *)
Fixpoint changingDeltas (inputs : list Input) (s : GameState) : list Z :=
  match inputs with
  | [] => []
  | i :: inputs' =>
      (if changing (moveFunc i.1) s then [(moveFunc i.1 (board s)).2] else [])
      ++ match keyDown i s with
         | Some s' => changingDeltas inputs' s'
         | None => []
         end
  end.

(** What holds of every session reached by [play]: the board is square, and
    a session that is over without a win has a board without legal move. *)
Definition sessionInv (s : GameState) : Prop :=
  square (board s)
  ∧ (isGameOver s = true → hasWon s = false →
       Board.isGameOver (board s) = true).

End GameLogic.

(** ** addRandomTile on arrays that live in a store

    [addRandomTile] writes into an array.  To say which arrays it writes
    into, arrays are given addresses: a board is an array of references to
    its rows. *)

Module Store.
Import Board.

Abbreviation loc := nat (only parsing).

(** The arrays of a program state: rows (arrays of numbers) and boards
    (arrays of references to rows), under their addresses. *)
Record store := mkStore {
  rowsOf : gmap loc (list Z);
  boardsOf : gmap loc (list loc)
}.

(** The value of the board at [b]: the contents of the rows it refers to. *)
Definition readBoard (b : loc) (st : store) : option BoardType :=
  ls ← boardsOf st !! b;
  mapM (λ l, rowsOf st !! l) ls.

(** [[...row]]: a new array holding the elements of the row at [l]. *)
Definition copyRow (l : loc) (st : store) : option (loc * store) :=
  row ← rowsOf st !! l;
  let l' := fresh (dom (rowsOf st)) in
  Some (l', mkStore (<[l' := row]> (rowsOf st)) (boardsOf st)).

Fixpoint copyRows (ls : list loc) (st : store) : option (list loc * store) :=
  match ls with
  | [] => Some ([], st)
  | l :: ls' =>
      '(l', st1) ← copyRow l st;
      '(ls'', st2) ← copyRows ls' st1;
      Some (l' :: ls'', st2)
  end.

(** [board.map(row => [...row])]: a new array of the copies. *)
Definition copyBoard (b : loc) (st : store) : option (loc * store) :=
  ls ← boardsOf st !! b;
  '(ls', st1) ← copyRows ls st;
  let b' := fresh (dom (boardsOf st1)) in
  Some (b', mkStore (rowsOf st1) (<[b' := ls']> (boardsOf st1))).

(** [newBoard[r][c] = v], the only write of [addRandomTile]; [r] and [c]
    come from [getEmptyCells], so the row exists and [c] is inside it. *)
Definition writeCell (b : loc) (r c : nat) (v : Z) (st : store) : option store :=
  ls ← boardsOf st !! b;
  l ← ls !! r;
  row ← rowsOf st !! l;
  Some (mkStore (<[l := <[c := v]> row]> (rowsOf st)) (boardsOf st)).

(** [addRandomTile] on the board at [board]; it returns the address of
    [newBoard], the coordinates, and the store it leaves. *)
Definition addRandomTile (u1 u2 : Q) (board : loc) (st : store)
    : option (loc * option (nat * nat) * store) :=
  '(newBoard, st1) ← copyBoard board st;
  grid ← readBoard newBoard st1;
  let emptyCells := getEmptyCells grid in
  if length emptyCells =? 0 then Some (newBoard, None, st1)
  else
    let k := randomIndex u1 (length emptyCells) in
    if (k <? 0)%Z then None
    else
      match emptyCells !! Z.to_nat k with
      | None => None
      | Some (r, c) =>
          st2 ← writeCell newBoard r c (tileFor u2) st1;
          Some (newBoard, Some (r, c), st2)
      end.

(** Every array of [st] is in [st'] with the same contents. *)
Definition preserved (st st' : store) : Prop :=
  rowsOf st ⊆ rowsOf st' ∧ boardsOf st ⊆ boardsOf st'.

End Store.

(** ** Notions used to state the properties *)

Module Props.
Import Board.

(** The total of a line and of a board. *)
Definition sumZ (l : list Z) : Z := foldr Z.add 0%Z l.
Definition boardSum (b : BoardType) : Z := sumZ (sumZ <$> b).

(** The two components of what [slideAndMerge] returns. *)
Definition newRowOf (row : list Z) : list Z := (slideAndMerge row).1.
Definition scoreOf (row : list Z) : Z := (slideAndMerge row).2.

(** F 0 + ... + F (n - 1). *)
Fixpoint bigsum (n : nat) (F : nat → Z) : Z :=
  match n with
  | 0 => 0%Z
  | S n' => (bigsum n' F + F n')%Z
  end.

(** The number in a cell, 0 where there is none. *)
Definition cellZ (b : BoardType) (r c : nat) : Z := default 0%Z (cell b r c).

(** Some cell of the board is empty. *)
Definition hasEmptyCell (b : BoardType) : Prop :=
  ∃ r c, cell b r c = Some 0%Z.

(** Two cells next to each other in a row or in a column hold the same value. *)
Definition adjacentEqual (b : BoardType) : Prop :=
  ∃ r c v, cell b r c = Some v
           ∧ (cell b (r + 1) c = Some v ∨ cell b r (c + 1) = Some v).

(** No element of the line equals its successor. *)
Definition noAdjacent (l : list Z) : Prop :=
  ∀ i v, l !! i = Some v → l !! S i ≠ Some v.

(** The no-moves condition: no empty cell and no two equal neighbours. *)
Definition terminal (b : BoardType) : Prop :=
  ¬ hasEmptyCell b ∧ ¬ adjacentEqual b.

End Props.

(** ** The application around the hook (src/App.tsx, the buttons of
    src/components/Settings.tsx, the key and touch handlers and the
    high-score effects of src/hooks/useGameLogic.ts) *)

Module App.
Import Board GameLogic.

(** The [switch] of [handleKeyDown] on [e.key]: the four arrow keys give a
    move, any other key gives none. *)
Definition keyMove (key : string) : option Direction :=
  if String.eqb key "ArrowUp" then Some ArrowUp
  else if String.eqb key "ArrowDown" then Some ArrowDown
  else if String.eqb key "ArrowLeft" then Some ArrowLeft
  else if String.eqb key "ArrowRight" then Some ArrowRight
  else None.

(** The effect that reads the stored high score when the hook mounts.
    [parsed] is what [parseInt] made of the stored text: [None] when nothing
    is stored, when the text gives [NaN], or when reading throws. *)
Definition loadHighScore (parsed : option Z) (s : GameState) : GameState :=
  match parsed with
  | Some parsedScore =>
      if (0 <=? parsedScore)%Z then
        mkGameState (board s) (score s) parsedScore (isGameOver s) (hasWon s)
      else s
  | None => s
  end.

(** The state of [App]: its [boardSize] and the state of the hook. *)
Record AppState := mkApp {
  boardSize : Z;
  game : GameState
}.

(** [handleSizeChange], followed by the effect of the hook that restarts
    the game when [boardSize] has changed. *)
Definition handleSizeChange (newSize : Z) (u1 u2 u3 u4 : Q) (st : AppState)
    : option AppState :=
  if ((3 <=? newSize) && (newSize <=? 8))%Z then
    if (newSize =? boardSize st)%Z then Some st
    else
      g ← restartGame (Z.to_nat newSize) u1 u2 u3 u4 (game st);
      Some (mkApp newSize (syncHighScore g))
  else Some st.

(** What the user can do: press a key, swipe in a direction (the touch
    handlers call [handleMove] with the move of that direction), press the
    two buttons of [Settings], press "New Game" or "Try Again".  Each event
    carries the draws of [Math.random] it may consume. *)
Inductive Event :=
  | KeyPress (key : string) (u1 u2 : Q)
  | Swipe (d : Direction) (u1 u2 : Q)
  | ClickDecrement (u1 u2 u3 u4 : Q)
  | ClickIncrement (u1 u2 u3 u4 : Q)
  | ClickRestart (u1 u2 u3 u4 : Q).

(** The draws that pick a cell are in [0, 1). *)
Definition validEvent (e : Event) : Prop :=
  match e with
  | KeyPress _ u1 _ | Swipe _ u1 _ => validDraw u1
  | ClickDecrement u1 _ u3 _ | ClickIncrement u1 _ u3 _
  | ClickRestart u1 _ u3 _ => validDraw u1 ∧ validDraw u3
  end.

(** The buttons "-" and "+" are disabled at sizes 3 and 8. *)
Definition dispatch (e : Event) (st : AppState) : option AppState :=
  match e with
  | KeyPress key u1 u2 =>
      match keyMove key with
      | Some d =>
          g ← keyDown (d, (u1, u2)) (game st); Some (mkApp (boardSize st) g)
      | None => Some st
      end
  | Swipe d u1 u2 =>
      g ← keyDown (d, (u1, u2)) (game st); Some (mkApp (boardSize st) g)
  | ClickDecrement u1 u2 u3 u4 =>
      if (boardSize st <=? 3)%Z then Some st
      else handleSizeChange (boardSize st - 1) u1 u2 u3 u4 st
  | ClickIncrement u1 u2 u3 u4 =>
      if (8 <=? boardSize st)%Z then Some st
      else handleSizeChange (boardSize st + 1) u1 u2 u3 u4 st
  | ClickRestart u1 u2 u3 u4 =>
      g ← restartGame (Z.to_nat (boardSize st)) u1 u2 u3 u4 (game st);
      Some (mkApp (boardSize st) (syncHighScore g))
  end.

(** [App] once mounted: [boardSize] is 4, the stored high score is read. *)
Definition initialApp (parsed : option Z) (u1 u2 u3 u4 : Q) : option AppState :=
  g ← initialSession 4 u1 u2 u3 u4;
  Some (mkApp 4 (syncHighScore (loadHighScore parsed g))).

(** The states the application can be in. *)
Inductive reachable : AppState → Prop :=
  | reach_init (parsed : option Z) (u1 u2 u3 u4 : Q) (st : AppState) :
      validDraw u1 → validDraw u3 →
      initialApp parsed u1 u2 u3 u4 = Some st → reachable st
  | reach_step (e : Event) (st st' : AppState) :
      reachable st → validEvent e → dispatch e st = Some st' → reachable st'.

End App.

(** ** The stored high score (the two high-score effects of
    src/hooks/useGameLogic.ts)

    A text is a JavaScript string whose code units are below 256.  The
    numbers written are safe integers (of magnitude below 2^53), which
    JavaScript holds exactly and for which [String(n)] is the decimal
    notation. *)

Module Storage.
Import GameLogic App.

(** [String(n)]. *)
Definition numberToString (n : Z) : string :=
  NilZero.string_of_int (Z.to_int n).

(** The white space and line terminators that [parseInt] skips: U+0009 to
    U+000D, U+0020, U+00A0 (the others lie above 255). *)
Definition isWhiteSpace (ch : ascii) : bool :=
  let n := N_of_ascii ch in
  ((9 <=? n) && (n <=? 13) || (n =? 32) || (n =? 160))%N.

Definition isDigit (ch : ascii) : bool :=
  let n := N_of_ascii ch in ((48 <=? n) && (n <=? 57))%N.

Fixpoint trimStart (s : string) : string :=
  match s with
  | String ch rest => if isWhiteSpace ch then trimStart rest else s
  | EmptyString => s
  end.

(** The part of the text before its first code unit that is no digit. *)
Fixpoint digitPrefix (s : string) : string :=
  match s with
  | String ch rest =>
      if isDigit ch then String ch (digitPrefix rest) else EmptyString
  | EmptyString => EmptyString
  end.

(** [parseInt(s, 10)]: skip the white space, take the sign, read the digits
    up to the first other code unit; [None] is [NaN] (no digit). *)
Definition parseInt10 (s : string) : option Z :=
  let trimmed := trimStart s in
  let '(sign, rest) :=
    match trimmed with
    | String ch rest =>
        if Ascii.eqb ch "-" then ((-1)%Z, rest)
        else if Ascii.eqb ch "+" then (1%Z, rest)
        else (1%Z, trimmed)
    | EmptyString => (1%Z, trimmed)
    end in
  match digitPrefix rest with
  | EmptyString => None
  | digits =>
      option_map (λ d, (sign * Z.of_uint d)%Z) (NilEmpty.uint_of_string digits)
  end.

(** What the load effect hands to [loadHighScore]: [item] is what
    [localStorage.getItem] gave, [None] for [null] and for an exception;
    the empty text is falsy. *)
Definition storedScore (item : option string) : option Z :=
  match item with
  | Some storedHighScore =>
      if String.eqb storedHighScore "" then None
      else parseInt10 storedHighScore
  | None => None
  end.

(** The storage after the save effect; [written] says whether
    [localStorage.setItem] went through (an exception is caught). *)
Definition saveHighScore (written : bool) (g : GameState) (item : option string)
    : option string :=
  if ((highScore g <? score g) && (0 <? score g))%Z then
    if written then Some (numberToString (score g)) else item
  else item.

End Storage.

(** ** Notions used to state further properties *)

Module Notions.
Import Board Props GameLogic App.

(** Row-major order on coordinates: first by row, then by column. *)
Definition rowMajorLt (p q : nat * nat) : Prop :=
  p.1 < q.1 ∨ (p.1 = q.1 ∧ p.2 < q.2).

(** A tile value: 0 for an empty cell, or a power of two from 2 on. *)
Definition isTile (v : Z) : Prop :=
  v = 0%Z ∨ ∃ k : nat, v = (2 ^ (Z.of_nat k + 1))%Z.

(** Every cell of the board holds a tile value. *)
Definition validBoard (b : BoardType) : Prop :=
  ∀ r c v, cell b r c = Some v → isTile v.

(** Column [c] of a board, read from the top. *)
Definition column (c : nat) (b : BoardType) : list Z :=
  (λ r, cellZ b r c) <$> seq 0 (length b).

(** Every cell of the board satisfies [P]. *)
Definition allCells (P : Z → Prop) (b : BoardType) : Prop :=
  ∀ r c v, cell b r c = Some v → P v.

(** The board holds at least one tile. *)
Definition hasTile (b : BoardType) : Prop :=
  ∃ r c x, cell b r c = Some x ∧ x ≠ 0%Z.

(** What holds of the hook's state throughout a game on a board of side [n]:
    the board is [n] x [n], holds tile values only and at least one tile,
    the two flags say what the board shows, the scores are ordered. *)
Definition gameInv (n : nat) (g : GameState) : Prop :=
  shaped n (board g)
  ∧ validBoard (board g)
  ∧ (0 < boardSum (board g))%Z
  ∧ hasWon g = checkWin (board g)
  ∧ isGameOver g = checkWin (board g) || checkGameOver (board g)
  ∧ (0 ≤ score g)%Z ∧ (0 ≤ highScore g)%Z.

(** The same for the application, whose board side is [boardSize]. *)
Definition appInv (st : AppState) : Prop :=
  (3 ≤ boardSize st ≤ 8)%Z
  ∧ gameInv (Z.to_nat (boardSize st)) (game st)
  ∧ (score (game st) ≤ highScore (game st))%Z.

End Notions.

(** * Verification *)

Import Props Notions.

(** A draw given as a fraction is checked by computing. *)
Ltac valid_draw := split; [unfold Qle; simpl; lia | reflexivity].

Import Board.

(** ** The line reducer *)

Lemma compact_loop_acc (row acc : list Z) :
  foldl (λ filtered x, if bool_decide (x ≠ 0%Z) then filtered ++ [x] else filtered)
        acc row
  = acc ++ removeZeros row.
Proof.
  revert acc. induction row as [|x row IH]; intros acc; simpl.
  - by rewrite app_nil_r.
  - rewrite IH. unfold removeZeros. rewrite filter_cons.
    destruct (decide (x ≠ 0%Z)) as [Hx|Hx].
    + rewrite bool_decide_eq_true_2 by done. by rewrite <- app_assoc.
    + by rewrite bool_decide_eq_false_2.
Qed.

Lemma compact_loop_removeZeros (row : list Z) :
  compact_loop row = removeZeros row.
Proof. unfold compact_loop. by rewrite compact_loop_acc. Qed.

Lemma mergePass_cons_eq (x : Z) (l : list Z) :
  mergePass (x :: x :: l)
  = ((2 * x)%Z :: (mergePass l).1, (2 * x + (mergePass l).2)%Z).
Proof.
  simpl. rewrite bool_decide_eq_true_2 by done. by destruct (mergePass l).
Qed.

Lemma mergePass_cons_ne (x y : Z) (l : list Z) :
  x ≠ y →
  mergePass (x :: y :: l) = (x :: (mergePass (y :: l)).1, (mergePass (y :: l)).2).
Proof.
  intros Hne. remember (mergePass (y :: l)) as m eqn:Hm.
  change (mergePass (x :: y :: l))
    with (if bool_decide (x = y)
          then let '(r, s) := mergePass l in ((2 * x)%Z :: r, (2 * x + s)%Z)
          else let '(r, s) := mergePass (y :: l) in (x :: r, s)).
  rewrite bool_decide_eq_false_2 by done. rewrite <- Hm. by destruct m.
Qed.

(** The index loop leaves by its own test, not by lack of fuel, and computes
    the pass of the specification on the part of [filtered] from [i] on. *)
Lemma merge_loop_enough_fuel (fuel : nat) (filtered : list Z) :
  ∀ (i : nat) (newRow : list Z) (score : Z),
    length filtered - i ≤ fuel →
    merge_loop fuel filtered i newRow score
    = (newRow ++ (mergePass (drop i filtered)).1,
       (score + (mergePass (drop i filtered)).2)%Z).
Proof.
  induction fuel as [|fuel IH]; intros i newRow score Hfuel.
  - rewrite drop_ge by lia. simpl. by rewrite app_nil_r, Z.add_0_r.
  - simpl. destruct (filtered !! i) as [x|] eqn:Hi.
    + rewrite (drop_S _ _ _ Hi).
      destruct (filtered !! (i + 1)) as [y|] eqn:Hi1.
      * replace (i + 1) with (S i) in Hi1 by lia.
        rewrite (drop_S _ _ _ Hi1).
        pose proof (lookup_lt_Some _ _ _ Hi1) as Hlt.
        case_bool_decide as Hxy.
        -- injection Hxy as ->. rewrite mergePass_cons_eq; simpl.
           rewrite IH by lia. replace (i + 2) with (S (S i)) by lia.
           rewrite <- app_assoc. simpl. rewrite (Z.mul_comm x 2). f_equal. lia.
        -- rewrite mergePass_cons_ne by congruence.
           rewrite IH by lia. replace (i + 1) with (S i) by lia.
           rewrite (drop_S _ _ _ Hi1).
           rewrite <- app_assoc. done.
      * rewrite bool_decide_eq_false_2 by done.
        apply lookup_ge_None in Hi1.
        rewrite IH by lia. rewrite !drop_ge by lia. simpl.
        by rewrite app_nil_r, Z.add_0_r.
    + apply lookup_ge_None in Hi. rewrite drop_ge by lia. simpl.
      by rewrite app_nil_r, Z.add_0_r.
Qed.

Lemma pad_loop_enough_fuel (fuel size : nat) :
  ∀ newRow : list Z,
    size - length newRow ≤ fuel →
    pad_loop fuel size newRow = padRight size newRow.
Proof.
  unfold padRight.
  induction fuel as [|fuel IH]; intros newRow Hfuel; simpl.
  - replace (size - length newRow) with 0 by lia. simpl. by rewrite app_nil_r.
  - destruct (length newRow <? size) eqn:Hlt.
    + apply Nat.ltb_lt in Hlt. rewrite IH by (rewrite length_app; simpl; lia).
      rewrite length_app. simpl.
      replace (size - length newRow) with (S (size - (length newRow + 1))) by lia.
      simpl. by rewrite <- app_assoc.
    + apply Nat.ltb_ge in Hlt.
      replace (size - length newRow) with 0 by lia. simpl. by rewrite app_nil_r.
Qed.

Lemma slideAndMerge_reduceLine (row : list Z) :
  slideAndMerge row = reduceLine row.
Proof.
  unfold slideAndMerge, reduceLine.
  rewrite compact_loop_removeZeros, merge_loop_enough_fuel by lia.
  rewrite drop_0. simpl. destruct (mergePass (removeZeros row)) as [m d]. simpl.
  by rewrite pad_loop_enough_fuel by lia.
Qed.

(** C2: [slideAndMerge] computes the reducer of the specification: zeros
    removed in order, one pass from the left merging each earliest equal
    pair into its double (added to the score, never merged again), zeros
    appended up to the original length; with the two sample lines. *)
Theorem slideAndMerge_is_reduceLine :
  (∀ row : list Z, slideAndMerge row = reduceLine row)
  ∧ slideAndMerge [2; 2; 4; 4]%Z = ([4; 8; 0; 0]%Z, 12%Z)
  ∧ slideAndMerge [2; 2; 2; 0]%Z = ([4; 2; 0; 0]%Z, 4%Z).
Proof.
  split; [exact slideAndMerge_reduceLine|]. split; reflexivity.
Qed.

Example slideAndMerge_all_zero :
  slideAndMerge [0; 0; 0; 0]%Z = ([0; 0; 0; 0]%Z, 0%Z).
Proof. reflexivity. Qed.

Example slideAndMerge_four_twos :
  slideAndMerge [2; 2; 2; 2]%Z = ([4; 4; 0; 0]%Z, 8%Z).
Proof. reflexivity. Qed.

Example slideAndMerge_single : slideAndMerge [0; 0; 8; 0]%Z = ([8; 0; 0; 0]%Z, 0%Z).
Proof. reflexivity. Qed.

(** Induction along the pass: a merged pair is skipped as a whole. *)
Lemma mergePass_ind (P : list Z → Prop) :
  P [] →
  (∀ x, P [x]) →
  (∀ x l, P l → P (x :: x :: l)) →
  (∀ x y l, x ≠ y → P (y :: l) → P (x :: y :: l)) →
  ∀ l, P l.
Proof.
  intros Hnil Hone Heq Hne l.
  cut (P l ∧ ∀ x, P (x :: l)); [tauto|].
  induction l as [|y l [IH1 IH2]]; [by split|].
  split; [apply IH2|].
  intros x. destruct (decide (x = y)) as [->|Hxy]; [by apply Heq|by apply Hne].
Qed.

Lemma mergePass_length (l : list Z) :
  length (mergePass l).1 ≤ length l.
Proof.
  induction l as [| x | x l IH | x y l Hne IH] using mergePass_ind;
    [done | done | |].
  - rewrite mergePass_cons_eq. simpl. lia.
  - rewrite mergePass_cons_ne by done. simpl in *. lia.
Qed.

(** A pass that changes the line shortens it. *)
Lemma mergePass_same_or_shorter (l : list Z) :
  (mergePass l).1 = l ∨ length (mergePass l).1 < length l.
Proof.
  induction l as [| x | x l IH | x y l Hne IH] using mergePass_ind;
    [by left | by left | |].
  - right. rewrite mergePass_cons_eq. pose proof (mergePass_length l). simpl. lia.
  - rewrite mergePass_cons_ne by done. destruct IH as [IH|IH].
    + left. simpl in *. by rewrite IH.
    + right. simpl in *. lia.
Qed.

Lemma mergePass_sum (l : list Z) :
  sumZ (mergePass l).1 = sumZ l.
Proof.
  induction l as [| x | x l IH | x y l Hne IH] using mergePass_ind;
    [done | done | |].
  - rewrite mergePass_cons_eq. simpl in *. lia.
  - rewrite mergePass_cons_ne by done. simpl in *. lia.
Qed.

Lemma removeZeros_sum (l : list Z) : sumZ (removeZeros l) = sumZ l.
Proof.
  unfold removeZeros. induction l as [|x l IH]; [done|].
  rewrite filter_cons. case_decide; simpl; lia.
Qed.

Lemma removeZeros_length (l : list Z) : length (removeZeros l) ≤ length l.
Proof. apply length_filter. Qed.

Lemma removeZeros_id_or_shorter (l : list Z) :
  ((Z0 ∉ l) ∧ removeZeros l = l) ∨ ((Z0 ∈ l) ∧ length (removeZeros l) < length l).
Proof.
  unfold removeZeros. induction l as [|x l IH].
  - left. split; [apply not_elem_of_nil|done].
  - rewrite filter_cons. pose proof (length_filter (λ x : Z, x ≠ 0%Z) l) as Hle.
    destruct (decide (x ≠ 0%Z)) as [Hx|Hx].
    + destruct IH as [[Hn IH]|[Hin IH]].
      * left. split; [|by rewrite IH].
        apply not_elem_of_cons. by split.
      * right. split; [apply elem_of_cons; by right|simpl; lia].
    + right. apply dec_stable in Hx. subst x.
      split; [apply elem_of_cons; by left|simpl; lia].
Qed.

Lemma sumZ_app (l1 l2 : list Z) : sumZ (l1 ++ l2) = (sumZ l1 + sumZ l2)%Z.
Proof. induction l1 as [|x l1 IH]; simpl; lia. Qed.

Lemma sumZ_replicate_0 (n : nat) : sumZ (replicate n 0%Z) = 0%Z.
Proof. induction n; simpl; lia. Qed.

Lemma padRight_sum (n : nat) (l : list Z) : sumZ (padRight n l) = sumZ l.
Proof. unfold padRight. rewrite sumZ_app, sumZ_replicate_0. lia. Qed.

Lemma padRight_length (n : nat) (l : list Z) :
  length l ≤ n → length (padRight n l) = n.
Proof. intros. unfold padRight. rewrite length_app, length_replicate. lia. Qed.

Lemma reduceLine_fst (row : list Z) :
  (reduceLine row).1 = padRight (length row) (mergePass (removeZeros row)).1.
Proof. unfold reduceLine. by destruct (mergePass (removeZeros row)). Qed.

Lemma slideAndMerge_length (row : list Z) :
  length (slideAndMerge row).1 = length row.
Proof.
  rewrite slideAndMerge_reduceLine, reduceLine_fst. apply padRight_length.
  pose proof (mergePass_length (removeZeros row)).
  pose proof (removeZeros_length row). lia.
Qed.

Lemma slideAndMerge_sum (row : list Z) :
  sumZ (slideAndMerge row).1 = sumZ row.
Proof.
  rewrite slideAndMerge_reduceLine, reduceLine_fst, padRight_sum, mergePass_sum.
  apply removeZeros_sum.
Qed.

(** A line that the reducer changes ends in a zero. *)
Lemma slideAndMerge_changed_zero (row : list Z) :
  (slideAndMerge row).1 ≠ row → Z0 ∈ (slideAndMerge row).1.
Proof.
  rewrite slideAndMerge_reduceLine, reduceLine_fst. intros Hne.
  pose proof (mergePass_length (removeZeros row)) as Hlen.
  assert (length (mergePass (removeZeros row)).1 < length row) as Hlt.
  { destruct (removeZeros_id_or_shorter row) as [[_ Hid]|[_ Hsh]]; [|lia].
    rewrite Hid in *.
    destruct (mergePass_same_or_shorter row) as [Hsame|Hsh]; [|done].
    exfalso. apply Hne. unfold padRight. rewrite Hsame.
    replace (length row - length row) with 0 by lia. simpl. by rewrite app_nil_r. }
  unfold padRight.
  destruct (length row - length (mergePass (removeZeros row)).1) as [|k] eqn:Hk;
    [lia|].
  simpl. apply elem_of_app. right. apply elem_of_cons; by left.
Qed.

(** ** Arrays of arrays: reading, writing, shape *)

Section GridFacts.
Context {T : Type}.
Implicit Types (g : list (list T)) (r c i j n : nat) (v : T).

Lemma cell_Some g r c v :
  cell g r c = Some v ↔ ∃ row, g !! r = Some row ∧ row !! c = Some v.
Proof.
  unfold cell. destruct (g !! r) as [row|]; simpl.
  - split; [eauto|]. by intros (row' & [= <-] & ?).
  - split; [done|]. by intros (? & ? & ?).
Qed.

Lemma cell_shaped n g r c :
  shaped n g → r < n → c < n → is_Some (cell g r c).
Proof.
  intros [Hlen Hrows] Hr Hc.
  destruct (lookup_lt_is_Some_2 g r) as [row Hrow]; [lia|].
  pose proof (Forall_lookup_1 _ _ _ _ Hrows Hrow) as Hl. simpl in Hl.
  destruct (lookup_lt_is_Some_2 row c) as [v Hv]; [lia|].
  exists v. apply cell_Some. eauto.
Qed.

Lemma cell_shaped_lt n g r c v :
  shaped n g → cell g r c = Some v → r < n ∧ c < n.
Proof.
  intros [Hlen Hrows] (row & Hrow & Hv)%cell_Some.
  pose proof (Forall_lookup_1 _ _ _ _ Hrows Hrow) as Hl. simpl in Hl.
  apply lookup_lt_Some in Hrow, Hv. lia.
Qed.

Lemma shaped_setCell n g r c v : shaped n g → shaped n (setCell r c v g).
Proof.
  intros [Hlen Hrows]. unfold setCell. split; [by rewrite length_alter|].
  apply Forall_alter; [done|]. intros row _ Hl. by rewrite length_insert.
Qed.

Lemma shaped_replicate n v : shaped n (replicate n (replicate n v)).
Proof.
  split; [apply length_replicate|].
  apply Forall_replicate, length_replicate.
Qed.

Lemma cell_setCell_eq n g r c v :
  shaped n g → r < n → c < n → cell (setCell r c v g) r c = Some v.
Proof.
  intros Hsh Hr Hc. destruct Hsh as [Hlen Hrows].
  destruct (lookup_lt_is_Some_2 g r) as [row Hrow]; [lia|].
  pose proof (Forall_lookup_1 _ _ _ _ Hrows Hrow) as Hl. simpl in Hl.
  unfold cell, setCell. rewrite list_lookup_alter_eq, Hrow. simpl.
  apply list_lookup_insert_eq. lia.
Qed.

Lemma cell_setCell_ne g r c v i j :
  (r, c) ≠ (i, j) → cell (setCell r c v g) i j = cell g i j.
Proof.
  intros Hne. unfold cell, setCell.
  destruct (decide (r = i)) as [->|Hri].
  - rewrite list_lookup_alter_eq. destruct (g !! i) as [row|]; [simpl|done].
    apply list_lookup_insert_ne. congruence.
  - by rewrite list_lookup_alter_ne.
Qed.

(** Two n x n matrices with the same cells are the same matrix. *)
Lemma grid_ext n g1 g2 :
  shaped n g1 → shaped n g2 →
  (∀ r c, r < n → c < n → cell g1 r c = cell g2 r c) →
  g1 = g2.
Proof.
  intros [Hl1 Hr1] [Hl2 Hr2] Hcells. apply list_eq. intros r.
  destruct (decide (r < n)) as [Hr|Hr].
  - destruct (lookup_lt_is_Some_2 g1 r) as [row1 Hrow1]; [lia|].
    destruct (lookup_lt_is_Some_2 g2 r) as [row2 Hrow2]; [lia|].
    rewrite Hrow1, Hrow2. f_equal.
    pose proof (Forall_lookup_1 _ _ _ _ Hr1 Hrow1) as Hlen1.
    pose proof (Forall_lookup_1 _ _ _ _ Hr2 Hrow2) as Hlen2. simpl in *.
    apply list_eq. intros c.
    destruct (decide (c < n)) as [Hc|Hc].
    + specialize (Hcells r c Hr Hc). unfold cell in Hcells.
      by rewrite Hrow1, Hrow2 in Hcells.
    + rewrite !lookup_ge_None_2 by lia. done.
  - rewrite !lookup_ge_None_2 by lia. done.
Qed.

(** A loop whose body is one write [grid[f k][h k] = val k]. *)
Section Writes.
Context {K : Type} (f h : K → nat) (val : K → T).

Lemma writes_shaped n ks g :
  shaped n g →
  shaped n (foldl (λ g k, setCell (f k) (h k) (val k) g) g ks).
Proof.
  revert g. induction ks as [|k ks IH]; intros g Hsh; [done|].
  simpl. apply IH. by apply shaped_setCell.
Qed.

Lemma writes_hit n ks g k :
  shaped n g → k ∈ ks → f k < n → h k < n →
  (∀ k', k' ∈ ks → f k' = f k → h k' = h k → val k' = val k) →
  cell (foldl (λ g k, setCell (f k) (h k) (val k) g) g ks) (f k) (h k)
  = Some (val k).
Proof.
  intros Hsh Hin Hf Hh. revert Hin.
  induction ks as [|k' ks IH] using rev_ind; intros Hin Hval.
  { by apply elem_of_nil in Hin. }
  rewrite foldl_app. simpl.
  destruct (decide ((f k', h k') = (f k, h k))) as [Heq|Hne].
  - injection Heq as Hf' Hh'.
    rewrite <- (Hval k') by (done || apply elem_of_app; right; by apply list_elem_of_singleton).
    rewrite <- Hf', <- Hh'.
    apply (cell_setCell_eq n); [by apply writes_shaped|lia|lia].
  - rewrite cell_setCell_ne by done.
    apply elem_of_app in Hin as [Hin|Hin].
    + apply IH; [done|]. intros k'' Hk''. apply Hval, elem_of_app. by left.
    + apply list_elem_of_singleton in Hin. by subst k'.
Qed.
End Writes.

(** Two nested loops are one loop over the pairs of indices. *)
Lemma foldl_nested {A} (F : A → nat → nat → A) (rs cs : list nat) (a : A) :
  foldl (λ a r, foldl (λ a c, F a r c) a cs) a rs
  = foldl (λ a rc, F a rc.1 rc.2) a (rs ≫= λ r, pair r <$> cs).
Proof.
  revert a. induction rs as [|r rs IH]; intros a; [done|].
  simpl foldl at 1. rewrite bind_cons, foldl_app, foldl_fmap. simpl. apply IH.
Qed.

Lemma elem_of_pairs (rs cs : list nat) r c :
  (r, c) ∈ (rs ≫= λ r, pair r <$> cs) ↔ r ∈ rs ∧ c ∈ cs.
Proof.
  rewrite list_elem_of_bind. split.
  - intros (r' & (c' & [= -> ->] & Hc)%list_elem_of_fmap & Hr). done.
  - intros [Hr Hc]. exists r. split; [|done]. apply list_elem_of_fmap. eauto.
Qed.

End GridFacts.

(** ** The two rotations *)

Section RotateFacts.
Context {T : Type}.
Implicit Types (g : list (list T)) (undef : T).

Lemma rotateRight_writes undef g :
  rotateRight undef g
  = foldl (λ a rc, setCell rc.2 (length g - 1 - rc.1)
                     (default undef (cell g rc.1 rc.2)) a)
      (replicate (length g) (replicate (length g) undef))
      (seq 0 (length g) ≫= λ r, pair r <$> seq 0 (length g)).
Proof.
  unfold rotateRight.
  apply (foldl_nested
    (λ a r c, setCell c (length g - 1 - r) (default undef (cell g r c)) a)).
Qed.

Lemma rotateLeft_writes undef g :
  rotateLeft undef g
  = foldl (λ a rc, setCell (length g - 1 - rc.2) rc.1
                     (default undef (cell g rc.1 rc.2)) a)
      (replicate (length g) (replicate (length g) undef))
      (seq 0 (length g) ≫= λ r, pair r <$> seq 0 (length g)).
Proof.
  unfold rotateLeft.
  apply (foldl_nested
    (λ a r c, setCell (length g - 1 - c) r (default undef (cell g r c)) a)).
Qed.

(** Both rotations return [length g] rows of [length g] slots. *)
Lemma rotateRight_shaped undef g : shaped (length g) (rotateRight undef g).
Proof.
  rewrite rotateRight_writes.
  apply (writes_shaped (λ rc : nat * nat, rc.2) (λ rc, length g - 1 - rc.1)).
  apply shaped_replicate.
Qed.

Lemma rotateLeft_shaped undef g : shaped (length g) (rotateLeft undef g).
Proof.
  rewrite rotateLeft_writes.
  apply (writes_shaped (λ rc : nat * nat, length g - 1 - rc.2) (λ rc, rc.1)).
  apply shaped_replicate.
Qed.

Lemma rotateRight_length undef g : length (rotateRight undef g) = length g.
Proof. apply rotateRight_shaped. Qed.

Lemma rotateLeft_length undef g : length (rotateLeft undef g) = length g.
Proof. apply rotateLeft_shaped. Qed.

Lemma rotateRight_square undef g : square (rotateRight undef g).
Proof. unfold square. rewrite rotateRight_length. apply rotateRight_shaped. Qed.

Lemma rotateLeft_square undef g : square (rotateLeft undef g).
Proof. unfold square. rewrite rotateLeft_length. apply rotateLeft_shaped. Qed.

(** Clockwise: the cell at (r, c) goes to (c, N - 1 - r). *)
Lemma rotateRight_cell undef g r c :
  square g → r < length g → c < length g →
  cell (rotateRight undef g) c (length g - 1 - r) = cell g r c.
Proof.
  intros Hsq Hr Hc. rewrite rotateRight_writes.
  destruct (cell_shaped _ g r c Hsq Hr Hc) as [v Hv].
  rewrite Hv. change v with (default undef (Some v)). rewrite <- Hv.
  apply (writes_hit (λ rc : nat * nat, rc.2) (λ rc, length g - 1 - rc.1)
           (λ rc, default undef (cell g rc.1 rc.2)) (length g) _ _ (r, c)).
  - apply shaped_replicate.
  - apply elem_of_pairs. split; apply elem_of_seq; lia.
  - simpl. lia.
  - simpl. lia.
  - intros [r' c'] [Hr' Hc']%elem_of_pairs. simpl. intros -> Hh.
    apply elem_of_seq in Hr'. replace r' with r by lia. done.
Qed.

(** Counter-clockwise: the cell at (r, c) goes to (N - 1 - c, r). *)
Lemma rotateLeft_cell undef g r c :
  square g → r < length g → c < length g →
  cell (rotateLeft undef g) (length g - 1 - c) r = cell g r c.
Proof.
  intros Hsq Hr Hc. rewrite rotateLeft_writes.
  destruct (cell_shaped _ g r c Hsq Hr Hc) as [v Hv].
  rewrite Hv. change v with (default undef (Some v)). rewrite <- Hv.
  apply (writes_hit (λ rc : nat * nat, length g - 1 - rc.2) (λ rc, rc.1)
           (λ rc, default undef (cell g rc.1 rc.2)) (length g) _ _ (r, c)).
  - apply shaped_replicate.
  - apply elem_of_pairs. split; apply elem_of_seq; lia.
  - simpl. lia.
  - simpl. lia.
  - intros [r' c'] [Hr' Hc']%elem_of_pairs. simpl. intros Hf ->.
    apply elem_of_seq in Hc'. replace c' with c by lia. done.
Qed.

(** The same facts, read from the target cell. *)
Lemma rotateRight_cell_at undef g i j :
  square g → i < length g → j < length g →
  cell (rotateRight undef g) i j = cell g (length g - 1 - j) i.
Proof.
  intros Hsq Hi Hj.
  rewrite <- (rotateRight_cell undef g (length g - 1 - j) i) by (done || lia).
  f_equal. lia.
Qed.

Lemma rotateLeft_cell_at undef g i j :
  square g → i < length g → j < length g →
  cell (rotateLeft undef g) i j = cell g j (length g - 1 - i).
Proof.
  intros Hsq Hi Hj.
  rewrite <- (rotateLeft_cell undef g j (length g - 1 - i)) by (done || lia).
  f_equal. lia.
Qed.

Lemma rotateLeft_rotateRight undef g :
  square g → rotateLeft undef (rotateRight undef g) = g.
Proof.
  intros Hsq. apply (grid_ext (length g)); [| done |].
  - rewrite <- (rotateRight_length undef g) at 1. apply rotateLeft_shaped.
  - intros r c Hr Hc.
    rewrite rotateLeft_cell_at;
      rewrite ?rotateRight_length; [|apply rotateRight_square|lia..].
    rewrite rotateRight_cell_at by (done || lia). f_equal. lia.
Qed.

Lemma rotateRight_rotateLeft undef g :
  square g → rotateRight undef (rotateLeft undef g) = g.
Proof.
  intros Hsq. apply (grid_ext (length g)); [| done |].
  - rewrite <- (rotateLeft_length undef g) at 1. apply rotateRight_shaped.
  - intros r c Hr Hc.
    rewrite rotateRight_cell_at;
      rewrite ?rotateLeft_length; [|apply rotateLeft_square|lia..].
    rewrite rotateLeft_cell_at by (done || lia). f_equal. lia.
Qed.

(** On a square grid no hole is left and no read misses: the stand-in for
    [undefined] does not show in the result. *)
Lemma rotateRight_undef undef undef' g :
  square g → rotateRight undef g = rotateRight undef' g.
Proof.
  intros Hsq. apply (grid_ext (length g)); try apply rotateRight_shaped.
  intros r c Hr Hc. by rewrite !rotateRight_cell_at.
Qed.

Lemma rotateLeft_undef undef undef' g :
  square g → rotateLeft undef g = rotateLeft undef' g.
Proof.
  intros Hsq. apply (grid_ext (length g)); try apply rotateLeft_shaped.
  intros r c Hr Hc. by rewrite !rotateLeft_cell_at.
Qed.

End RotateFacts.

(** C5: on a square grid of any element type and side N, [rotateRight]
    (clockwise) sends the cell at (r, c) to (c, N - 1 - r), [rotateLeft]
    (counter-clockwise) sends it to (N - 1 - c, r), both return an N x N
    grid, and each undoes the other. *)
Theorem rotations_are_inverse {T : Type} (undef : T) (g : list (list T)) :
  square g →
  shaped (length g) (rotateRight undef g)
  ∧ shaped (length g) (rotateLeft undef g)
  ∧ (∀ r c, r < length g → c < length g →
       cell (rotateRight undef g) c (length g - 1 - r) = cell g r c)
  ∧ (∀ r c, r < length g → c < length g →
       cell (rotateLeft undef g) (length g - 1 - c) r = cell g r c)
  ∧ rotateLeft undef (rotateRight undef g) = g
  ∧ rotateRight undef (rotateLeft undef g) = g.
Proof.
  intros Hsq. repeat split.
  - apply rotateRight_length.
  - apply rotateRight_shaped.
  - apply rotateLeft_length.
  - apply rotateLeft_shaped.
  - intros r c Hr Hc. by apply rotateRight_cell.
  - intros r c Hr Hc. by apply rotateLeft_cell.
  - by apply rotateLeft_rotateRight.
  - by apply rotateRight_rotateLeft.
Qed.

Lemma rotations_are_inverse_witness :
  rotateLeft 0 (rotateRight 0 [[1; 2; 3]; [4; 5; 6]; [7; 8; 9]])
  = [[1; 2; 3]; [4; 5; 6]; [7; 8; 9]].
Proof.
  apply (rotations_are_inverse 0 [[1; 2; 3]; [4; 5; 6]; [7; 8; 9]]).
  split; [reflexivity|]. repeat constructor.
Defined.

(** ** operate and the four moves *)

Lemma operate_acc (board newBoard : BoardType) (totalScore : Z) :
  foldl (λ '(newBoard, totalScore) row,
           let '(newRow, score) := slideAndMerge row in
           (newBoard ++ [newRow], (totalScore + score)%Z))
        (newBoard, totalScore) board
  = (newBoard ++ (newRowOf <$> board),
     (totalScore + sumZ (scoreOf <$> board))%Z).
Proof.
  revert newBoard totalScore.
  induction board as [|row board IH]; intros newBoard totalScore; simpl.
  - by rewrite app_nil_r, Z.add_0_r.
  - unfold newRowOf at 1, scoreOf at 1.
    destruct (slideAndMerge row) as [newRow score]. rewrite IH. simpl.
    rewrite <- app_assoc. simpl. by rewrite Z.add_assoc.
Qed.

(** [operate] reduces every row and totals the rows' scores. *)
Lemma operate_rows (board : BoardType) :
  operate board = (newRowOf <$> board, sumZ (scoreOf <$> board)).
Proof. unfold operate. by rewrite operate_acc. Qed.

Lemma moveLeft_rows (board : BoardType) :
  moveLeft board = (newRowOf <$> board, sumZ (scoreOf <$> board)).
Proof. unfold moveLeft. by rewrite operate_rows. Qed.

Lemma moveRight_rows (board : BoardType) :
  moveRight board
  = (reverse <$> (newRowOf <$> (reverse <$> board)),
     sumZ (scoreOf <$> (reverse <$> board))).
Proof. unfold moveRight. by rewrite operate_rows. Qed.

Lemma moveUp_rows (board : BoardType) :
  moveUp board
  = (rotateRight undefinedTile (newRowOf <$> rotateLeft undefinedTile board),
     sumZ (scoreOf <$> rotateLeft undefinedTile board)).
Proof. unfold moveUp. by rewrite operate_rows. Qed.

Lemma moveDown_rows (board : BoardType) :
  moveDown board
  = (rotateLeft undefinedTile (newRowOf <$> rotateRight undefinedTile board),
     sumZ (scoreOf <$> rotateRight undefinedTile board)).
Proof. unfold moveDown. by rewrite operate_rows. Qed.

Example moveLeft_sample :
  moveLeft [[2; 2; 0; 0]; [0; 0; 0; 0]; [0; 0; 0; 0]; [0; 0; 0; 0]]%Z
  = ([[4; 0; 0; 0]; [0; 0; 0; 0]; [0; 0; 0; 0]; [0; 0; 0; 0]]%Z, 4%Z).
Proof. reflexivity. Qed.

Example moveUp_sample :
  moveUp [[2; 4]; [2; 4]]%Z = ([[4; 8]; [0; 0]]%Z, 12%Z).
Proof. reflexivity. Qed.

Example moveDown_sample :
  moveDown [[2; 4]; [2; 0]]%Z = ([[0; 0]; [4; 4]]%Z, 4%Z).
Proof. reflexivity. Qed.

Example moveRight_sample :
  moveRight [[2; 2; 2]; [0; 4; 0]; [8; 0; 8]]%Z
  = ([[0; 2; 4]; [0; 0; 4]; [0; 0; 16]]%Z, 20%Z).
Proof. reflexivity. Qed.

Lemma shaped_fmap {T : Type} (f : list T → list T) (n : nat) (g : list (list T)) :
  (∀ row, length (f row) = length row) → shaped n g → shaped n (f <$> g).
Proof.
  intros Hf [Hlen Hrows]. split; [by rewrite length_fmap|].
  apply Forall_fmap. eapply Forall_impl; [exact Hrows|].
  intros row Hrow. simpl. by rewrite Hf.
Qed.

Lemma square_fmap {T : Type} (f : list T → list T) (g : list (list T)) :
  (∀ row, length (f row) = length row) → square g → square (f <$> g).
Proof. intros Hf Hsq. unfold square. rewrite length_fmap. by apply shaped_fmap. Qed.

Lemma newRowOf_length (row : list Z) : length (newRowOf row) = length row.
Proof. apply slideAndMerge_length. Qed.

Lemma square_newRows (g : BoardType) : square g → square (newRowOf <$> g).
Proof. apply square_fmap, newRowOf_length. Qed.

(** C6: on a square board, up is: rotate counter-clockwise, reduce every
    row to the left, rotate clockwise; down is: rotate clockwise, reduce,
    rotate counter-clockwise; right is: reverse every row, reduce, reverse
    back; and the score of each move is the sum of the rows' reducer
    scores.  The rotations are the ones of C5, whatever stands for
    [undefined] in them. *)
Theorem moves_by_rotation (undef undef' : Z) (board : BoardType) :
  square board →
  moveUp board
  = (rotateRight undef (newRowOf <$> rotateLeft undef' board),
     sumZ (scoreOf <$> rotateLeft undef' board))
  ∧ moveDown board
    = (rotateLeft undef (newRowOf <$> rotateRight undef' board),
       sumZ (scoreOf <$> rotateRight undef' board))
  ∧ moveRight board
    = (reverse <$> (newRowOf <$> (reverse <$> board)),
       sumZ (scoreOf <$> (reverse <$> board)))
  ∧ moveLeft board = (newRowOf <$> board, sumZ (scoreOf <$> board)).
Proof.
  intros Hsq. repeat split.
  - rewrite moveUp_rows, (rotateLeft_undef undefinedTile undef') by done.
    f_equal. apply rotateRight_undef, square_newRows, rotateLeft_square.
  - rewrite moveDown_rows, (rotateRight_undef undefinedTile undef') by done.
    f_equal. apply rotateLeft_undef, square_newRows, rotateRight_square.
  - apply moveRight_rows.
  - apply moveLeft_rows.
Qed.

Lemma moves_by_rotation_witness :
  moveUp [[2; 0]; [2; 4]]%Z
  = (rotateRight 0%Z (newRowOf <$> rotateLeft 0%Z [[2; 0]; [2; 4]]%Z),
     sumZ (scoreOf <$> rotateLeft 0%Z [[2; 0]; [2; 4]]%Z)).
Proof.
  apply (moves_by_rotation 0%Z 0%Z [[2; 0]; [2; 4]]%Z).
  split; [reflexivity|]. repeat constructor.
Defined.

(** ** Totals *)

Lemma bigsum_ext (n : nat) (F G : nat → Z) :
  (∀ i, i < n → F i = G i) → bigsum n F = bigsum n G.
Proof.
  induction n as [|n IH]; intros Hext; [done|]. simpl.
  rewrite IH by (intros i Hi; apply Hext; lia). rewrite Hext by lia. done.
Qed.

Lemma bigsum_add (n : nat) (F G : nat → Z) :
  bigsum n (λ i, (F i + G i)%Z) = (bigsum n F + bigsum n G)%Z.
Proof. induction n as [|n IH]; simpl; lia. Qed.

Lemma bigsum_shift (n : nat) (F : nat → Z) :
  bigsum (S n) F = (F 0%nat + bigsum n (λ i, F (S i)))%Z.
Proof. induction n as [|n IH]; [simpl; lia|]. simpl in *. lia. Qed.

Lemma bigsum_swap (n m : nat) (F : nat → nat → Z) :
  bigsum n (λ i, bigsum m (λ j, F i j))
  = bigsum m (λ j, bigsum n (λ i, F i j)).
Proof.
  induction n as [|n IH]; simpl.
  - induction m as [|m IHm]; simpl; lia.
  - rewrite IH. by rewrite bigsum_add.
Qed.

Lemma bigsum_rev (n : nat) (F : nat → Z) :
  bigsum n (λ i, F (n - 1 - i)) = bigsum n F.
Proof.
  revert F. induction n as [|n IH]; intros F; [done|].
  rewrite bigsum_shift. simpl.
  replace (n - 0 - 0) with n by lia.
  rewrite <- (IH F). rewrite Z.add_comm. f_equal.
  apply bigsum_ext. intros i Hi. f_equal. lia.
Qed.

Lemma sumZ_bigsum (l : list Z) :
  sumZ l = bigsum (length l) (λ i, default 0%Z (l !! i)).
Proof.
  induction l as [|x l IH]; [done|].
  cbn [length]. rewrite bigsum_shift. simpl. by rewrite IH.
Qed.

Lemma sumZ_reverse (l : list Z) : sumZ (reverse l) = sumZ l.
Proof.
  induction l as [|x l IH]; [done|].
  rewrite reverse_cons, sumZ_app. simpl. lia.
Qed.

Lemma boardSum_bigsum (n : nat) (b : BoardType) :
  shaped n b →
  boardSum b = bigsum n (λ r, bigsum n (λ c, cellZ b r c)).
Proof.
  intros [Hlen Hrows]. unfold boardSum. rewrite sumZ_bigsum, length_fmap, Hlen.
  apply bigsum_ext. intros r Hr. rewrite list_lookup_fmap.
  destruct (lookup_lt_is_Some_2 b r) as [row Hrow]; [lia|].
  rewrite Hrow. simpl. rewrite sumZ_bigsum.
  rewrite (Forall_lookup_1 _ _ _ _ Hrows Hrow).
  apply bigsum_ext. intros c Hc. unfold cellZ, cell. by rewrite Hrow.
Qed.

Lemma boardSum_rotateRight (undef : Z) (b : BoardType) :
  square b → boardSum (rotateRight undef b) = boardSum b.
Proof.
  intros Hsq.
  rewrite (boardSum_bigsum (length b)) by apply rotateRight_shaped.
  rewrite (boardSum_bigsum (length b) b) by done.
  etrans; [|symmetry; apply (bigsum_swap _ _ (λ r c, cellZ b r c))].
  apply bigsum_ext. intros i Hi.
  rewrite <- (bigsum_rev _ (λ r, cellZ b r i)).
  apply bigsum_ext. intros j Hj.
  unfold cellZ. by rewrite rotateRight_cell_at.
Qed.

Lemma boardSum_rotateLeft (undef : Z) (b : BoardType) :
  square b → boardSum (rotateLeft undef b) = boardSum b.
Proof.
  intros Hsq.
  rewrite <- (boardSum_rotateRight undef (rotateLeft undef b))
    by apply rotateLeft_square.
  by rewrite rotateRight_rotateLeft.
Qed.

Lemma boardSum_fmap (f : list Z → list Z) (b : BoardType) :
  (∀ row, sumZ (f row) = sumZ row) → boardSum (f <$> b) = boardSum b.
Proof.
  intros Hf. unfold boardSum. rewrite <- list_fmap_compose. f_equal.
  apply list_fmap_ext. intros _ row _. simpl. apply Hf.
Qed.

Lemma newRowOf_sum (row : list Z) : sumZ (newRowOf row) = sumZ row.
Proof. apply slideAndMerge_sum. Qed.

(** C9: the reducer keeps the total of a line, and on a square board each
    of the four moves returns a board with the total of the input board. *)
Theorem moves_conserve_total (board : BoardType) :
  square board →
  (∀ row : list Z, sumZ (slideAndMerge row).1 = sumZ row)
  ∧ boardSum (moveLeft board).1 = boardSum board
  ∧ boardSum (moveRight board).1 = boardSum board
  ∧ boardSum (moveUp board).1 = boardSum board
  ∧ boardSum (moveDown board).1 = boardSum board.
Proof.
  intros Hsq. split; [exact slideAndMerge_sum|]. repeat split.
  - rewrite moveLeft_rows. simpl. apply boardSum_fmap, newRowOf_sum.
  - rewrite moveRight_rows. simpl.
    rewrite (boardSum_fmap reverse) by apply sumZ_reverse.
    rewrite (boardSum_fmap newRowOf) by apply newRowOf_sum.
    apply boardSum_fmap, sumZ_reverse.
  - rewrite moveUp_rows. simpl.
    rewrite boardSum_rotateRight by apply square_newRows, rotateLeft_square.
    rewrite (boardSum_fmap newRowOf) by apply newRowOf_sum.
    by apply boardSum_rotateLeft.
  - rewrite moveDown_rows. simpl.
    rewrite boardSum_rotateLeft by apply square_newRows, rotateRight_square.
    rewrite (boardSum_fmap newRowOf) by apply newRowOf_sum.
    by apply boardSum_rotateRight.
Qed.

Lemma moves_conserve_total_witness :
  boardSum (moveUp [[2; 0]; [2; 4]]%Z).1 = boardSum [[2; 0]; [2; 4]]%Z.
Proof.
  apply (moves_conserve_total [[2; 0]; [2; 4]]%Z).
  split; [reflexivity|]. repeat constructor.
Defined.

(** ** Empty cells *)

Lemma elem_of_emptyInRow (r c0 : nat) (row : list Z) (r' c' : nat) :
  (r', c') ∈ emptyInRow r c0 row
  ↔ r' = r ∧ ∃ k, c' = c0 + k ∧ row !! k = Some 0%Z.
Proof.
  revert c0. induction row as [|v row IH]; intros c0; simpl.
  - rewrite elem_of_nil. split; [done|]. by intros (_ & k & _ & ?).
  - rewrite elem_of_app, IH. split.
    + intros [Hhere|(-> & k & -> & Hk)].
      * case_bool_decide as Hv; [|by apply elem_of_nil in Hhere].
        apply list_elem_of_singleton in Hhere as [= -> ->]. subst v.
        split; [done|]. exists 0. split; [lia|done].
      * split; [done|]. exists (S k). split; [lia|done].
    + intros (-> & [|k] & -> & Hk).
      * left. simpl in Hk. injection Hk as ->.
        rewrite bool_decide_eq_true_2 by done.
        apply list_elem_of_singleton. f_equal. lia.
      * right. split; [done|]. exists k. split; [lia|done].
Qed.

Lemma elem_of_emptyFrom (r0 : nat) (board : BoardType) (r' c' : nat) :
  (r', c') ∈ emptyFrom r0 board
  ↔ ∃ k, r' = r0 + k ∧ cell board k c' = Some 0%Z.
Proof.
  revert r0. induction board as [|row board IH]; intros r0; simpl.
  - rewrite elem_of_nil. split; [done|]. by intros (k & _ & ?).
  - rewrite elem_of_app, IH, elem_of_emptyInRow. split.
    + intros [(-> & k & -> & Hk)|(k & -> & Hk)].
      * exists 0. split; [lia|]. by rewrite Nat.add_0_l.
      * exists (S k). split; [lia|done].
    + intros ([|k] & -> & Hk).
      * left. split; [lia|]. exists c'. split; [done|exact Hk].
      * right. exists k. split; [lia|done].
Qed.

(** [getEmptyCells] lists exactly the coordinates of the cells holding 0. *)
Lemma elem_of_getEmptyCells (board : BoardType) (r c : nat) :
  (r, c) ∈ getEmptyCells board ↔ cell board r c = Some 0%Z.
Proof.
  unfold getEmptyCells. rewrite elem_of_emptyFrom. split.
  - by intros (k & -> & Hk).
  - intros Hc. by exists r.
Qed.

Lemma getEmptyCells_nonempty (board : BoardType) :
  getEmptyCells board ≠ [] ↔ hasEmptyCell board.
Proof.
  unfold hasEmptyCell. split.
  - destruct (getEmptyCells board) as [|[r c] l] eqn:He; [done|]. intros _.
    exists r, c. apply elem_of_getEmptyCells. rewrite He. apply elem_of_cons. by left.
  - intros (r & c & Hc%elem_of_getEmptyCells) He. rewrite He in Hc.
    by apply elem_of_nil in Hc.
Qed.

Lemma getEmptyCells_nil (board : BoardType) :
  getEmptyCells board = [] ↔ ¬ hasEmptyCell board.
Proof.
  rewrite <- getEmptyCells_nonempty.
  destruct (getEmptyCells board) as [|p l]; split; intros H; try done.
  - intros H'. by apply H'.
  - by destruct H.
Qed.

(** ** canMove and isGameOver *)

Lemma canMove_true (board : BoardType) :
  canMove board = true
  ↔ ∃ r c, r < length board ∧ c < length board
           ∧ ((r < length board - 1 ∧ cell board r c = cell board (r + 1) c)
              ∨ (c < length board - 1 ∧ cell board r c = cell board r (c + 1))).
Proof.
  unfold canMove. rewrite existsb_exists. split.
  - intros (r & Hr%in_seq & (c & Hc%in_seq & Hrc)%existsb_exists).
    exists r, c. split; [lia|]. split; [lia|].
    apply orb_true_iff in Hrc as [H|H]; apply andb_true_iff in H as [H1 H2];
      apply bool_decide_eq_true in H1, H2; auto.
  - intros (r & c & Hr & Hc & Hrc). exists r. split; [apply in_seq; lia|].
    apply existsb_exists. exists c. split; [apply in_seq; lia|].
    apply orb_true_iff.
    destruct Hrc as [[H1 H2]|[H1 H2]]; [left|right];
      apply andb_true_iff; split; by apply bool_decide_eq_true.
Qed.

(** On a square board every compared cell exists, and [canMove] is the
    search for two equal neighbours. *)
Lemma canMove_adjacentEqual (board : BoardType) :
  square board → canMove board = true ↔ adjacentEqual board.
Proof.
  intros Hsq. rewrite canMove_true. unfold adjacentEqual. split.
  - intros (r & c & Hr & Hc & Hrc).
    destruct (cell_shaped _ board r c Hsq Hr Hc) as [v Hv].
    exists r, c, v. split; [done|].
    destruct Hrc as [[_ H]|[_ H]]; rewrite <- H; auto.
  - intros (r & c & v & Hv & Hadj).
    destruct (cell_shaped_lt _ _ _ _ _ Hsq Hv) as [Hr Hc].
    exists r, c. split; [done|]. split; [done|].
    destruct Hadj as [H|H];
      destruct (cell_shaped_lt _ _ _ _ _ Hsq H) as [Hr' Hc'];
      [left|right]; (split; [lia|congruence]).
Qed.

Lemma isGameOver_empty (board : BoardType) :
  hasEmptyCell board → isGameOver board = false.
Proof.
  intros He%getEmptyCells_nonempty. unfold isGameOver.
  destruct (getEmptyCells board); [done|]. reflexivity.
Qed.

Lemma isGameOver_full (board : BoardType) :
  ¬ hasEmptyCell board → isGameOver board = negb (canMove board).
Proof.
  intros He%getEmptyCells_nil. unfold isGameOver. by rewrite He.
Qed.

(** C3: [isGameOver] answers [false] for a board with an empty cell, the
    adjacencies not being looked at; for a (square) board without empty
    cell it answers [true] exactly when no two cells adjacent in a row or
    in a column are equal. *)
Theorem isGameOver_terminal (board : BoardType) :
  square board →
  (hasEmptyCell board → isGameOver board = false)
  ∧ (¬ hasEmptyCell board →
       (isGameOver board = true ↔ ¬ adjacentEqual board)).
Proof.
  intros Hsq. split; [apply isGameOver_empty|].
  intros Hfull. rewrite (isGameOver_full _ Hfull).
  rewrite <- (canMove_adjacentEqual _ Hsq).
  destruct (canMove board); simpl; split; done.
Qed.

Lemma isGameOver_terminal_witness :
  (hasEmptyCell [[2; 4]; [4; 2]]%Z → isGameOver [[2; 4]; [4; 2]]%Z = false)
  ∧ (¬ hasEmptyCell [[2; 4]; [4; 2]]%Z →
       (isGameOver [[2; 4]; [4; 2]]%Z = true
        ↔ ¬ adjacentEqual [[2; 4]; [4; 2]]%Z)).
Proof.
  apply (isGameOver_terminal [[2; 4]; [4; 2]]%Z).
  split; [reflexivity|]. repeat constructor.
Defined.

(** ** addRandomTile *)

(** [Math.floor(Math.random() * n)] is an index below [n]. *)
Lemma randomIndex_bounds (u : Q) (n : nat) :
  validDraw u → 0 < n → (0 ≤ randomIndex u n < Z.of_nat n)%Z.
Proof.
  intros [H0 H1] Hn. unfold randomIndex.
  assert (0 < inject_Z (Z.of_nat n))%Q as HN.
  { change 0%Q with (inject_Z 0). rewrite <- Zlt_Qlt. lia. }
  split.
  - apply (Qfloor_resp_le 0). apply Qmult_le_0_compat; [done|].
    by apply Qlt_le_weak.
  - rewrite Zlt_Qlt. eapply Qle_lt_trans; [apply Qfloor_le|].
    pose proof (Qmult_lt_compat_r u 1 _ HN H1) as Hlt.
    by rewrite Qmult_1_l in Hlt.
Qed.

Lemma copy_rows (board : BoardType) : (λ row : list Z, row) <$> board = board.
Proof. exact (list_fmap_id board). Qed.

Lemma tileFor_2_or_4 (u : Q) : tileFor u = 2%Z ∨ tileFor u = 4%Z.
Proof. unfold tileFor. destruct (Qle_bool (9 # 10) u); auto. Qed.

Lemma addRandomTile_full (u1 u2 : Q) (board : BoardType) :
  ¬ hasEmptyCell board → addRandomTile u1 u2 board = Some (board, None).
Proof.
  intros He%getEmptyCells_nil. unfold addRandomTile. cbv zeta.
  rewrite copy_rows, He. reflexivity.
Qed.

Lemma addRandomTile_spawn (u1 u2 : Q) (board : BoardType) :
  validDraw u1 → hasEmptyCell board →
  ∃ r c, cell board r c = Some 0%Z
         ∧ addRandomTile u1 u2 board
           = Some (setCell r c (tileFor u2) board, Some (r, c)).
Proof.
  intros Hu He%getEmptyCells_nonempty. unfold addRandomTile. cbv zeta.
  rewrite copy_rows.
  destruct (length (getEmptyCells board)) as [|n] eqn:Hlen.
  { by destruct (getEmptyCells board). }
  simpl.
  pose proof (randomIndex_bounds u1 (S n) Hu ltac:(lia)) as [Hk0 Hk1].
  destruct (Z.ltb_spec (randomIndex u1 (S n)) 0) as [Hneg|_]; [lia|].
  destruct (lookup_lt_is_Some_2 (getEmptyCells board)
              (Z.to_nat (randomIndex u1 (S n)))) as [[r c] Hrc]; [lia|].
  rewrite Hrc. exists r, c. split; [|done].
  apply elem_of_getEmptyCells, list_elem_of_lookup. eauto.
Qed.

Section SetCellFacts.
Context {T : Type}.
Implicit Types (g : list (list T)).

Lemma cell_setCell_hit g r c v :
  is_Some (cell g r c) → cell (setCell r c v g) r c = Some v.
Proof.
  intros [w (row & Hrow & Hw)%cell_Some]. unfold cell, setCell.
  rewrite list_lookup_alter_eq, Hrow. simpl.
  apply list_lookup_insert_eq. by apply lookup_lt_Some in Hw.
Qed.

(** A write keeps the number of rows and the length of every row. *)
Lemma setCell_lengths g r c v : length <$> setCell r c v g = length <$> g.
Proof.
  unfold setCell. apply list_eq. intros i.
  rewrite !list_lookup_fmap, list_lookup_alter.
  case_decide as Hi; [subst i|done].
  destruct (g !! r); [simpl|done]. by rewrite length_insert.
Qed.
End SetCellFacts.

(** ** areBoardsEqual *)

Lemma forallb_zip_eq {A : Type} (eqb : A → A → bool) (l1 l2 : list A) :
  (∀ x y, eqb x y = true ↔ x = y) →
  (if negb (length l1 =? length l2) then false
   else forallb (λ '(x, y), eqb x y) (zip l1 l2)) = true
  ↔ l1 = l2.
Proof.
  intros Heqb. revert l2.
  induction l1 as [|x l1 IH]; intros [|y l2]; simpl; try done.
  specialize (IH l2). destruct (length l1 =? length l2); simpl in *.
  - rewrite andb_true_iff, Heqb, IH. split; [by intros [-> ->]|by intros [= -> ->]].
  - split; [done|]. intros [= -> ->]. by apply IH.
Qed.

(** [areBoardsEqual] holds of two boards exactly when they have the same
    rows: same dimensions, same value in every cell. *)
Lemma areBoardsEqual_true (b1 b2 : BoardType) :
  areBoardsEqual b1 b2 = true ↔ b1 = b2.
Proof.
  unfold areBoardsEqual.
  apply (forallb_zip_eq
    (λ row1 row2 : list Z,
       if negb (length row1 =? length row2) then false
       else forallb (λ '(x, y), (x =? y)%Z) (zip row1 row2))).
  intros row1 row2. apply forallb_zip_eq. intros x y. apply Z.eqb_eq.
Qed.

Lemma areBoardsEqual_false (b1 b2 : BoardType) :
  areBoardsEqual b1 b2 = false ↔ b1 ≠ b2.
Proof.
  rewrite <- areBoardsEqual_true. by destruct (areBoardsEqual b1 b2).
Qed.

(** ** A move that changes the board leaves an empty cell *)

Lemma fmap_changed (f : list Z → list Z) (b : BoardType) :
  f <$> b ≠ b → ∃ row, row ∈ b ∧ f row ≠ row.
Proof.
  induction b as [|row b IH]; [done|]. intros Hne.
  destruct (decide (f row = row)) as [Heq|Hrow].
  - destruct IH as (row' & Hin & Hrow').
    + intros Hb. apply Hne. rewrite fmap_cons. by rewrite Heq, Hb.
    + exists row'. split; [|done]. apply elem_of_cons. by right.
  - exists row. split; [|done]. apply elem_of_cons. by left.
Qed.

Lemma hasEmptyCell_row (b : BoardType) (row : list Z) :
  row ∈ b → Z0 ∈ row → hasEmptyCell b.
Proof.
  intros [r Hr]%list_elem_of_lookup [c Hc]%list_elem_of_lookup.
  exists r, c. apply cell_Some. eauto.
Qed.

Lemma changed_has_empty (f : list Z → list Z) (b : BoardType) :
  (∀ row, f row ≠ row → Z0 ∈ f row) →
  f <$> b ≠ b → hasEmptyCell (f <$> b).
Proof.
  intros Hf (row & Hin & Hrow)%fmap_changed.
  apply (hasEmptyCell_row _ (f row)); [|by apply Hf].
  by apply list_elem_of_fmap_2.
Qed.

Lemma newRowOf_changed_zero (row : list Z) :
  newRowOf row ≠ row → Z0 ∈ newRowOf row.
Proof. apply slideAndMerge_changed_zero. Qed.

Lemma moveLeft_changed_empty (board : BoardType) :
  (moveLeft board).1 ≠ board → hasEmptyCell (moveLeft board).1.
Proof.
  rewrite moveLeft_rows. simpl. apply changed_has_empty, newRowOf_changed_zero.
Qed.

Lemma moveRight_changed_empty (board : BoardType) :
  (moveRight board).1 ≠ board → hasEmptyCell (moveRight board).1.
Proof.
  rewrite moveRight_rows. simpl. rewrite <- !list_fmap_compose.
  apply changed_has_empty. intros row Hne. simpl in *.
  apply elem_of_reverse, newRowOf_changed_zero. intros Heq. apply Hne.
  by rewrite Heq, reverse_involutive.
Qed.

Lemma hasEmptyCell_rotateRight (undef : Z) (b : BoardType) :
  square b → hasEmptyCell b → hasEmptyCell (rotateRight undef b).
Proof.
  intros Hsq (r & c & Hrc).
  destruct (cell_shaped_lt _ _ _ _ _ Hsq Hrc) as [Hr Hc].
  exists c, (length b - 1 - r). by rewrite rotateRight_cell.
Qed.

Lemma hasEmptyCell_rotateLeft (undef : Z) (b : BoardType) :
  square b → hasEmptyCell b → hasEmptyCell (rotateLeft undef b).
Proof.
  intros Hsq (r & c & Hrc).
  destruct (cell_shaped_lt _ _ _ _ _ Hsq Hrc) as [Hr Hc].
  exists (length b - 1 - c), r. by rewrite rotateLeft_cell.
Qed.

Lemma moveUp_changed_empty (board : BoardType) :
  square board → (moveUp board).1 ≠ board → hasEmptyCell (moveUp board).1.
Proof.
  intros Hsq. rewrite moveUp_rows. simpl. intros Hne.
  apply hasEmptyCell_rotateRight; [apply square_newRows, rotateLeft_square|].
  apply changed_has_empty; [apply newRowOf_changed_zero|].
  intros Heq. apply Hne. rewrite Heq. by apply rotateRight_rotateLeft.
Qed.

Lemma moveDown_changed_empty (board : BoardType) :
  square board → (moveDown board).1 ≠ board → hasEmptyCell (moveDown board).1.
Proof.
  intros Hsq. rewrite moveDown_rows. simpl. intros Hne.
  apply hasEmptyCell_rotateLeft; [apply square_newRows, rotateRight_square|].
  apply changed_has_empty; [apply newRowOf_changed_zero|].
  intros Heq. apply Hne. rewrite Heq. by apply rotateLeft_rotateRight.
Qed.

Import GameLogic.

Lemma move_changed_empty (d : Direction) (b : BoardType) :
  square b → (moveFunc d b).1 ≠ b → hasEmptyCell (moveFunc d b).1.
Proof.
  intros Hsq. destruct d; simpl.
  - by apply moveUp_changed_empty.
  - by apply moveDown_changed_empty.
  - apply moveLeft_changed_empty.
  - apply moveRight_changed_empty.
Qed.

(** C10: when a move changes the (square) board, the board it returns has
    an empty cell, so that the [addRandomTile] that [handleMove] calls next
    places a tile and returns its coordinates. *)
Theorem changed_board_has_room (d : Direction) (b : BoardType) (u1 u2 : Q) :
  square b → validDraw u1 →
  areBoardsEqual b (moveFunc d b).1 = false →
  hasEmptyCell (moveFunc d b).1
  ∧ getEmptyCells (moveFunc d b).1 ≠ []
  ∧ ∃ newBoard coords,
      addRandomTile u1 u2 (moveFunc d b).1 = Some (newBoard, Some coords).
Proof.
  intros Hsq Hu Hne%areBoardsEqual_false.
  assert (hasEmptyCell (moveFunc d b).1) as He.
  { apply move_changed_empty; [done|]. congruence. }
  split; [done|]. split; [by apply getEmptyCells_nonempty|].
  destruct (addRandomTile_spawn u1 u2 _ Hu He) as (r & c & _ & Hadd).
  eauto.
Qed.


Lemma changed_board_has_room_witness :
  hasEmptyCell (moveFunc ArrowLeft [[2; 2]; [4; 8]]%Z).1
  ∧ getEmptyCells (moveFunc ArrowLeft [[2; 2]; [4; 8]]%Z).1 ≠ []
  ∧ ∃ newBoard coords,
      addRandomTile (1 # 2) (1 # 2) (moveFunc ArrowLeft [[2; 2]; [4; 8]]%Z).1
      = Some (newBoard, Some coords).
Proof.
  apply (changed_board_has_room ArrowLeft [[2; 2]; [4; 8]]%Z (1 # 2) (1 # 2)).
  - split; [reflexivity|]. repeat constructor.
  - valid_draw.
  - reflexivity.
Defined.

(** ** The session *)

Lemma addRandomTile_total (u1 u2 : Q) (b : BoardType) :
  validDraw u1 → is_Some (addRandomTile u1 u2 b).
Proof.
  intros Hu. destruct (getEmptyCells b) as [|p l] eqn:He.
  - apply getEmptyCells_nil in He. by rewrite addRandomTile_full.
  - assert (hasEmptyCell b) as Hne.
    { apply getEmptyCells_nonempty. by rewrite He. }
    destruct (addRandomTile_spawn u1 u2 b Hu Hne) as (r & c & _ & ->). done.
Qed.

Lemma handleMove_over (moveFn : BoardType → BoardType * Z) (u1 u2 : Q)
    (s : GameState) :
  isGameOver s = true → handleMove moveFn u1 u2 s = Some s.
Proof. intros Hover. unfold handleMove. by rewrite Hover. Qed.

Lemma handleMove_same (moveFn : BoardType → BoardType * Z) (u1 u2 : Q)
    (s : GameState) :
  areBoardsEqual (board s) (moveFn (board s)).1 = true →
  handleMove moveFn u1 u2 s = Some s.
Proof.
  intros Heq. unfold handleMove. destruct (isGameOver s); [done|].
  destruct (moveFn (board s)) as [newBoard moveScore]. simpl in Heq.
  by rewrite Heq.
Qed.

(** What [handleMove] does with a move it takes. *)
Lemma handleMove_accepted (moveFn : BoardType → BoardType * Z) (u1 u2 : Q)
    (s : GameState) (boardWithNewTile : BoardType) (coords : option (nat * nat)) :
  isGameOver s = false →
  areBoardsEqual (board s) (moveFn (board s)).1 = false →
  addRandomTile u1 u2 (moveFn (board s)).1 = Some (boardWithNewTile, coords) →
  handleMove moveFn u1 u2 s
  = Some (mkGameState boardWithNewTile (score s + (moveFn (board s)).2)%Z
            (highScore s)
            (checkWin boardWithNewTile || checkGameOver boardWithNewTile)
            (checkWin boardWithNewTile || hasWon s)).
Proof.
  intros Hover Hne Hadd. unfold handleMove. rewrite Hover.
  destruct (moveFn (board s)) as [newBoard moveScore]. simpl in *.
  rewrite Hne, Hadd. simpl.
  destruct (checkWin boardWithNewTile); simpl; [done|].
  by destruct (checkGameOver boardWithNewTile).
Qed.

(** C4: when the board computed by the move equals the current board cell
    for cell, [handleMove] leaves the whole session as it was: board,
    score, high score, win flag and terminal flag; no tile is spawned. *)
Theorem unchanged_board_is_ignored (d : Direction) (u1 u2 : Q) (s : GameState) :
  (moveFunc d (board s)).1 = board s →
  areBoardsEqual (board s) (moveFunc d (board s)).1 = true
  ∧ handleMove (moveFunc d) u1 u2 s = Some s.
Proof.
  intros Heq.
  assert (areBoardsEqual (board s) (moveFunc d (board s)).1 = true) as Hb.
  { by apply areBoardsEqual_true. }
  split; [done|]. by apply handleMove_same.
Qed.

Lemma unchanged_board_is_ignored_witness :
  areBoardsEqual [[2; 0]; [4; 0]]%Z (moveFunc ArrowLeft [[2; 0]; [4; 0]]%Z).1 = true
  ∧ handleMove (moveFunc ArrowLeft) (1 # 2) (1 # 2)
      (mkGameState [[2; 0]; [4; 0]]%Z 8 20 false false)
    = Some (mkGameState [[2; 0]; [4; 0]]%Z 8 20 false false).
Proof.
  apply (unchanged_board_is_ignored ArrowLeft (1 # 2) (1 # 2)
           (mkGameState [[2; 0]; [4; 0]]%Z 8 20 false false)).
  reflexivity.
Defined.

Lemma handleMove_total (moveFn : BoardType → BoardType * Z) (u1 u2 : Q)
    (s : GameState) :
  validDraw u1 → is_Some (handleMove moveFn u1 u2 s).
Proof.
  intros Hu. destruct (isGameOver s) eqn:Hover.
  { by rewrite handleMove_over. }
  destruct (areBoardsEqual (board s) (moveFn (board s)).1) eqn:Heq.
  { by rewrite handleMove_same. }
  destruct (addRandomTile_total u1 u2 (moveFn (board s)).1 Hu) as [[b' co] Hadd].
  by rewrite (handleMove_accepted _ _ _ _ _ _ Hover Heq Hadd).
Qed.

(** A move adds its score when it is taken, and nothing otherwise. *)
Lemma handleMove_score (moveFn : BoardType → BoardType * Z) (u1 u2 : Q)
    (s s' : GameState) :
  handleMove moveFn u1 u2 s = Some s' →
  score s' = (score s + sumZ (if accepted moveFn s
                               then [(moveFn (board s)).2] else []))%Z.
Proof.
  unfold accepted. destruct (isGameOver s) eqn:Hover.
  { rewrite handleMove_over by done. intros [= <-]. simpl. lia. }
  destruct (areBoardsEqual (board s) (moveFn (board s)).1) eqn:Heq.
  { rewrite handleMove_same by done. intros [= <-]. simpl. lia. }
  destruct (addRandomTile u1 u2 (moveFn (board s)).1) as [[b' co]|] eqn:Hadd.
  - rewrite (handleMove_accepted _ _ _ _ _ _ Hover Heq Hadd).
    intros [= <-]. simpl. lia.
  - unfold handleMove. rewrite Hover.
    destruct (moveFn (board s)) as [newBoard moveScore]. simpl in *.
    by rewrite Heq, Hadd.
Qed.

Lemma syncHighScore_score (s : GameState) : score (syncHighScore s) = score s.
Proof. unfold syncHighScore. by destruct (_ && _). Qed.

Lemma keyDown_score (i : Input) (s s' : GameState) :
  keyDown i s = Some s' →
  score s' = (score s + sumZ (if accepted (moveFunc i.1) s
                               then [(moveFunc i.1 (board s)).2] else []))%Z.
Proof.
  unfold keyDown.
  destruct (handleMove (moveFunc i.1) i.2.1 i.2.2 s) as [s1|] eqn:Hm; [|done].
  intros [= <-]. rewrite syncHighScore_score. by eapply handleMove_score.
Qed.

Lemma keyDown_total (i : Input) (s : GameState) :
  validDraw i.2.1 → is_Some (keyDown i s).
Proof.
  intros Hu. unfold keyDown.
  destruct (handleMove_total (moveFunc i.1) i.2.1 i.2.2 s Hu) as [s1 ->]. done.
Qed.

Lemma play_total (inputs : list Input) (s : GameState) :
  Forall (λ i : Input, validDraw i.2.1) inputs → is_Some (play inputs s).
Proof.
  intros Hall. revert s. induction Hall as [|i inputs Hi _ IH]; intros s; [done|].
  simpl. destruct (keyDown_total i s Hi) as [s1 ->]. simpl. apply IH.
Qed.

Lemma play_score (inputs : list Input) (s s' : GameState) :
  play inputs s = Some s' →
  score s' = (score s + sumZ (acceptedDeltas inputs s))%Z.
Proof.
  revert s. induction inputs as [|i inputs IH]; intros s; simpl.
  - intros [= <-]. lia.
  - destruct (keyDown i s) as [s1|] eqn:Hk; [simpl|done].
    intros Hplay. rewrite (IH _ Hplay), (keyDown_score _ _ _ Hk), sumZ_app. lia.
Qed.

Lemma initBoard_total (size : nat) (u1 u2 u3 u4 : Q) :
  validDraw u1 → validDraw u3 → is_Some (initBoard size u1 u2 u3 u4).
Proof.
  intros H1 H3. unfold initBoard.
  destruct (addRandomTile_total u1 u2 (createEmptyBoard size) H1) as [[b1 c1] ->].
  simpl. destruct c1 as [c1|].
  - destruct (addRandomTile_total u3 u4 b1 H3) as [[b2 c2] ->]. simpl.
    by destruct c2.
  - destruct (addRandomTile_total u3 u4 (createEmptyBoard size) H3) as [[b2 c2] ->].
    simpl. by destruct c2.
Qed.

(** C1 as it is stated, that play goes on after a win: a move taken by a
    session that is not over, whose board after the spawn holds 2048, would
    set the win flag and leave the terminal flag to the no-moves test.  It
    fails on
    [[1024, 1024], [0, 0]] moved left: the session is over although the
    board [[2048, 2], [0, 0]] has empty cells. *)
Lemma play_continues_after_win_counterexample :
  ¬ (∀ (d : Direction) (u1 u2 : Q) (s s' : GameState),
       validDraw u1 →
       isGameOver s = false →
       areBoardsEqual (board s) (moveFunc d (board s)).1 = false →
       handleMove (moveFunc d) u1 u2 s = Some s' →
       checkWin (board s') = true →
       hasWon s' = true ∧ isGameOver s' = checkGameOver (board s')).
Proof.
  intros Hclaim.
  specialize (Hclaim ArrowLeft (0 # 1)%Q (0 # 1)%Q
    (mkGameState [[1024; 1024]; [0; 0]]%Z 0 0 false false)
    (mkGameState [[2048; 2]; [0; 0]]%Z 2048 0 true true)).
  destruct Hclaim as [_ Hover]; try reflexivity.
  - split; [unfold Qle; simpl; lia | reflexivity].
  - discriminate Hover.
Qed.

(** C1, as the code has it: a move taken by a session that is not over
    always yields a new session; when the board after the spawn holds 2048
    the win flag is set and so is the terminal flag, and from then on every
    move input leaves the session unchanged; when it does not hold 2048 the
    win flag is kept and the terminal flag is the no-moves test. *)
Theorem win_ends_session (d : Direction) (u1 u2 : Q) (s : GameState) :
  validDraw u1 →
  isGameOver s = false →
  areBoardsEqual (board s) (moveFunc d (board s)).1 = false →
  ∃ s', handleMove (moveFunc d) u1 u2 s = Some s'
        ∧ (checkWin (board s') = true →
             hasWon s' = true ∧ isGameOver s' = true
             ∧ ∀ (d' : Direction) (v1 v2 : Q),
                 handleMove (moveFunc d') v1 v2 s' = Some s')
        ∧ (checkWin (board s') = false →
             hasWon s' = hasWon s
             ∧ isGameOver s' = checkGameOver (board s')).
Proof.
  intros Hu Hover Hne.
  destruct (addRandomTile_total u1 u2 (moveFunc d (board s)).1 Hu)
    as [[b' co] Hadd].
  rewrite (handleMove_accepted _ _ _ _ _ _ Hover Hne Hadd).
  eexists. split; [reflexivity|]. simpl. split; intros Hwin; rewrite Hwin; simpl.
  - split; [done|]. split; [done|]. intros d' v1 v2. by apply handleMove_over.
  - done.
Qed.

Lemma win_ends_session_witness :
  ∃ s', handleMove (moveFunc ArrowLeft) (0 # 1) (0 # 1)
          (mkGameState [[1024; 1024]; [0; 0]]%Z 0 0 false false) = Some s'
        ∧ (checkWin (board s') = true →
             hasWon s' = true ∧ isGameOver s' = true
             ∧ ∀ (d' : Direction) (v1 v2 : Q),
                 handleMove (moveFunc d') v1 v2 s' = Some s')
        ∧ (checkWin (board s') = false →
             hasWon s' = false ∧ isGameOver s' = checkGameOver (board s')).
Proof.
  apply (win_ends_session ArrowLeft (0 # 1) (0 # 1)
           (mkGameState [[1024; 1024]; [0; 0]]%Z 0 0 false false)).
  - valid_draw.
  - reflexivity.
  - reflexivity.
Defined.

(** ** addRandomTile in the store: what it writes *)

Section StoreFacts.
Import Store.

Lemma fresh_row (st : store) : rowsOf st !! fresh (dom (rowsOf st)) = None.
Proof. apply not_elem_of_dom, is_fresh. Qed.

Lemma fresh_board (st : store) : boardsOf st !! fresh (dom (boardsOf st)) = None.
Proof. apply not_elem_of_dom, is_fresh. Qed.

(** A board that was in the store still reads the same. *)
Lemma readBoard_preserved (st st' : store) (b : loc) (G : BoardType) :
  preserved st st' → readBoard b st = Some G → readBoard b st' = Some G.
Proof.
  intros [Hrows Hboards]. unfold readBoard.
  destruct (boardsOf st !! b) as [ls|] eqn:Hb; [simpl|done].
  rewrite (lookup_weaken _ _ _ _ Hb Hboards). simpl.
  intros HG%mapM_Some. apply mapM_Some.
  eapply Forall2_impl; [exact HG|]. intros l row Hl. simpl in *.
  by eapply lookup_weaken.
Qed.

(** The copies are new, distinct arrays with the contents of the rows. *)
Lemma copyRows_spec (ls : list loc) :
  ∀ (st : store) (rows : BoardType),
    Forall2 (λ l row, rowsOf st !! l = Some row) ls rows →
    ∃ ls' st1,
      copyRows ls st = Some (ls', st1)
      ∧ boardsOf st1 = boardsOf st
      ∧ rowsOf st ⊆ rowsOf st1
      ∧ Forall2 (λ l row, rowsOf st1 !! l = Some row) ls' rows
      ∧ NoDup ls'
      ∧ Forall (λ l, rowsOf st !! l = None) ls'.
Proof.
  induction ls as [|l ls IH]; intros st rows Hrows.
  - apply Forall2_nil_inv_l in Hrows as ->. exists [], st.
    repeat split; try done; constructor.
  - apply Forall2_cons_inv_l in Hrows as (row & rows0 & Hl & Hrows0 & ->).
    simpl. unfold copyRow. rewrite Hl. simpl.
    set (l' := fresh (dom (rowsOf st))).
    set (st1 := mkStore (<[l' := row]> (rowsOf st)) (boardsOf st)).
    assert (rowsOf st ⊆ rowsOf st1) as Hsub.
    { simpl. apply insert_subseteq, fresh_row. }
    destruct (IH st1 rows0) as (ls'' & st2 & -> & Hb & Hsub2 & Hread & Hnd & Hnew).
    { eapply Forall2_impl; [exact Hrows0|]. intros l0 row0 Hl0. simpl in Hl0.
      by eapply lookup_weaken. }
    simpl. exists (l' :: ls''), st2. split; [done|]. split; [done|].
    split; [by etrans|]. split; [|split].
    + constructor; [|done].
      eapply lookup_weaken; [|exact Hsub2]. simpl. apply lookup_insert_eq.
    + apply NoDup_cons. split; [|done]. intros Hin.
      rewrite Forall_forall in Hnew. specialize (Hnew _ Hin). simpl in Hnew.
      by rewrite lookup_insert_eq in Hnew.
    + constructor; [apply fresh_row|].
      eapply Forall_impl; [exact Hnew|]. intros l0 Hl0. simpl in *.
      destruct (rowsOf st !! l0) as [row0|] eqn:Hold; [|done].
      by rewrite (lookup_weaken _ _ _ _ Hold Hsub) in Hl0.
Qed.

Lemma copyBoard_spec (b : loc) (st : store) (G : BoardType) :
  readBoard b st = Some G →
  ∃ b' st1 ls',
    copyBoard b st = Some (b', st1)
    ∧ preserved st st1
    ∧ boardsOf st1 !! b' = Some ls'
    ∧ Forall2 (λ l row, rowsOf st1 !! l = Some row) ls' G
    ∧ NoDup ls'
    ∧ Forall (λ l, rowsOf st !! l = None) ls'.
Proof.
  unfold readBoard, copyBoard.
  destruct (boardsOf st !! b) as [ls|] eqn:Hb; [simpl|done].
  intros HG%mapM_Some.
  destruct (copyRows_spec ls st G HG)
    as (ls' & st1 & -> & Hboards & Hsub & Hread & Hnd & Hnew).
  simpl. eexists _, _, ls'. split; [reflexivity|]. simpl.
  split; [|split; [apply lookup_insert_eq|done]].
  split; [done|]. simpl. rewrite <- Hboards.
  apply insert_subseteq. rewrite Hboards. apply fresh_board.
Qed.

(** The write goes to one of the copies and to no other array. *)
Lemma writeCell_spec (b' : loc) (st st1 : store) (ls' : list loc)
    (G : BoardType) (r c : nat) (v : Z) :
  preserved st st1 →
  boardsOf st1 !! b' = Some ls' →
  Forall2 (λ l row, rowsOf st1 !! l = Some row) ls' G →
  NoDup ls' →
  Forall (λ l, rowsOf st !! l = None) ls' →
  is_Some (cell G r c) →
  ∃ st2, writeCell b' r c v st1 = Some st2
         ∧ preserved st st2
         ∧ readBoard b' st2 = Some (setCell r c v G).
Proof.
  intros [Hsub Hsubb] Hb' Hread Hnd Hnew [w (row & Hrow & Hw)%cell_Some].
  destruct (Forall2_lookup_r _ _ _ _ _ Hread Hrow) as (l & Hl & Hlrow).
  simpl in Hlrow. unfold writeCell. rewrite Hb'. simpl. rewrite Hl. simpl.
  rewrite Hlrow. simpl. eexists. split; [reflexivity|]. split; [split|].
  - simpl. apply map_subseteq_spec. intros l0 row0 Hl0.
    rewrite lookup_insert_ne.
    + by eapply lookup_weaken.
    + intros ->. rewrite Forall_forall in Hnew.
      rewrite Hnew in Hl0; [done|]. apply list_elem_of_lookup. eauto.
  - done.
  - unfold readBoard. simpl. rewrite Hb'. simpl. apply mapM_Some.
    apply Forall2_same_length_lookup. split.
    + unfold setCell. rewrite length_alter. by eapply Forall2_length.
    + intros i l0 row0 Hl0 Hrow0. unfold setCell in Hrow0.
      destruct (decide (i = r)) as [->|Hir].
      * rewrite list_lookup_alter_eq, Hrow in Hrow0. injection Hrow0 as <-.
        rewrite Hl in Hl0. injection Hl0 as <-. apply lookup_insert_eq.
      * rewrite list_lookup_alter_ne in Hrow0 by done.
        rewrite lookup_insert_ne.
        -- exact (Forall2_lookup_lr _ _ _ _ _ _ Hread Hl0 Hrow0).
        -- intros ->. apply Hir. symmetry. by eapply (NoDup_lookup ls').
Qed.

(** The store version computes what [Board.addRandomTile] computes, in a
    new board, and changes no array that was in the store. *)
Lemma addRandomTile_store (u1 u2 : Q) (b : loc) (st : store)
    (G G' : BoardType) (coords : option (nat * nat)) :
  readBoard b st = Some G →
  Board.addRandomTile u1 u2 G = Some (G', coords) →
  ∃ newBoard st',
    Store.addRandomTile u1 u2 b st = Some (newBoard, coords, st')
    ∧ readBoard newBoard st' = Some G'
    ∧ preserved st st'
    ∧ readBoard b st' = Some G.
Proof.
  intros Hb Hadd.
  destruct (copyBoard_spec b st G Hb)
    as (b' & st1 & ls' & Hcopy & Hpres & Hb' & Hread & Hnd & Hnew).
  assert (readBoard b' st1 = Some G) as HG.
  { unfold readBoard. rewrite Hb'. simpl. by apply mapM_Some. }
  unfold Store.addRandomTile. rewrite Hcopy. simpl. rewrite HG. simpl.
  unfold Board.addRandomTile in Hadd. cbv zeta in Hadd.
  rewrite copy_rows in Hadd.
  destruct (length (getEmptyCells G) =? 0).
  { injection Hadd as <- <-. exists b', st1. split; [done|]. split; [done|].
    split; [done|]. by eapply readBoard_preserved. }
  destruct (randomIndex u1 (length (getEmptyCells G)) <? 0)%Z; [done|].
  destruct (getEmptyCells G !! Z.to_nat (randomIndex u1 (length (getEmptyCells G))))
    as [[r c]|] eqn:Hrc; [|done].
  injection Hadd as <- <-.
  assert (is_Some (cell G r c)) as Hcell.
  { exists 0%Z. apply elem_of_getEmptyCells, list_elem_of_lookup. eauto. }
  destruct (writeCell_spec b' st st1 ls' G r c (tileFor u2)
              Hpres Hb' Hread Hnd Hnew Hcell) as (st2 & -> & Hpres2 & Hread2).
  simpl. exists b', st2. split; [done|]. split; [done|]. split; [done|].
  by eapply readBoard_preserved.
Qed.

End StoreFacts.

(** C7: on a board without empty cell [addRandomTile] returns the board as
    it is and no coordinates; on a board with an empty cell, for any draws,
    it returns the coordinates of a cell that held 0 and a board that holds
    2 or 4 there and is the input board everywhere else, with the same
    dimensions; and, the arrays being in a store, the result is a new board
    and every array that was in the store, the input board among them,
    keeps its contents. *)
Theorem addRandomTile_one_new_tile (u1 u2 : Q) (board : BoardType) :
  (¬ hasEmptyCell board → addRandomTile u1 u2 board = Some (board, None))
  ∧ (validDraw u1 →
     (hasEmptyCell board →
        ∃ r c v,
          addRandomTile u1 u2 board = Some (setCell r c v board, Some (r, c))
          ∧ cell board r c = Some 0%Z
          ∧ (v = 2%Z ∨ v = 4%Z)
          ∧ cell (setCell r c v board) r c = Some v
          ∧ (∀ i j, (i, j) ≠ (r, c) →
               cell (setCell r c v board) i j = cell board i j)
          ∧ length <$> setCell r c v board = length <$> board)
     ∧ (∀ (b : nat) (st : Store.store),
          Store.readBoard b st = Some board →
          ∃ newBoard coords st' board',
            Store.addRandomTile u1 u2 b st = Some (newBoard, coords, st')
            ∧ addRandomTile u1 u2 board = Some (board', coords)
            ∧ Store.readBoard newBoard st' = Some board'
            ∧ Store.preserved st st'
            ∧ Store.readBoard b st' = Some board)).
Proof.
  split; [apply addRandomTile_full|]. intros Hu. split.
  - intros He.
    destruct (addRandomTile_spawn u1 u2 board Hu He) as (r & c & Hrc & Hadd).
    exists r, c, (tileFor u2). split; [done|]. split; [done|].
    split; [apply tileFor_2_or_4|]. split; [by apply cell_setCell_hit|].
    split; [|apply setCell_lengths].
    intros i j Hij. apply cell_setCell_ne. congruence.
  - intros b st Hb.
    destruct (addRandomTile_total u1 u2 board Hu) as [[board' coords] Hadd].
    destruct (addRandomTile_store u1 u2 b st board board' coords Hb Hadd)
      as (newBoard & st' & Hs & Hread & Hpres & Hsame).
    exists newBoard, coords, st', board'. done.
Qed.

Lemma addRandomTile_one_new_tile_witness :
  (hasEmptyCell [[2; 0]; [0; 4]]%Z →
     ∃ r c v,
       addRandomTile (1 # 2) (19 # 20) [[2; 0]; [0; 4]]%Z
       = Some (setCell r c v [[2; 0]; [0; 4]]%Z, Some (r, c))
       ∧ cell [[2; 0]; [0; 4]]%Z r c = Some 0%Z
       ∧ (v = 2%Z ∨ v = 4%Z)
       ∧ cell (setCell r c v [[2; 0]; [0; 4]]%Z) r c = Some v
       ∧ (∀ i j, (i, j) ≠ (r, c) →
            cell (setCell r c v [[2; 0]; [0; 4]]%Z) i j
            = cell [[2; 0]; [0; 4]]%Z i j)
       ∧ length <$> setCell r c v [[2; 0]; [0; 4]]%Z
         = length <$> [[2; 0]; [0; 4]]%Z)
  ∧ (∀ (b : nat) (st : Store.store),
       Store.readBoard b st = Some [[2; 0]; [0; 4]]%Z →
       ∃ newBoard coords st' board',
         Store.addRandomTile (1 # 2) (19 # 20) b st = Some (newBoard, coords, st')
         ∧ addRandomTile (1 # 2) (19 # 20) [[2; 0]; [0; 4]]%Z
           = Some (board', coords)
         ∧ Store.readBoard newBoard st' = Some board'
         ∧ Store.preserved st st'
         ∧ Store.readBoard b st' = Some [[2; 0]; [0; 4]]%Z).
Proof.
  apply (proj2 (addRandomTile_one_new_tile (1 # 2) (19 # 20) [[2; 0]; [0; 4]]%Z)).
  valid_draw.
Defined.

(** The same on a concrete store: the board [[2, 0], [0, 4]] at address 2,
    its rows at 0 and 1. *)
Example addRandomTile_store_sample :
  let st := Store.mkStore {[ 0 := [2; 0]%Z; 1 := [0; 4]%Z ]} {[ 2 := [0; 1] ]} in
  ∃ newBoard st',
    Store.addRandomTile (1 # 2) (19 # 20) 2 st
    = Some (newBoard, Some (1, 0), st')
    ∧ Store.readBoard newBoard st' = Some [[2; 0]; [4; 4]]%Z
    ∧ Store.readBoard 2 st' = Some [[2; 0]; [0; 4]]%Z.
Proof. eexists _, _. split; [vm_compute; reflexivity|]. split; vm_compute; reflexivity. Qed.

(** ** A board in the no-moves condition is left unchanged by every move *)

Lemma mergePass_fixed (l : list Z) : noAdjacent l → mergePass l = (l, 0%Z).
Proof.
  induction l as [| x | x l IH | x y l Hne IH] using mergePass_ind;
    intros Hadj; [done | done | |].
  - by destruct (Hadj 0 x).
  - rewrite mergePass_cons_ne by done. rewrite IH; [done|].
    intros i v Hi. apply (Hadj (S i) v Hi).
Qed.

Lemma removeZeros_fixed (l : list Z) : Z0 ∉ l → removeZeros l = l.
Proof.
  intros Hz. by destruct (removeZeros_id_or_shorter l) as [[_ ?]|[? _]].
Qed.

Lemma slideAndMerge_fixed (row : list Z) :
  Z0 ∉ row → noAdjacent row → slideAndMerge row = (row, 0%Z).
Proof.
  intros Hz Hadj. rewrite slideAndMerge_reduceLine. unfold reduceLine.
  rewrite removeZeros_fixed, mergePass_fixed by done. unfold padRight.
  replace (length row - length row) with 0 by lia. simpl. by rewrite app_nil_r.
Qed.

Lemma noAdjacent_reverse (l : list Z) : noAdjacent l → noAdjacent (reverse l).
Proof.
  intros Hadj i v Hi HSi.
  pose proof (lookup_lt_Some _ _ _ HSi) as Hlt. rewrite length_reverse in Hlt.
  rewrite reverse_lookup in Hi by lia. rewrite reverse_lookup in HSi by lia.
  apply (Hadj (length l - S (S i)) v HSi).
  by replace (S (length l - S (S i))) with (length l - S i) by lia.
Qed.

Lemma terminal_rows (b : BoardType) (row : list Z) :
  terminal b → row ∈ b → (Z0 ∉ row) ∧ noAdjacent row.
Proof.
  intros [Hfull Hadj] Hin. split.
  - intros Hz. apply Hfull. by eapply hasEmptyCell_row.
  - intros i v Hi HSi. apply Hadj.
    apply list_elem_of_lookup in Hin as [r Hr].
    exists r, i, v. split; [apply cell_Some; eauto|].
    right. apply cell_Some. exists row. split; [done|].
    by rewrite Nat.add_1_r.
Qed.

Lemma fmap_fixed {A : Type} (f : A → A) (l : list A) :
  (∀ x, x ∈ l → f x = x) → f <$> l = l.
Proof.
  induction l as [|x l IH]; intros Hf; [done|]. rewrite fmap_cons.
  rewrite Hf by (apply elem_of_cons; by left).
  rewrite IH; [done|]. intros y Hy. apply Hf, elem_of_cons. by right.
Qed.

Lemma newRows_terminal (b : BoardType) : terminal b → newRowOf <$> b = b.
Proof.
  intros Hterm. apply fmap_fixed. intros row Hin.
  destruct (terminal_rows b row Hterm Hin) as [Hz Hadj].
  unfold newRowOf. by rewrite slideAndMerge_fixed.
Qed.

Lemma moveLeft_terminal (b : BoardType) : terminal b → (moveLeft b).1 = b.
Proof. intros Hterm. rewrite moveLeft_rows. simpl. by apply newRows_terminal. Qed.

Lemma moveRight_terminal (b : BoardType) : terminal b → (moveRight b).1 = b.
Proof.
  intros Hterm. rewrite moveRight_rows. simpl. rewrite <- !list_fmap_compose.
  apply fmap_fixed. intros row Hin. simpl.
  destruct (terminal_rows b row Hterm Hin) as [Hz Hadj].
  unfold newRowOf. rewrite slideAndMerge_fixed.
  - simpl. apply reverse_involutive.
  - by rewrite elem_of_reverse.
  - by apply noAdjacent_reverse.
Qed.

Lemma adjacentEqual_rotateRight (undef : Z) (b : BoardType) :
  square b → adjacentEqual b → adjacentEqual (rotateRight undef b).
Proof.
  intros Hsq (r & c & v & Hv & Hadj).
  destruct (cell_shaped_lt _ _ _ _ _ Hsq Hv) as [Hr Hc].
  destruct Hadj as [Hd|Hd]; destruct (cell_shaped_lt _ _ _ _ _ Hsq Hd) as [Hr' Hc'].
  - exists c, (length b - 1 - (r + 1)), v. split.
    + by rewrite rotateRight_cell.
    + right. replace (length b - 1 - (r + 1) + 1) with (length b - 1 - r) by lia.
      by rewrite rotateRight_cell.
  - exists c, (length b - 1 - r), v. split.
    + by rewrite rotateRight_cell.
    + left. by rewrite rotateRight_cell.
Qed.

Lemma adjacentEqual_rotateLeft (undef : Z) (b : BoardType) :
  square b → adjacentEqual b → adjacentEqual (rotateLeft undef b).
Proof.
  intros Hsq (r & c & v & Hv & Hadj).
  destruct (cell_shaped_lt _ _ _ _ _ Hsq Hv) as [Hr Hc].
  destruct Hadj as [Hd|Hd]; destruct (cell_shaped_lt _ _ _ _ _ Hsq Hd) as [Hr' Hc'].
  - exists (length b - 1 - c), r, v. split.
    + by rewrite rotateLeft_cell.
    + right. by rewrite rotateLeft_cell.
  - exists (length b - 1 - (c + 1)), r, v. split.
    + by rewrite rotateLeft_cell.
    + left. replace (length b - 1 - (c + 1) + 1) with (length b - 1 - c) by lia.
      by rewrite rotateLeft_cell.
Qed.

Lemma terminal_rotateLeft (undef : Z) (b : BoardType) :
  square b → terminal b → terminal (rotateLeft undef b).
Proof.
  intros Hsq [Hfull Hadj]. split; intros H.
  - apply Hfull. rewrite <- (rotateRight_rotateLeft undef b Hsq).
    apply hasEmptyCell_rotateRight; [apply rotateLeft_square|done].
  - apply Hadj. rewrite <- (rotateRight_rotateLeft undef b Hsq).
    apply adjacentEqual_rotateRight; [apply rotateLeft_square|done].
Qed.

Lemma terminal_rotateRight (undef : Z) (b : BoardType) :
  square b → terminal b → terminal (rotateRight undef b).
Proof.
  intros Hsq [Hfull Hadj]. split; intros H.
  - apply Hfull. rewrite <- (rotateLeft_rotateRight undef b Hsq).
    apply hasEmptyCell_rotateLeft; [apply rotateRight_square|done].
  - apply Hadj. rewrite <- (rotateLeft_rotateRight undef b Hsq).
    apply adjacentEqual_rotateLeft; [apply rotateRight_square|done].
Qed.

Lemma moveUp_terminal (b : BoardType) :
  square b → terminal b → (moveUp b).1 = b.
Proof.
  intros Hsq Hterm. rewrite moveUp_rows. simpl.
  rewrite newRows_terminal by by apply terminal_rotateLeft.
  by apply rotateRight_rotateLeft.
Qed.

Lemma moveDown_terminal (b : BoardType) :
  square b → terminal b → (moveDown b).1 = b.
Proof.
  intros Hsq Hterm. rewrite moveDown_rows. simpl.
  rewrite newRows_terminal by by apply terminal_rotateRight.
  by apply rotateLeft_rotateRight.
Qed.

Lemma isGameOver_terminal_board (b : BoardType) :
  square b → Board.isGameOver b = true → terminal b.
Proof.
  intros Hsq Hover.
  assert (¬ hasEmptyCell b) as Hfull.
  { intros He. by rewrite (isGameOver_empty b He) in Hover. }
  split; [done|].
  rewrite (isGameOver_full b Hfull) in Hover.
  intros Hadj%(canMove_adjacentEqual b Hsq). by rewrite Hadj in Hover.
Qed.

(** Once [isGameOver] holds of a square board, no direction changes it. *)
Lemma no_move_on_terminal (d : Direction) (b : BoardType) :
  square b → Board.isGameOver b = true → (moveFunc d b).1 = b.
Proof.
  intros Hsq Hterm%isGameOver_terminal_board; [|done]. destruct d; simpl.
  - by apply moveUp_terminal.
  - by apply moveDown_terminal.
  - by apply moveLeft_terminal.
  - by apply moveRight_terminal.
Qed.

(** ** Sessions without a win: the moves taken are the moves that change
    the board *)

Lemma square_moveFunc (d : Direction) (b : BoardType) :
  square b → square (moveFunc d b).1.
Proof.
  intros Hsq. destruct d; simpl.
  - rewrite moveUp_rows. apply rotateRight_square.
  - rewrite moveDown_rows. apply rotateLeft_square.
  - rewrite moveLeft_rows. by apply square_newRows.
  - rewrite moveRight_rows. simpl.
    apply square_fmap; [apply length_reverse|]. apply square_newRows.
    by apply square_fmap; [apply length_reverse|].
Qed.

Lemma square_setCell {T : Type} (g : list (list T)) (r c : nat) (v : T) :
  square g → square (setCell r c v g).
Proof.
  intros Hsq. unfold square. replace (length (setCell r c v g)) with (length g).
  - by apply shaped_setCell.
  - unfold setCell. by rewrite length_alter.
Qed.

Lemma addRandomTile_square (u1 u2 : Q) (b b' : BoardType)
    (coords : option (nat * nat)) :
  square b → addRandomTile u1 u2 b = Some (b', coords) → square b'.
Proof.
  intros Hsq. unfold addRandomTile. cbv zeta. rewrite copy_rows.
  destruct (length (getEmptyCells b) =? 0); [by intros [= <- _]|].
  destruct (randomIndex u1 (length (getEmptyCells b)) <? 0)%Z; [done|].
  destruct (getEmptyCells b !! _) as [[r c]|]; [|done].
  intros [= <- _]. by apply square_setCell.
Qed.

Lemma createEmptyBoard_square (size : nat) : square (createEmptyBoard size).
Proof.
  unfold square, createEmptyBoard. rewrite length_replicate.
  apply shaped_replicate.
Qed.

Lemma initBoard_square (size : nat) (u1 u2 u3 u4 : Q) (b : BoardType)
    (tiles : list (nat * nat)) :
  initBoard size u1 u2 u3 u4 = Some (b, tiles) → square b.
Proof.
  unfold initBoard.
  destruct (addRandomTile u1 u2 (createEmptyBoard size)) as [[b1 c1]|] eqn:H1;
    [simpl|done].
  pose proof (addRandomTile_square _ _ _ _ _ (createEmptyBoard_square size) H1)
    as Hsq1.
  destruct c1 as [c1|].
  - destruct (addRandomTile u3 u4 b1) as [[b2 c2]|] eqn:H2; [simpl|done].
    pose proof (addRandomTile_square _ _ _ _ _ Hsq1 H2) as Hsq2.
    destruct c2; by intros [= <- _].
  - destruct (addRandomTile u3 u4 (createEmptyBoard size)) as [[b2 c2]|] eqn:H2;
      [simpl|done].
    pose proof (addRandomTile_square _ _ _ _ _ (createEmptyBoard_square size) H2)
      as Hsq2.
    destruct c2; intros [= <- _]; [done|apply createEmptyBoard_square].
Qed.

(** The two ways [handleMove] ends. *)
Lemma handleMove_cases (moveFn : BoardType → BoardType * Z) (u1 u2 : Q)
    (s s' : GameState) :
  handleMove moveFn u1 u2 s = Some s' →
  (accepted moveFn s = false ∧ s' = s)
  ∨ (accepted moveFn s = true
     ∧ ∃ b' coords,
         addRandomTile u1 u2 (moveFn (board s)).1 = Some (b', coords)
         ∧ s' = mkGameState b' (score s + (moveFn (board s)).2)%Z (highScore s)
                  (checkWin b' || checkGameOver b') (checkWin b' || hasWon s)).
Proof.
  unfold accepted. destruct (isGameOver s) eqn:Hover.
  { rewrite handleMove_over by done. intros [= <-]. by left. }
  destruct (areBoardsEqual (board s) (moveFn (board s)).1) eqn:Heq.
  { rewrite handleMove_same by done. intros [= <-]. by left. }
  destruct (addRandomTile u1 u2 (moveFn (board s)).1) as [[b' co]|] eqn:Hadd.
  - rewrite (handleMove_accepted _ _ _ _ _ _ Hover Heq Hadd).
    intros [= <-]. right. split; [done|]. by exists b', co.
  - unfold handleMove. rewrite Hover.
    destruct (moveFn (board s)) as [newBoard moveScore]. simpl in *.
    by rewrite Heq, Hadd.
Qed.

Lemma handleMove_inv (d : Direction) (u1 u2 : Q) (s s' : GameState) :
  sessionInv s → handleMove (moveFunc d) u1 u2 s = Some s' → sessionInv s'.
Proof.
  intros [Hsq Hterm] [[_ ->]|(_ & b' & co & Hadd & ->)]%handleMove_cases;
    [by split|].
  split; simpl.
  - eapply addRandomTile_square; [|exact Hadd]. by apply square_moveFunc.
  - intros Hover Hwon. apply orb_false_iff in Hwon as [Hwin _].
    by rewrite Hwin in Hover.
Qed.

Lemma handleMove_hasWon (moveFn : BoardType → BoardType * Z) (u1 u2 : Q)
    (s s' : GameState) :
  handleMove moveFn u1 u2 s = Some s' → hasWon s' = false → hasWon s = false.
Proof.
  intros [[_ ->]|(_ & b' & co & Hadd & ->)]%handleMove_cases; [done|].
  simpl. by intros [_ ?]%orb_false_iff.
Qed.

Lemma syncHighScore_inv (s : GameState) : sessionInv s → sessionInv (syncHighScore s).
Proof. unfold syncHighScore. by destruct (_ && _). Qed.

Lemma syncHighScore_hasWon (s : GameState) : hasWon (syncHighScore s) = hasWon s.
Proof. unfold syncHighScore. by destruct (_ && _). Qed.

Lemma keyDown_inv (i : Input) (s s' : GameState) :
  sessionInv s → keyDown i s = Some s' → sessionInv s'.
Proof.
  intros Hinv. unfold keyDown.
  destruct (handleMove (moveFunc i.1) i.2.1 i.2.2 s) as [s1|] eqn:Hm; [|done].
  intros [= <-]. apply syncHighScore_inv. by eapply handleMove_inv.
Qed.

Lemma keyDown_hasWon (i : Input) (s s' : GameState) :
  keyDown i s = Some s' → hasWon s' = false → hasWon s = false.
Proof.
  unfold keyDown.
  destruct (handleMove (moveFunc i.1) i.2.1 i.2.2 s) as [s1|] eqn:Hm; [|done].
  intros [= <-]. rewrite syncHighScore_hasWon. by eapply handleMove_hasWon.
Qed.

Lemma play_hasWon (inputs : list Input) (s s' : GameState) :
  play inputs s = Some s' → hasWon s' = false → hasWon s = false.
Proof.
  revert s. induction inputs as [|i inputs IH]; intros s; simpl.
  - by intros [= <-].
  - destruct (keyDown i s) as [s1|] eqn:Hk; [simpl|done].
    intros Hplay Hwon. eapply keyDown_hasWon; [exact Hk|]. by eapply IH.
Qed.

(** Before any win, the session takes a move exactly when the move changes
    the board. *)
Lemma accepted_changing (d : Direction) (s : GameState) :
  sessionInv s → hasWon s = false →
  accepted (moveFunc d) s = changing (moveFunc d) s.
Proof.
  intros [Hsq Hterm] Hwon. unfold accepted, changing.
  destruct (isGameOver s) eqn:Hover; [simpl|done].
  rewrite (no_move_on_terminal d (board s) Hsq (Hterm eq_refl Hwon)).
  symmetry. apply negb_false_iff. by apply areBoardsEqual_true.
Qed.

Lemma play_changingDeltas (inputs : list Input) (s s' : GameState) :
  sessionInv s → play inputs s = Some s' → hasWon s' = false →
  acceptedDeltas inputs s = changingDeltas inputs s.
Proof.
  revert s. induction inputs as [|i inputs IH]; intros s Hinv; [done|]. simpl.
  destruct (keyDown i s) as [s1|] eqn:Hk; [simpl|done].
  intros Hplay Hwon.
  pose proof (play_hasWon _ _ _ Hplay Hwon) as Hwon1.
  pose proof (keyDown_hasWon _ _ _ Hk Hwon1) as Hwon0.
  rewrite (accepted_changing _ _ Hinv Hwon0).
  f_equal. apply IH; [by eapply keyDown_inv|done|done].
Qed.

(** C8: from the initial session, whose score is 0, the score after any
    sequence of inputs is the sum of the score deltas of the moves the
    session took; a move that was ignored adds nothing, and neither does a
    spawned tile.  As long as the win flag is not set, the moves taken are
    all the moves that change the board. *)
Theorem score_is_sum_of_deltas (boardSize : nat) (u1 u2 u3 u4 : Q)
    (inputs : list Input) :
  validDraw u1 → validDraw u3 →
  Forall (λ i : Input, validDraw i.2.1) inputs →
  ∃ s0 s', initialSession boardSize u1 u2 u3 u4 = Some s0
           ∧ score s0 = 0%Z
           ∧ play inputs s0 = Some s'
           ∧ score s' = sumZ (acceptedDeltas inputs s0)
           ∧ (hasWon s' = false →
                acceptedDeltas inputs s0 = changingDeltas inputs s0).
Proof.
  intros H1 H3 Hall.
  destruct (initBoard_total boardSize u1 u2 u3 u4 H1 H3) as [[b0 tiles] Hinit].
  set (s0 := mkGameState b0 0 0 false false).
  assert (initialSession boardSize u1 u2 u3 u4 = Some s0) as Hs0.
  { unfold initialSession. by rewrite Hinit. }
  destruct (play_total inputs s0 Hall) as [s' Hplay].
  exists s0, s'. split; [done|]. split; [done|]. split; [done|]. split.
  - rewrite (play_score _ _ _ Hplay). simpl. lia.
  - intros Hwon. eapply play_changingDeltas; [|exact Hplay|exact Hwon].
    split; [by eapply initBoard_square|done].
Qed.

Lemma score_is_sum_of_deltas_witness :
  ∃ s0 s', initialSession 2 (1 # 2) (1 # 3) (1 # 4) (19 # 20) = Some s0
           ∧ score s0 = 0%Z
           ∧ play [(ArrowRight, (0 # 1, 1 # 2)%Q); (ArrowUp, (1 # 2, 1 # 2)%Q)] s0
             = Some s'
           ∧ score s'
             = sumZ (acceptedDeltas
                       [(ArrowRight, (0 # 1, 1 # 2)%Q); (ArrowUp, (1 # 2, 1 # 2)%Q)] s0)
           ∧ (hasWon s' = false →
                acceptedDeltas
                  [(ArrowRight, (0 # 1, 1 # 2)%Q); (ArrowUp, (1 # 2, 1 # 2)%Q)] s0
                = changingDeltas
                    [(ArrowRight, (0 # 1, 1 # 2)%Q); (ArrowUp, (1 # 2, 1 # 2)%Q)] s0).
Proof.
  apply (score_is_sum_of_deltas 2 (1 # 2) (1 # 3) (1 # 4) (19 # 20)
           [(ArrowRight, (0 # 1, 1 # 2)%Q); (ArrowUp, (1 # 2, 1 # 2)%Q)]).
  - valid_draw.
  - valid_draw.
  - repeat constructor; simpl; unfold Qle; simpl; lia.
Defined.

(** * Further properties of the board functions *)

(** ** getEmptyCells *)

Lemma emptyInRow_sorted (r c0 : nat) (row : list Z) :
  StronglySorted rowMajorLt (emptyInRow r c0 row).
Proof.
  revert c0. induction row as [|v row IH]; intros c0; simpl; [constructor|].
  apply StronglySorted_app_2; [|destruct (bool_decide _); repeat constructor|apply IH].
  intros [r1 c1] [r2 c2] H1 H2.
  apply elem_of_emptyInRow in H2 as (-> & k & -> & _).
  case_bool_decide; [|by apply elem_of_nil in H1].
  apply list_elem_of_singleton in H1 as [= -> ->]. right. simpl. lia.
Qed.

Lemma emptyFrom_sorted (r0 : nat) (board : BoardType) :
  StronglySorted rowMajorLt (emptyFrom r0 board).
Proof.
  revert r0. induction board as [|row board IH]; intros r0; simpl; [constructor|].
  apply StronglySorted_app_2; [|apply emptyInRow_sorted|apply IH].
  intros [r1 c1] [r2 c2] H1 H2.
  apply elem_of_emptyInRow in H1 as (-> & _).
  apply elem_of_emptyFrom in H2 as (k & -> & _). left. simpl. lia.
Qed.

Lemma rowMajor_sorted_NoDup (l : list (nat * nat)) :
  StronglySorted rowMajorLt l → NoDup l.
Proof.
  induction 1 as [|p l _ IH Hall]; constructor; [|done].
  intros Hin. rewrite Forall_forall in Hall. specialize (Hall p Hin).
  destruct Hall as [?|[_ ?]]; lia.
Qed.

(** X1: [getEmptyCells] returns the coordinates of the cells holding 0,
    all of them and only them, each once, in row-major order. *)
Theorem getEmptyCells_row_major (board : BoardType) :
  (∀ r c, (r, c) ∈ getEmptyCells board ↔ cell board r c = Some 0%Z)
  ∧ StronglySorted rowMajorLt (getEmptyCells board)
  ∧ NoDup (getEmptyCells board).
Proof.
  split; [intros r c; apply elem_of_getEmptyCells|].
  pose proof (emptyFrom_sorted 0 board) as Hs. split; [done|].
  by apply rowMajor_sorted_NoDup.
Qed.

(** ** createEmptyBoard and initBoard *)

Lemma createEmptyBoard_shaped (size : nat) : shaped size (createEmptyBoard size).
Proof. apply shaped_replicate. Qed.

Lemma createEmptyBoard_cell (size r c : nat) :
  r < size → c < size → cell (createEmptyBoard size) r c = Some 0%Z.
Proof.
  intros Hr Hc. unfold cell, createEmptyBoard.
  rewrite lookup_replicate_2 by done. simpl. by apply lookup_replicate_2.
Qed.

Lemma hasEmptyCell_shaped_0 (b : BoardType) : shaped 0 b → ¬ hasEmptyCell b.
Proof.
  intros Hsh (r & c & Hrc). destruct (cell_shaped_lt _ _ _ _ _ Hsh Hrc). lia.
Qed.

(** X2: for draws in [0, 1), [initBoard size] returns a [size] x [size]
    board and the coordinates of the tiles it placed: two distinct cells
    (one on a 1 x 1 board, none on the empty board), each holding 2 or 4,
    every other cell holding 0. *)
Theorem initBoard_two_tiles (size : nat) (u1 u2 u3 u4 : Q) :
  validDraw u1 → validDraw u3 →
  ∃ board tiles,
    initBoard size u1 u2 u3 u4 = Some (board, tiles)
    ∧ shaped size board
    ∧ length tiles = Nat.min 2 (size * size)
    ∧ NoDup tiles
    ∧ (∀ r c, (r, c) ∈ tiles →
         cell board r c = Some 2%Z ∨ cell board r c = Some 4%Z)
    ∧ (∀ r c, r < size → c < size → (r, c) ∉ tiles →
         cell board r c = Some 0%Z).
Proof.
  intros H1 H3. unfold initBoard.
  pose proof (createEmptyBoard_shaped size) as Hsh0.
  destruct (decide (size = 0)) as [->|Hsize].
  { rewrite !addRandomTile_full by by apply hasEmptyCell_shaped_0. simpl.
    exists [], []. split; [done|]. split; [done|]. split; [done|].
    split; [constructor|]. split; [by intros r c ?%elem_of_nil|]. intros; lia. }
  assert (hasEmptyCell (createEmptyBoard size)) as He0.
  { exists 0, 0. apply createEmptyBoard_cell; lia. }
  destruct (addRandomTile_spawn u1 u2 _ H1 He0) as (r1 & c1 & Hz1 & ->). simpl.
  destruct (cell_shaped_lt _ _ _ _ _ Hsh0 Hz1) as [Hr1 Hc1].
  set (b1 := setCell r1 c1 (tileFor u2) (createEmptyBoard size)).
  assert (shaped size b1) as Hsh1 by by apply shaped_setCell.
  assert (cell b1 r1 c1 = Some (tileFor u2)) as Hb1.
  { by apply (cell_setCell_eq size). }
  assert (∀ r c, r < size → c < size → (r, c) ≠ (r1, c1) →
            cell b1 r c = Some 0%Z) as Hrest1.
  { intros r c Hr Hc Hne. unfold b1. rewrite cell_setCell_ne by congruence.
    by apply createEmptyBoard_cell. }
  assert (cell b1 r1 c1 = Some 2%Z ∨ cell b1 r1 c1 = Some 4%Z) as Ht1.
  { rewrite Hb1. destruct (tileFor_2_or_4 u2) as [->| ->]; auto. }
  destruct (decide (size = 1)) as [->|Hsize1].
  - (* a single cell: the second call finds the board full *)
    rewrite (addRandomTile_full u3 u4 b1).
    + simpl. exists b1, [(r1, c1)]. split; [done|]. split; [done|].
      split; [done|]. split; [apply NoDup_singleton|]. split.
      * by intros r c [= -> ->]%list_elem_of_singleton.
      * intros r c Hr Hc Hnot. apply Hrest1; [done..|].
        intros Heq. apply Hnot. rewrite Heq. by apply list_elem_of_singleton.
    + intros (r & c & Hrc). destruct (cell_shaped_lt _ _ _ _ _ Hsh1 Hrc).
      replace r with r1 in Hrc by lia. replace c with c1 in Hrc by lia.
      rewrite Hb1 in Hrc. destruct (tileFor_2_or_4 u2) as [Ht|Ht];
        rewrite Ht in Hrc; discriminate.
  - assert (hasEmptyCell b1) as He1.
    { destruct (decide ((0, 0) = (r1, c1))) as [Heq|Hne].
      - exists 0, 1. apply Hrest1; [lia..|]. injection Heq as <- <-. congruence.
      - exists 0, 0. apply Hrest1; [lia..|done]. }
    destruct (addRandomTile_spawn u3 u4 _ H3 He1) as (r2 & c2 & Hz2 & ->). simpl.
    destruct (cell_shaped_lt _ _ _ _ _ Hsh1 Hz2) as [Hr2 Hc2].
    assert ((r2, c2) ≠ (r1, c1)) as Hne.
    { intros [= -> ->]. rewrite Hb1 in Hz2.
      destruct (tileFor_2_or_4 u4), (tileFor_2_or_4 u2) as [Ht|Ht];
        rewrite Ht in Hz2; discriminate. }
    exists (setCell r2 c2 (tileFor u4) b1), [(r1, c1); (r2, c2)].
    split; [done|]. split; [by apply shaped_setCell|]. split.
    { simpl. destruct size as [|[|[|n]]]; simpl; lia. }
    split.
    { apply NoDup_cons. split; [|apply NoDup_singleton].
      intros Hin%list_elem_of_singleton. by apply Hne. }
    split.
    + intros r c [[= -> ->]|[= -> ->]%list_elem_of_singleton]%elem_of_cons.
      * rewrite cell_setCell_ne by done. done.
      * rewrite (cell_setCell_eq size) by done.
        destruct (tileFor_2_or_4 u4) as [->| ->]; auto.
    + intros r c Hr Hc Hnot.
      rewrite cell_setCell_ne.
      * apply Hrest1; [done..|]. intros Heq. apply Hnot. rewrite Heq.
        apply elem_of_cons. by left.
      * intros Heq. apply Hnot. rewrite <- Heq.
        apply elem_of_cons. right. by apply list_elem_of_singleton.
Qed.

Lemma initBoard_two_tiles_witness :
  ∃ board tiles,
    initBoard 4 (1 # 2) (1 # 3) (1 # 4) (19 # 20) = Some (board, tiles)
    ∧ shaped 4 board
    ∧ length tiles = Nat.min 2 (4 * 4)
    ∧ NoDup tiles
    ∧ (∀ r c, (r, c) ∈ tiles →
         cell board r c = Some 2%Z ∨ cell board r c = Some 4%Z)
    ∧ (∀ r c, r < 4 → c < 4 → (r, c) ∉ tiles →
         cell board r c = Some 0%Z).
Proof.
  apply (initBoard_two_tiles 4 (1 # 2) (1 # 3) (1 # 4) (19 # 20)); valid_draw.
Defined.

(** ** areBoardsEqual and hasWon *)

(** X3: [areBoardsEqual] answers [true] exactly for two boards with the
    same rows (same number of rows, same length of each row, same value in
    each cell); it does not depend on the order of its arguments. *)
Theorem areBoardsEqual_decides_equality (b1 b2 : BoardType) :
  (areBoardsEqual b1 b2 = true ↔ b1 = b2)
  ∧ (areBoardsEqual b1 b2 = true ↔
       length b1 = length b2
       ∧ ∀ i row1 row2, b1 !! i = Some row1 → b2 !! i = Some row2 →
           length row1 = length row2
           ∧ ∀ j, j < length row1 → row1 !! j = row2 !! j)
  ∧ areBoardsEqual b1 b2 = areBoardsEqual b2 b1.
Proof.
  split; [apply areBoardsEqual_true|]. split.
  - rewrite areBoardsEqual_true. split.
    + intros ->. split; [done|]. intros i row1 row2 H1 H2.
      rewrite H1 in H2. by injection H2 as ->.
    + intros [Hlen Hrows]. apply list_eq_same_length with (length b1); [done..|].
      intros i row1 row2 Hi H1 H2.
      destruct (Hrows i row1 row2 H1 H2) as [Hl Hcells].
      apply list_eq_same_length with (length row1); [done..|].
      intros j x y Hj Hx Hy. specialize (Hcells j Hj). congruence.
  - destruct (areBoardsEqual b1 b2) eqn:H12, (areBoardsEqual b2 b1) eqn:H21;
      try done.
    + apply areBoardsEqual_true in H12. apply areBoardsEqual_false in H21.
      by destruct H21.
    + apply areBoardsEqual_true in H21. apply areBoardsEqual_false in H12.
      by destruct H12.
Qed.

Lemma existsb_elem_of {A : Type} (f : A → bool) (l : list A) :
  existsb f l = true ↔ ∃ x, x ∈ l ∧ f x = true.
Proof.
  rewrite existsb_exists. split; intros (x & Hx & Hf); exists x;
    (split; [by apply list_elem_of_In|done]).
Qed.

Lemma hasWon_true (board : BoardType) :
  Board.hasWon board = true ↔ ∃ r c, cell board r c = Some 2048%Z.
Proof.
  unfold Board.hasWon. rewrite existsb_elem_of. split.
  - intros (row & [r Hr]%list_elem_of_lookup
              & (v & [c Hc]%list_elem_of_lookup & ->%Z.eqb_eq)%existsb_elem_of).
    exists r, c. apply cell_Some. eauto.
  - intros (r & c & (row & Hr & Hc)%cell_Some). exists row.
    split; [apply list_elem_of_lookup; eauto|].
    apply existsb_elem_of. exists 2048%Z.
    split; [apply list_elem_of_lookup; eauto|done].
Qed.

(** ** More on the line reducer *)

Lemma removeZeros_no_zero (l : list Z) : Z0 ∉ removeZeros l.
Proof. unfold removeZeros. intros [H _]%list_elem_of_filter. by apply H. Qed.

Lemma mergePass_no_zero (l : list Z) : Z0 ∉ l → Z0 ∉ (mergePass l).1.
Proof.
  induction l as [| x | x l IH | x y l Hne IH] using mergePass_ind;
    intros Hz; [done | done | |].
  - rewrite mergePass_cons_eq. simpl.
    apply not_elem_of_cons in Hz as [Hx Hz].
    apply not_elem_of_cons in Hz as [_ Hz].
    apply not_elem_of_cons. split; [lia|by apply IH].
  - rewrite mergePass_cons_ne by done. simpl.
    apply not_elem_of_cons in Hz as [Hx Hz].
    apply not_elem_of_cons. split; [done|by apply IH].
Qed.

Lemma removeZeros_app (l1 l2 : list Z) :
  removeZeros (l1 ++ l2) = removeZeros l1 ++ removeZeros l2.
Proof. apply filter_app. Qed.

Lemma removeZeros_replicate_0 (k : nat) : removeZeros (replicate k 0%Z) = [].
Proof.
  unfold removeZeros. induction k as [|k IH]; [done|]. simpl.
  rewrite filter_cons. case_decide; [done|apply IH].
Qed.

(** What [slideAndMerge] returns: the merged tiles, then zeros. *)
Lemma slideAndMerge_packed_form (row : list Z) :
  (slideAndMerge row).1
  = (mergePass (removeZeros row)).1
    ++ replicate (length row - length (mergePass (removeZeros row)).1) 0%Z.
Proof. by rewrite slideAndMerge_reduceLine, reduceLine_fst. Qed.

Lemma slideAndMerge_score_form (row : list Z) :
  (slideAndMerge row).2 = (mergePass (removeZeros row)).2.
Proof.
  rewrite slideAndMerge_reduceLine. unfold reduceLine.
  by destruct (mergePass (removeZeros row)).
Qed.

(** A pass that returns its input found no two equal neighbours. *)
Lemma mergePass_fixed_inv (l : list Z) : (mergePass l).1 = l → noAdjacent l.
Proof.
  induction l as [| x | x l IH | x y l Hne IH] using mergePass_ind.
  - by intros _ i v ?.
  - intros _ [|i] v; [done|by intros _ ?].
  - rewrite mergePass_cons_eq. simpl. intros Heq.
    pose proof (mergePass_length l) as Hlen.
    apply (f_equal length) in Heq. simpl in Heq. lia.
  - rewrite mergePass_cons_ne by done. simpl. intros [= Heq].
    specialize (IH Heq). intros [|i] v Hi HSi.
    + simpl in *. congruence.
    + by apply (IH i v).
Qed.

Lemma slideAndMerge_fixed_inv (row : list Z) :
  (slideAndMerge row).1 = row →
  ∃ tiles k, row = tiles ++ replicate k 0%Z ∧ (Z0 ∉ tiles) ∧ noAdjacent tiles.
Proof.
  rewrite slideAndMerge_packed_form. intros Heq.
  set (merged := (mergePass (removeZeros row)).1) in *.
  assert (Z0 ∉ merged) as Hz
    by apply mergePass_no_zero, removeZeros_no_zero.
  exists merged, (length row - length merged). split; [done|]. split; [done|].
  assert (removeZeros row = merged) as Hrm.
  { rewrite <- Heq at 1.
    rewrite removeZeros_app, removeZeros_replicate_0, app_nil_r.
    by apply removeZeros_fixed. }
  apply mergePass_fixed_inv. by rewrite <- Hrm at 1.
Qed.

Lemma slideAndMerge_packed_fixed (tiles : list Z) (k : nat) :
  Z0 ∉ tiles → noAdjacent tiles →
  slideAndMerge (tiles ++ replicate k 0%Z) = (tiles ++ replicate k 0%Z, 0%Z).
Proof.
  intros Hz Hadj.
  rewrite slideAndMerge_reduceLine. unfold reduceLine.
  rewrite removeZeros_app, removeZeros_replicate_0, app_nil_r.
  rewrite removeZeros_fixed, mergePass_fixed by done. unfold padRight.
  rewrite length_app, length_replicate.
  by replace (length tiles + k - length tiles) with k by lia.
Qed.

(** X4: [slideAndMerge] returns a line unchanged exactly when the tiles of
    the line are already packed to the left (no zero before a tile) and no
    two neighbouring tiles are equal; the score is then 0. *)
Theorem slideAndMerge_fixed_point (row : list Z) :
  ((slideAndMerge row).1 = row
   ↔ ∃ tiles k, row = tiles ++ replicate k 0%Z
                ∧ (Z0 ∉ tiles) ∧ noAdjacent tiles)
  ∧ ((slideAndMerge row).1 = row → (slideAndMerge row).2 = 0%Z).
Proof.
  split; [split; [apply slideAndMerge_fixed_inv|]|].
  - intros (tiles & k & -> & Hz & Hadj). by rewrite slideAndMerge_packed_fixed.
  - intros (tiles & k & -> & Hz & Hadj)%slideAndMerge_fixed_inv.
    by rewrite slideAndMerge_packed_fixed.
Qed.

Lemma slideAndMerge_fixed_point_witness :
  (slideAndMerge [2; 4; 2; 0]%Z).2 = 0%Z.
Proof.
  apply (proj2 (slideAndMerge_fixed_point [2; 4; 2; 0]%Z)). reflexivity.
Defined.

(** X5: the line [slideAndMerge] returns has the length of its input and
    is packed: tiles first, then zeros only; it has no more tiles than the
    input had. *)
Theorem slideAndMerge_packs_left (row : list Z) :
  ∃ tiles k,
    (slideAndMerge row).1 = tiles ++ replicate k 0%Z
    ∧ (Z0 ∉ tiles)
    ∧ length tiles + k = length row
    ∧ length tiles ≤ length (removeZeros row).
Proof.
  exists (mergePass (removeZeros row)).1,
         (length row - length (mergePass (removeZeros row)).1).
  pose proof (mergePass_length (removeZeros row)).
  pose proof (removeZeros_length row).
  split; [apply slideAndMerge_packed_form|].
  split; [apply mergePass_no_zero, removeZeros_no_zero|]. lia.
Qed.

Lemma sumZ_nonneg (l : list Z) : Forall (λ x, 0 ≤ x)%Z l → (0 ≤ sumZ l)%Z.
Proof. induction 1; simpl; lia. Qed.

Lemma mergePass_score_bounds (l : list Z) :
  Forall (λ x, 0 ≤ x)%Z l → (0 ≤ (mergePass l).2 ≤ sumZ l)%Z.
Proof.
  induction l as [| x | x l IH | x y l Hne IH] using mergePass_ind; intros Hall.
  - simpl. lia.
  - apply Forall_cons in Hall as [Hx _]. simpl. lia.
  - apply Forall_cons in Hall as [Hx Hall]. apply Forall_cons in Hall as [_ Hall].
    rewrite mergePass_cons_eq. simpl. specialize (IH Hall). lia.
  - apply Forall_cons in Hall as [Hx Hall].
    rewrite mergePass_cons_ne by done. simpl. specialize (IH Hall).
    simpl in IH. lia.
Qed.

Lemma removeZeros_Forall (P : Z → Prop) (l : list Z) :
  Forall P l → Forall P (removeZeros l).
Proof.
  intros Hall. apply Forall_forall. intros x [_ Hx]%list_elem_of_filter.
  rewrite Forall_forall in Hall. by apply Hall.
Qed.

(** X6: on a line of non-negative values the score of [slideAndMerge] is
    between 0 and the total of the line. *)
Theorem slideAndMerge_score_bounds (row : list Z) :
  Forall (λ x, 0 ≤ x)%Z row →
  (0 ≤ (slideAndMerge row).2 ≤ sumZ row)%Z.
Proof.
  intros Hall. rewrite slideAndMerge_score_form, <- (removeZeros_sum row).
  by apply mergePass_score_bounds, removeZeros_Forall.
Qed.

Lemma slideAndMerge_score_bounds_witness :
  (0 ≤ (slideAndMerge [2; 2; 0; 4]%Z).2 ≤ sumZ [2; 2; 0; 4]%Z)%Z.
Proof.
  apply (slideAndMerge_score_bounds [2; 2; 0; 4]%Z).
  repeat constructor; lia.
Defined.

(** ** The moves, line by line *)

Lemma column_length (c : nat) (b : list (list Z)) : length (column c b) = length b.
Proof. unfold column. by rewrite length_fmap, length_seq. Qed.

Lemma column_lookup (c r : nat) (b : list (list Z)) :
  r < length b → column c b !! r = Some (cellZ b r c).
Proof.
  intros Hr. unfold column. rewrite list_lookup_fmap, lookup_seq_lt by done.
  done.
Qed.

Lemma square_row_length {T : Type} (g : list (list T)) (r : nat) (row : list T) :
  square g → g !! r = Some row → length row = length g.
Proof. intros [_ Hrows] Hr. exact (Forall_lookup_1 _ _ _ _ Hrows Hr). Qed.

Lemma row_cellZ (b : list (list Z)) (r c : nat) (row : list Z) :
  b !! r = Some row → c < length row → row !! c = Some (cellZ b r c).
Proof.
  intros Hr Hc. unfold cellZ, cell. rewrite Hr. simpl.
  by destruct (lookup_lt_is_Some_2 row c Hc) as [v ->].
Qed.

Lemma cellZ_row (b : list (list Z)) (r c : nat) (row : list Z) :
  b !! r = Some row → cellZ b r c = default 0%Z (row !! c).
Proof. intros Hr. unfold cellZ, cell. by rewrite Hr. Qed.

(** Row [i] of the counter-clockwise rotation is column N - 1 - i. *)
Lemma rotateLeft_row (undef : Z) (b : list (list Z)) (i : nat) :
  square b → i < length b →
  rotateLeft undef b !! i = Some (column (length b - 1 - i) b).
Proof.
  intros Hsq Hi.
  destruct (lookup_lt_is_Some_2 (rotateLeft undef b) i) as [row Hrow].
  { by rewrite rotateLeft_length. }
  rewrite Hrow. f_equal.
  pose proof (square_row_length _ _ _ (rotateLeft_square undef b) Hrow) as Hlen.
  rewrite rotateLeft_length in Hlen.
  apply list_eq_same_length with (length b);
    [by rewrite column_length|done|].
  intros j x y Hj Hx Hy. rewrite column_lookup in Hy by done.
  injection Hy as <-. rewrite (row_cellZ _ _ _ _ Hrow) in Hx by lia.
  injection Hx as <-. unfold cellZ. by rewrite rotateLeft_cell_at.
Qed.

(** Row [i] of the clockwise rotation is column [i], read from the bottom. *)
Lemma rotateRight_row (undef : Z) (b : list (list Z)) (i : nat) :
  square b → i < length b →
  rotateRight undef b !! i = Some (reverse (column i b)).
Proof.
  intros Hsq Hi.
  destruct (lookup_lt_is_Some_2 (rotateRight undef b) i) as [row Hrow].
  { by rewrite rotateRight_length. }
  rewrite Hrow. f_equal.
  pose proof (square_row_length _ _ _ (rotateRight_square undef b) Hrow) as Hlen.
  rewrite rotateRight_length in Hlen.
  apply list_eq_same_length with (length b);
    [by rewrite length_reverse, column_length|done|].
  intros j x y Hj Hx Hy.
  rewrite reverse_lookup in Hy by (rewrite column_length; lia).
  rewrite column_length, column_lookup in Hy by lia.
  injection Hy as <-. rewrite (row_cellZ _ _ _ _ Hrow) in Hx by lia.
  injection Hx as <-. unfold cellZ. rewrite rotateRight_cell_at by done.
  do 2 f_equal. lia.
Qed.

Lemma sumZ_fmap_seq (F : nat → Z) (n : nat) :
  sumZ (F <$> seq 0 n) = bigsum n F.
Proof.
  rewrite sumZ_bigsum, length_fmap, length_seq. apply bigsum_ext.
  intros i Hi. by rewrite list_lookup_fmap, lookup_seq_lt.
Qed.

Lemma sumZ_rows (F : list Z → Z) (g : list (list Z)) (rowOf : nat → list Z) :
  (∀ i, i < length g → g !! i = Some (rowOf i)) →
  sumZ (F <$> g) = bigsum (length g) (λ i, F (rowOf i)).
Proof.
  intros Hrows. rewrite sumZ_bigsum, length_fmap. apply bigsum_ext.
  intros i Hi. by rewrite list_lookup_fmap, Hrows.
Qed.

(** X7: on a square board, [moveUp] reduces every column towards the top
    and [moveDown] towards the bottom, as [moveLeft] and [moveRight] reduce
    every row towards the left and the right; the score of [moveUp] and of
    [moveDown] is the sum of the scores of the columns. *)
Theorem moves_line_by_line (b : list (list Z)) :
  square b →
  (∀ r row, b !! r = Some row →
     (moveLeft b).1 !! r = Some (newRowOf row)
     ∧ (moveRight b).1 !! r = Some (reverse (newRowOf (reverse row))))
  ∧ (∀ c, c < length b →
       column c (moveUp b).1 = newRowOf (column c b)
       ∧ column c (moveDown b).1 = reverse (newRowOf (reverse (column c b))))
  ∧ (moveUp b).2 = sumZ ((λ c, scoreOf (column c b)) <$> seq 0 (length b))
  ∧ (moveDown b).2
    = sumZ ((λ c, scoreOf (reverse (column c b))) <$> seq 0 (length b)).
Proof.
  intros Hsq. split; [|split; [|split]].
  - intros r row Hr. rewrite moveLeft_rows, moveRight_rows. cbn [fst].
    unfold BoardType. rewrite !list_lookup_fmap, Hr. done.
  - intros c Hc. rewrite moveUp_rows, moveDown_rows. cbn [fst]. split.
    + set (X := newRowOf <$> rotateLeft undefinedTile b).
      assert (square X) as HX by apply square_newRows, rotateLeft_square.
      assert (length X = length b) as HlenX.
      { unfold X. by rewrite length_fmap, rotateLeft_length. }
      apply list_eq_same_length with (length b).
      * by rewrite newRowOf_length, column_length.
      * by rewrite column_length, rotateRight_length.
      * intros r x y Hr Hx Hy.
        rewrite column_lookup in Hx by by rewrite rotateRight_length, HlenX.
        injection Hx as <-. unfold cellZ.
        rewrite rotateRight_cell_at by (done || lia). rewrite HlenX.
        unfold cell, X. rewrite list_lookup_fmap, rotateLeft_row by (done || lia).
        simpl. replace (length b - 1 - (length b - 1 - c)) with c by lia.
        by rewrite Hy.
    + set (X := newRowOf <$> rotateRight undefinedTile b).
      assert (square X) as HX by apply square_newRows, rotateRight_square.
      assert (length X = length b) as HlenX.
      { unfold X. by rewrite length_fmap, rotateRight_length. }
      apply list_eq_same_length with (length b).
      * by rewrite length_reverse, newRowOf_length, length_reverse, column_length.
      * by rewrite column_length, rotateLeft_length.
      * intros r x y Hr Hx Hy.
        rewrite column_lookup in Hx by by rewrite rotateLeft_length, HlenX.
        injection Hx as <-. unfold cellZ.
        rewrite rotateLeft_cell_at by (done || lia). rewrite HlenX.
        unfold cell, X. rewrite list_lookup_fmap, rotateRight_row by (done || lia).
        simpl. rewrite reverse_lookup in Hy
          by (rewrite newRowOf_length, length_reverse, column_length; lia).
        rewrite newRowOf_length, length_reverse, column_length in Hy.
        replace (length b - 1 - r) with (length b - S r) by lia.
        by rewrite Hy.
  - rewrite moveUp_rows. cbn [snd].
    rewrite (sumZ_rows scoreOf _ (λ i, column (length b - 1 - i) b)).
    + rewrite rotateLeft_length, sumZ_fmap_seq.
      apply (bigsum_rev (length b) (λ c, scoreOf (column c b))).
    + intros i Hi. rewrite rotateLeft_length in Hi. by apply rotateLeft_row.
  - rewrite moveDown_rows. cbn [snd].
    rewrite (sumZ_rows scoreOf _ (λ i, reverse (column i b))).
    + by rewrite rotateRight_length, sumZ_fmap_seq.
    + intros i Hi. rewrite rotateRight_length in Hi. by apply rotateRight_row.
Qed.

Lemma moves_line_by_line_witness :
  column 0 (moveUp [[2; 4]; [2; 8]]%Z).1 = newRowOf (column 0 [[2; 4]; [2; 8]]%Z)
  ∧ column 0 (moveDown [[2; 4]; [2; 8]]%Z).1
    = reverse (newRowOf (reverse (column 0 [[2; 4]; [2; 8]]%Z))).
Proof.
  refine (proj1 (proj2 (moves_line_by_line [[2; 4]; [2; 8]]%Z _)) 0 _).
  - split; [reflexivity|]. repeat constructor.
  - simpl. lia.
Defined.

(** ** The no-moves condition and the moves *)

Lemma last_replicate_S {A : Type} (k : nat) (x : A) :
  last (replicate (S k) x) = Some x.
Proof. rewrite replicate_S_end. apply last_snoc. Qed.

(** In a line that [slideAndMerge] leaves unchanged, two equal neighbours
    are zeros. *)
Lemma fixed_row_adjacent (row : list Z) (i : nat) (v : Z) :
  newRowOf row = row → row !! i = Some v → row !! S i = Some v → v = 0%Z.
Proof.
  intros (tiles & k & -> & Hz & Hadj)%slideAndMerge_fixed_inv Hi HSi.
  destruct (decide (S i < length tiles)) as [Hlt|Hge].
  - rewrite lookup_app_l in Hi, HSi by lia. by destruct (Hadj i v).
  - rewrite lookup_app_r in HSi by lia.
    by apply lookup_replicate in HSi as [-> _].
Qed.

Lemma fixed_row_last (row : list Z) :
  newRowOf row = row → Z0 ∈ row → last row = Some 0%Z.
Proof.
  intros (tiles & k & -> & Hz & Hadj)%slideAndMerge_fixed_inv Hin.
  destruct k as [|k].
  - simpl in Hin. rewrite app_nil_r in Hin. done.
  - rewrite last_app, last_replicate_S. done.
Qed.

Lemma fixed_row_head (row : list Z) (x : Z) :
  newRowOf row = row → x ∈ row → x ≠ 0%Z →
  ∃ y, head row = Some y ∧ y ≠ 0%Z.
Proof.
  intros (tiles & k & -> & Hz & Hadj)%slideAndMerge_fixed_inv Hin Hx.
  apply elem_of_app in Hin as [Hin|Hin].
  - destruct tiles as [|y tiles]; [by apply elem_of_nil in Hin|].
    exists y. split; [done|]. intros ->. apply Hz, elem_of_cons. by left.
  - by apply elem_of_replicate in Hin as [-> _].
Qed.

(** A line with a zero and a tile is changed by the reduction to the left
    or by the reduction to the right. *)
Lemma mixed_row_moves (row : list Z) (x : Z) :
  Z0 ∈ row → x ∈ row → x ≠ 0%Z →
  newRowOf row = row → newRowOf (reverse row) = reverse row → False.
Proof.
  intros Hz Hx Hne HL HR.
  destruct (fixed_row_head row x HL Hx Hne) as (y & Hy & Hy0).
  pose proof (fixed_row_last (reverse row) HR) as Hlast.
  rewrite last_reverse, elem_of_reverse in Hlast.
  rewrite Hlast in Hy by done. congruence.
Qed.

Lemma rows_fixed (f : list Z → list Z) (g : list (list Z)) (i : nat)
    (row : list Z) :
  f <$> g = g → g !! i = Some row → f row = row.
Proof.
  intros Heq Hi. apply (f_equal (λ l, l !! i)) in Heq.
  rewrite list_lookup_fmap, Hi in Heq. simpl in Heq. congruence.
Qed.

Lemma sumZ_fmap_zero {A : Type} (F : A → Z) (l : list A) :
  (∀ x, x ∈ l → F x = 0%Z) → sumZ (F <$> l) = 0%Z.
Proof.
  induction l as [|x l IH]; intros Hall; [done|].
  rewrite fmap_cons.
  change (sumZ (F x :: (F <$> l))) with (F x + sumZ (F <$> l))%Z.
  rewrite (Hall x) by (apply elem_of_cons; by left).
  rewrite IH; [done|]. intros y Hin. apply Hall, elem_of_cons. by right.
Qed.

Lemma scores_terminal (b : BoardType) : terminal b → sumZ (scoreOf <$> b) = 0%Z.
Proof.
  intros Hterm. apply sumZ_fmap_zero. intros row Hin.
  destruct (terminal_rows b row Hterm Hin) as [Hz Hadj].
  unfold scoreOf. by rewrite slideAndMerge_fixed.
Qed.

Lemma scores_terminal_mirror (b : BoardType) :
  terminal b → sumZ (scoreOf <$> (reverse <$> b)) = 0%Z.
Proof.
  intros Hterm. rewrite <- list_fmap_compose. apply sumZ_fmap_zero.
  intros row Hin. destruct (terminal_rows b row Hterm Hin) as [Hz Hadj].
  simpl. unfold scoreOf. rewrite slideAndMerge_fixed; [done| |].
  - by rewrite elem_of_reverse.
  - by apply noAdjacent_reverse.
Qed.

(** X8: when [isGameOver] holds of a square board, each of the four moves
    returns the board as it is, with score 0. *)
Theorem game_over_no_move (b : BoardType) (d : Direction) :
  square b → Board.isGameOver b = true → moveFunc d b = (b, 0%Z).
Proof.
  intros Hsq Hover.
  pose proof (isGameOver_terminal_board b Hsq Hover) as Hterm.
  destruct d; simpl.
  - rewrite moveUp_rows.
    rewrite newRows_terminal, scores_terminal by by apply terminal_rotateLeft.
    by rewrite rotateRight_rotateLeft.
  - rewrite moveDown_rows.
    rewrite newRows_terminal, scores_terminal by by apply terminal_rotateRight.
    by rewrite rotateLeft_rotateRight.
  - rewrite moveLeft_rows. by rewrite newRows_terminal, scores_terminal.
  - rewrite moveRight_rows. f_equal.
    + rewrite <- (moveRight_terminal b Hterm) at 2. by rewrite moveRight_rows.
    + by apply scores_terminal_mirror.
Qed.

Lemma game_over_no_move_witness :
  moveFunc ArrowUp [[2; 4]; [4; 2]]%Z = ([[2; 4]; [4; 2]]%Z, 0%Z).
Proof.
  apply (game_over_no_move [[2; 4]; [4; 2]]%Z ArrowUp).
  - split; [reflexivity|]. repeat constructor.
  - reflexivity.
Defined.

Lemma moveUp_fixed_rows (b : BoardType) :
  square b → (moveUp b).1 = b →
  newRowOf <$> rotateLeft undefinedTile b = rotateLeft undefinedTile b.
Proof.
  intros Hsq. rewrite moveUp_rows. cbn [fst]. intros Heq.
  apply (f_equal (rotateLeft undefinedTile)) in Heq.
  by rewrite rotateLeft_rotateRight in Heq
    by apply square_newRows, rotateLeft_square.
Qed.

Lemma moveDown_fixed_rows (b : BoardType) :
  square b → (moveDown b).1 = b →
  newRowOf <$> rotateRight undefinedTile b = rotateRight undefinedTile b.
Proof.
  intros Hsq. rewrite moveDown_rows. cbn [fst]. intros Heq.
  apply (f_equal (rotateRight undefinedTile)) in Heq.
  by rewrite rotateRight_rotateLeft in Heq
    by apply square_newRows, rotateRight_square.
Qed.

Lemma moveLeft_fixed_row (b : list (list Z)) (r : nat) (row : list Z) :
  (moveLeft b).1 = b → b !! r = Some row → newRowOf row = row.
Proof. rewrite moveLeft_rows. cbn [fst]. apply rows_fixed. Qed.

Lemma moveRight_fixed_row (b : list (list Z)) (r : nat) (row : list Z) :
  (moveRight b).1 = b → b !! r = Some row →
  newRowOf (reverse row) = reverse row.
Proof.
  rewrite moveRight_rows. cbn [fst]. rewrite <- !list_fmap_compose.
  intros Heq Hr. pose proof (rows_fixed _ _ _ _ Heq Hr) as Hrow. simpl in Hrow.
  apply (f_equal reverse) in Hrow. by rewrite reverse_involutive in Hrow.
Qed.

Lemma moveUp_fixed_column (b : list (list Z)) (c : nat) :
  square b → c < length b → (moveUp b).1 = b →
  newRowOf (column c b) = column c b.
Proof.
  intros Hsq Hc Hfix%moveUp_fixed_rows; [|done].
  apply (rows_fixed _ _ (length b - 1 - c) _ Hfix).
  rewrite rotateLeft_row by (done || lia). do 2 f_equal. lia.
Qed.

Lemma moveDown_fixed_column (b : list (list Z)) (c : nat) :
  square b → c < length b → (moveDown b).1 = b →
  newRowOf (reverse (column c b)) = reverse (column c b).
Proof.
  intros Hsq Hc Hfix%moveDown_fixed_rows; [|done].
  apply (rows_fixed _ _ c _ Hfix). by apply rotateRight_row.
Qed.

Lemma elem_of_column (b : list (list Z)) (r c : nat) (v : Z) :
  cell b r c = Some v → v ∈ column c b.
Proof.
  intros Hv. apply list_elem_of_lookup. exists r.
  assert (r < length b) as Hr.
  { apply cell_Some in Hv as (row & Hrow & _). by apply lookup_lt_Some in Hrow. }
  rewrite column_lookup by done. unfold cellZ. by rewrite Hv.
Qed.

Lemma some_move_changes (b : BoardType) :
  square b →
  (∃ r c x, cell b r c = Some x ∧ x ≠ 0%Z) →
  Board.isGameOver b = false →
  ∃ d, (moveFunc d b).1 ≠ b.
Proof.
  intros Hsq (r' & c' & x & Hx & Hx0) Hover.
  destruct (decide ((moveLeft b).1 = b)) as [HL|HL]; [|by exists ArrowLeft].
  destruct (decide ((moveRight b).1 = b)) as [HR|HR]; [|by exists ArrowRight].
  destruct (decide ((moveUp b).1 = b)) as [HU|HU]; [|by exists ArrowUp].
  destruct (decide ((moveDown b).1 = b)) as [HD|HD]; [|by exists ArrowDown].
  exfalso.
  destruct (cell_shaped_lt _ _ _ _ _ Hsq Hx) as [Hr' Hc'].
  destruct (getEmptyCells b) as [|p l] eqn:He.
  - (* no empty cell: two equal neighbours *)
    apply getEmptyCells_nil in He.
    rewrite (isGameOver_full b He) in Hover. apply negb_false_iff in Hover.
    apply (canMove_adjacentEqual b Hsq) in Hover as (r & c & v & Hv & Hadj).
    assert (v ≠ 0%Z) as Hv0.
    { intros ->. apply He. by exists r, c. }
    destruct (cell_shaped_lt _ _ _ _ _ Hsq Hv) as [Hr Hc].
    destruct Hadj as [Hd|Hd].
    + apply Hv0, (fixed_row_adjacent (column c b) r).
      * by apply moveUp_fixed_column.
      * rewrite column_lookup by done. unfold cellZ. by rewrite Hv.
      * destruct (cell_shaped_lt _ _ _ _ _ Hsq Hd) as [Hr1 _].
        rewrite column_lookup by lia. unfold cellZ.
        replace (S r) with (r + 1) by lia. by rewrite Hd.
    + apply cell_Some in Hv as (row & Hrow & Hcv).
      apply cell_Some in Hd as (row' & Hrow' & Hcv').
      rewrite Hrow in Hrow'. injection Hrow' as <-.
      apply Hv0, (fixed_row_adjacent row c).
      * by eapply moveLeft_fixed_row.
      * done.
      * by replace (S c) with (c + 1) by lia.
  - (* an empty cell and a tile *)
    assert (hasEmptyCell b) as (r & c & Hz).
    { apply getEmptyCells_nonempty. by rewrite He. }
    destruct (cell_shaped_lt _ _ _ _ _ Hsq Hz) as [Hr Hc].
    destruct (cell_shaped _ b r c' Hsq Hr Hc') as [y Hy].
    destruct (decide (y = 0%Z)) as [->|Hy0].
    + (* column c' holds the zero at row r and the tile at row r' *)
      apply (mixed_row_moves (column c' b) x).
      * by apply (elem_of_column b r c').
      * by apply (elem_of_column b r' c').
      * done.
      * by apply moveUp_fixed_column.
      * by apply moveDown_fixed_column.
    + (* row r holds the zero at column c and the tile at column c' *)
      apply cell_Some in Hz as (row & Hrow & Hcz).
      apply cell_Some in Hy as (row' & Hrow' & Hcy).
      rewrite Hrow in Hrow'. injection Hrow' as <-.
      apply (mixed_row_moves row y).
      * apply list_elem_of_lookup. eauto.
      * apply list_elem_of_lookup. eauto.
      * done.
      * by eapply moveLeft_fixed_row.
      * by eapply moveRight_fixed_row.
Qed.

(** X9: a square board that holds a tile and of which [isGameOver] does
    not hold is changed by at least one of the four moves; so, for such a
    board, [isGameOver] holds exactly when no move changes the board. *)
Theorem not_over_some_move (b : BoardType) :
  square b → hasTile b →
  (Board.isGameOver b = false → ∃ d, (moveFunc d b).1 ≠ b)
  ∧ (Board.isGameOver b = true ↔ ∀ d, (moveFunc d b).1 = b).
Proof.
  intros Hsq Htile. split; [by apply some_move_changes|]. split.
  - intros Hover d. by apply no_move_on_terminal.
  - intros Hfix. destruct (Board.isGameOver b) eqn:Hover; [done|].
    destruct (some_move_changes b Hsq Htile Hover) as [d Hd].
    by destruct (Hd (Hfix d)).
Qed.

Lemma not_over_some_move_witness :
  ∃ d, (moveFunc d [[2; 0]; [0; 0]]%Z).1 ≠ [[2; 0]; [0; 0]]%Z.
Proof.
  refine (proj1 (not_over_some_move [[2; 0]; [0; 0]]%Z _ _) _).
  - split; [reflexivity|]. repeat constructor.
  - exists 0, 0, 2%Z. split; [reflexivity|lia].
  - reflexivity.
Defined.

(** * Invariants of the running application *)

Import App.

(** ** What a spawn and a move keep *)

(** The two ways [addRandomTile] returns. *)
Lemma addRandomTile_cases (u1 u2 : Q) (b b' : BoardType)
    (coords : option (nat * nat)) :
  addRandomTile u1 u2 b = Some (b', coords) →
  (b' = b ∧ coords = None ∧ ¬ hasEmptyCell b)
  ∨ (∃ r c, coords = Some (r, c) ∧ cell b r c = Some 0%Z
            ∧ b' = setCell r c (tileFor u2) b).
Proof.
  unfold addRandomTile. cbv zeta. rewrite copy_rows.
  destruct (getEmptyCells b) as [|p l] eqn:He.
  - intros [= <- <-]. left. split; [done|]. split; [done|].
    by apply getEmptyCells_nil.
  - rewrite <- He. destruct (length (getEmptyCells b) =? 0) eqn:Hlen.
    { apply Nat.eqb_eq in Hlen. by rewrite He in Hlen. }
    destruct (randomIndex u1 (length (getEmptyCells b)) <? 0)%Z; [done|].
    destruct (getEmptyCells b !! _) as [[r c]|] eqn:Hrc; [|done].
    intros [= <- <-]. right. exists r, c. split; [done|]. split; [|done].
    apply elem_of_getEmptyCells, list_elem_of_lookup. eauto.
Qed.

Lemma cell_setCell_inv {T : Type} (g : list (list T)) (r c : nat) (v w : T) :
  cell (setCell r c v g) r c = Some w → w = v.
Proof.
  intros (row & Hrow & Hw)%cell_Some. unfold setCell in Hrow.
  rewrite list_lookup_alter_eq in Hrow.
  destruct (g !! r) as [row0|]; [|done]. injection Hrow as <-.
  pose proof (lookup_lt_Some _ _ _ Hw) as Hlt. rewrite length_insert in Hlt.
  rewrite list_lookup_insert_eq in Hw by done. congruence.
Qed.

Lemma allCells_setCell (P : Z → Prop) (b : BoardType) (r c : nat) (v : Z) :
  allCells P b → P v → allCells P (setCell r c v b).
Proof.
  intros Hall Hv i j w Hw.
  destruct (decide ((r, c) = (i, j))) as [[= <- <-]|Hne].
  - by rewrite (cell_setCell_inv _ _ _ _ _ Hw).
  - rewrite cell_setCell_ne in Hw by done. by eapply Hall.
Qed.

Lemma allCells_addRandomTile (P : Z → Prop) (u1 u2 : Q) (b b' : BoardType)
    (coords : option (nat * nat)) :
  allCells P b → P (tileFor u2) →
  addRandomTile u1 u2 b = Some (b', coords) → allCells P b'.
Proof.
  intros Hall Hv [(-> & _ & _)|(r & c & _ & _ & ->)]%addRandomTile_cases;
    [done|by apply allCells_setCell].
Qed.

Lemma allCells_createEmptyBoard (P : Z → Prop) (size : nat) :
  P 0%Z → allCells P (createEmptyBoard size).
Proof.
  intros H0 r c v Hv.
  destruct (cell_shaped_lt _ _ _ _ _ (createEmptyBoard_shaped size) Hv).
  rewrite createEmptyBoard_cell in Hv by done. congruence.
Qed.

Lemma allCells_rows (P : Z → Prop) (b : list (list Z)) :
  allCells P b ↔ Forall (Forall P) b.
Proof.
  split.
  - intros Hall. apply Forall_lookup. intros r row Hr.
    apply Forall_lookup. intros c v Hc. apply (Hall r c), cell_Some. eauto.
  - intros Hall r c v (row & Hr & Hc)%cell_Some.
    exact (Forall_lookup_1 _ _ _ _ (Forall_lookup_1 _ _ _ _ Hall Hr) Hc).
Qed.

Lemma allCells_fmap (P : Z → Prop) (f : list Z → list Z) (b : list (list Z)) :
  (∀ row, Forall P row → Forall P (f row)) →
  allCells P b → allCells P (f <$> b).
Proof.
  intros Hf. rewrite !allCells_rows. intros Hall.
  apply Forall_fmap. eapply Forall_impl; [exact Hall|]. intros row. apply Hf.
Qed.

Lemma allCells_rotateRight (P : Z → Prop) (undef : Z) (b : BoardType) :
  square b → allCells P b → allCells P (rotateRight undef b).
Proof.
  intros Hsq Hall r c v Hv.
  destruct (cell_shaped_lt _ _ _ _ _ (rotateRight_shaped undef b) Hv).
  rewrite rotateRight_cell_at in Hv by done. by eapply Hall.
Qed.

Lemma allCells_rotateLeft (P : Z → Prop) (undef : Z) (b : BoardType) :
  square b → allCells P b → allCells P (rotateLeft undef b).
Proof.
  intros Hsq Hall r c v Hv.
  destruct (cell_shaped_lt _ _ _ _ _ (rotateLeft_shaped undef b) Hv).
  rewrite rotateLeft_cell_at in Hv by done. by eapply Hall.
Qed.

Lemma isTile_double (x : Z) : isTile x → isTile (2 * x).
Proof.
  intros [->|[k ->]]; [by left|]. right. exists (S k).
  rewrite Nat2Z.inj_succ, <- Z.add_1_r, (Z.pow_add_r 2 (Z.of_nat k + 1) 1) by lia.
  lia.
Qed.

Lemma isTile_nonneg (x : Z) : isTile x → (0 ≤ x)%Z.
Proof. intros [->|[k ->]]; [done|]. apply Z.pow_nonneg. lia. Qed.

Lemma isTile_tileFor (u : Q) : isTile (tileFor u).
Proof.
  destruct (tileFor_2_or_4 u) as [->| ->]; right; [by exists 0|by exists 1].
Qed.

Lemma mergePass_tiles (l : list Z) :
  Forall isTile l → Forall isTile (mergePass l).1.
Proof.
  induction l as [| x | x l IH | x y l Hne IH] using mergePass_ind;
    intros Hall; [done | done | |].
  - apply Forall_cons in Hall as [Hx Hall]. apply Forall_cons in Hall as [_ Hall].
    rewrite mergePass_cons_eq. simpl.
    constructor; [by apply isTile_double|by apply IH].
  - apply Forall_cons in Hall as [Hx Hall].
    rewrite mergePass_cons_ne by done. simpl. constructor; [done|by apply IH].
Qed.

Lemma newRowOf_tiles (row : list Z) :
  Forall isTile row → Forall isTile (newRowOf row).
Proof.
  intros Hall. unfold newRowOf. rewrite slideAndMerge_packed_form.
  apply Forall_app. split.
  - by apply mergePass_tiles, removeZeros_Forall.
  - apply Forall_replicate. by left.
Qed.

Lemma reverse_Forall {A : Type} (P : A → Prop) (l : list A) :
  Forall P l → Forall P (reverse l).
Proof. intros. by apply Forall_reverse. Qed.

(** A move of a square board of tiles returns a board of tiles. *)
Lemma validBoard_move (d : Direction) (b : BoardType) :
  square b → validBoard b → validBoard (moveFunc d b).1.
Proof.
  intros Hsq Hvalid. change (allCells isTile (moveFunc d b).1).
  change (allCells isTile b) in Hvalid.
  destruct d; simpl.
  - rewrite moveUp_rows. cbn [fst].
    apply allCells_rotateRight; [apply square_newRows, rotateLeft_square|].
    apply allCells_fmap; [apply newRowOf_tiles|]. by apply allCells_rotateLeft.
  - rewrite moveDown_rows. cbn [fst].
    apply allCells_rotateLeft; [apply square_newRows, rotateRight_square|].
    apply allCells_fmap; [apply newRowOf_tiles|]. by apply allCells_rotateRight.
  - rewrite moveLeft_rows. cbn [fst]. by apply allCells_fmap; [apply newRowOf_tiles|].
  - rewrite moveRight_rows. cbn [fst].
    apply allCells_fmap; [apply reverse_Forall|].
    apply allCells_fmap; [apply newRowOf_tiles|].
    by apply allCells_fmap; [apply reverse_Forall|].
Qed.

(** ** Totals under a write and under a move *)

Lemma sumZ_cons (x : Z) (l : list Z) : sumZ (x :: l) = (x + sumZ l)%Z.
Proof. reflexivity. Qed.

Lemma sumZ_insert (row : list Z) (c : nat) (old v : Z) :
  row !! c = Some old → sumZ (<[c := v]> row) = (sumZ row - old + v)%Z.
Proof.
  revert c. induction row as [|x row IH]; intros [|c] Hc; try done; simpl in *.
  - injection Hc as ->. lia.
  - rewrite (IH c Hc). lia.
Qed.

Lemma boardSum_setCell (b : list (list Z)) (r c : nat) (old v : Z) :
  cell b r c = Some old →
  boardSum (setCell r c v b) = (boardSum b - old + v)%Z.
Proof.
  intros (row & Hr & Hc)%cell_Some. unfold boardSum, setCell.
  revert r Hr. induction b as [|row0 b IH]; intros [|r] Hr; try done.
  - injection Hr as ->.
    change (alter (λ row0, <[c:=v]> row0) 0 (row :: b)) with (<[c:=v]> row :: b).
    rewrite !fmap_cons, !sumZ_cons, (sumZ_insert _ _ _ _ Hc). lia.
  - change (alter (λ row0, <[c:=v]> row0) (S r) (row0 :: b))
      with (row0 :: alter (λ row0, <[c:=v]> row0) r b).
    rewrite !fmap_cons, !sumZ_cons, (IH r Hr). lia.
Qed.

Lemma boardSum_move (d : Direction) (b : BoardType) :
  square b → boardSum (moveFunc d b).1 = boardSum b.
Proof.
  intros Hsq. destruct d; simpl.
  - rewrite moveUp_rows. cbn [fst].
    rewrite boardSum_rotateRight by apply square_newRows, rotateLeft_square.
    rewrite (boardSum_fmap newRowOf) by apply newRowOf_sum.
    by apply boardSum_rotateLeft.
  - rewrite moveDown_rows. cbn [fst].
    rewrite boardSum_rotateLeft by apply square_newRows, rotateRight_square.
    rewrite (boardSum_fmap newRowOf) by apply newRowOf_sum.
    by apply boardSum_rotateRight.
  - rewrite moveLeft_rows. cbn [fst]. apply boardSum_fmap, newRowOf_sum.
  - rewrite moveRight_rows. cbn [fst].
    rewrite (boardSum_fmap reverse) by apply sumZ_reverse.
    rewrite (boardSum_fmap newRowOf) by apply newRowOf_sum.
    apply boardSum_fmap, sumZ_reverse.
Qed.

Lemma boardSum_addRandomTile (u1 u2 : Q) (b b' : BoardType)
    (coords : option (nat * nat)) :
  addRandomTile u1 u2 b = Some (b', coords) →
  boardSum b' = (boardSum b + match coords with
                             | Some _ => tileFor u2
                             | None => 0
                             end)%Z.
Proof.
  intros [(-> & -> & _)|(r & c & -> & Hz & ->)]%addRandomTile_cases.
  - lia.
  - rewrite (boardSum_setCell _ _ _ _ _ Hz). lia.
Qed.

Lemma boardSum_all_zero (b : list (list Z)) :
  allCells (λ v, v = 0%Z) b → boardSum b = 0%Z.
Proof.
  rewrite allCells_rows. unfold boardSum. intros Hall.
  apply sumZ_fmap_zero. intros row Hin.
  rewrite Forall_forall in Hall. specialize (Hall row Hin). clear Hin.
  induction Hall as [|x l -> _ IH]; [done|]. by rewrite sumZ_cons, IH.
Qed.

(** A board with a positive total holds a tile. *)
Lemma hasTile_positive (b : list (list Z)) : (0 < boardSum b)%Z → hasTile b.
Proof.
  intros Hpos.
  destruct (decide (Forall (Forall (λ v, v = 0%Z)) b)) as [Hall|Hex].
  - apply allCells_rows, boardSum_all_zero in Hall. lia.
  - apply not_Forall_Exists in Hex; [|apply _].
    apply Exists_exists in Hex as (row & [r Hr]%list_elem_of_lookup & Hrow).
    apply not_Forall_Exists in Hrow; [|apply _].
    apply Exists_exists in Hrow as (x & [c Hc]%list_elem_of_lookup & Hx).
    exists r, c, x. split; [apply cell_Some; eauto|done].
Qed.

(** ** The invariant of a game *)

Lemma shaped_square {T : Type} (n : nat) (g : list (list T)) :
  shaped n g → square g.
Proof. intros [Hlen Hrows]. unfold square. rewrite Hlen. by split. Qed.

Lemma length_moveFunc (d : Direction) (b : BoardType) :
  length (moveFunc d b).1 = length b.
Proof.
  destruct d; simpl.
  - rewrite moveUp_rows. cbn [fst].
    by rewrite rotateRight_length, length_fmap, rotateLeft_length.
  - rewrite moveDown_rows. cbn [fst].
    by rewrite rotateLeft_length, length_fmap, rotateRight_length.
  - rewrite moveLeft_rows. cbn [fst]. by rewrite length_fmap.
  - rewrite moveRight_rows. cbn [fst]. by rewrite !length_fmap.
Qed.

Lemma shaped_moveFunc (d : Direction) (n : nat) (b : BoardType) :
  shaped n b → shaped n (moveFunc d b).1.
Proof.
  intros Hsh. pose proof (square_moveFunc d b (shaped_square _ _ Hsh)) as Hsq.
  unfold square in Hsq. rewrite length_moveFunc in Hsq.
  destruct Hsh as [Hlen _]. by rewrite Hlen in Hsq.
Qed.

Lemma shaped_addRandomTile (u1 u2 : Q) (n : nat) (b b' : BoardType)
    (coords : option (nat * nat)) :
  shaped n b → addRandomTile u1 u2 b = Some (b', coords) → shaped n b'.
Proof.
  intros Hsh [(-> & _ & _)|(r & c & _ & _ & ->)]%addRandomTile_cases;
    [done|by apply shaped_setCell].
Qed.

Lemma sumZ_fmap_bounds {A : Type} (F G : A → Z) (l : list A) :
  (∀ x, x ∈ l → 0 ≤ F x ≤ G x)%Z →
  (0 ≤ sumZ (F <$> l) ≤ sumZ (G <$> l))%Z.
Proof.
  induction l as [|x l IH]; intros Hall; [done|].
  rewrite !fmap_cons, !sumZ_cons.
  pose proof (Hall x ltac:(apply elem_of_cons; by left)).
  assert (∀ y, y ∈ l → 0 ≤ F y ≤ G y)%Z as Hall'.
  { intros y Hy. apply Hall, elem_of_cons. by right. }
  specialize (IH Hall'). lia.
Qed.

Lemma scoreOf_bounds (row : list Z) :
  Forall isTile row → (0 ≤ scoreOf row ≤ sumZ row)%Z.
Proof.
  intros Hall. unfold scoreOf.
  rewrite slideAndMerge_score_form, <- (removeZeros_sum row).
  apply mergePass_score_bounds, removeZeros_Forall.
  eapply Forall_impl; [exact Hall|]. apply isTile_nonneg.
Qed.

Lemma scores_bounds (b : list (list Z)) :
  allCells isTile b → (0 ≤ sumZ (scoreOf <$> b) ≤ boardSum b)%Z.
Proof.
  intros Hall%allCells_rows. unfold boardSum. apply sumZ_fmap_bounds.
  intros row Hin. apply scoreOf_bounds.
  rewrite Forall_forall in Hall. by apply Hall.
Qed.

(** The score of a move of a square board of tiles is between 0 and the
    total of the board. *)
Lemma move_score_bounds (d : Direction) (b : BoardType) :
  square b → validBoard b → (0 ≤ (moveFunc d b).2 ≤ boardSum b)%Z.
Proof.
  intros Hsq Hvalid. change (allCells isTile b) in Hvalid. destruct d; simpl.
  - rewrite moveUp_rows. cbn [snd].
    rewrite <- (boardSum_rotateLeft undefinedTile b Hsq).
    by apply scores_bounds, allCells_rotateLeft.
  - rewrite moveDown_rows. cbn [snd].
    rewrite <- (boardSum_rotateRight undefinedTile b Hsq).
    by apply scores_bounds, allCells_rotateRight.
  - rewrite moveLeft_rows. cbn [snd]. by apply scores_bounds.
  - rewrite moveRight_rows. cbn [snd].
    rewrite <- (boardSum_fmap reverse b) by apply sumZ_reverse.
    apply scores_bounds. by apply allCells_fmap; [apply reverse_Forall|].
Qed.

Lemma hasWon_false (b : BoardType) :
  allCells (λ v, v ≠ 2048%Z) b → Board.hasWon b = false.
Proof.
  intros Hall. destruct (Board.hasWon b) eqn:Hw; [|done].
  apply hasWon_true in Hw as (r & c & Hrc). by destruct (Hall r c _ Hrc).
Qed.

(** What [initBoard] returns for a side of at least 3. *)
Lemma initBoard_inv (n : nat) (u1 u2 u3 u4 : Q) (b : BoardType)
    (tiles : list (nat * nat)) :
  3 ≤ n → initBoard n u1 u2 u3 u4 = Some (b, tiles) →
  shaped n b
  ∧ allCells (λ v, v = 0 ∨ v = 2 ∨ v = 4)%Z b
  ∧ (0 < boardSum b)%Z
  ∧ hasEmptyCell b.
Proof.
  intros Hn. unfold initBoard.
  pose proof (createEmptyBoard_shaped n) as Hsh0.
  assert (allCells (λ v, v = 0 ∨ v = 2 ∨ v = 4)%Z (createEmptyBoard n)) as Hc0
    by (apply allCells_createEmptyBoard; auto).
  assert (∀ u, (tileFor u = 0 ∨ tileFor u = 2 ∨ tileFor u = 4)%Z) as Htile.
  { intros u. destruct (tileFor_2_or_4 u); auto. }
  assert (boardSum (createEmptyBoard n) = 0%Z) as Hsum0.
  { apply boardSum_all_zero. apply allCells_createEmptyBoard. done. }
  destruct (addRandomTile u1 u2 (createEmptyBoard n)) as [[b1 co1]|] eqn:H1;
    [simpl|done].
  pose proof (shaped_addRandomTile _ _ _ _ _ _ Hsh0 H1) as Hsh1.
  pose proof (allCells_addRandomTile _ _ _ _ _ _ Hc0 (Htile u2) H1) as Hc1.
  pose proof (boardSum_addRandomTile _ _ _ _ _ H1) as Hsum1.
  apply addRandomTile_cases in H1
    as [(_ & _ & Hfull)|(r1 & c1 & -> & _ & Hb1)].
  { destruct Hfull. exists 0, 0. apply createEmptyBoard_cell; lia. }
  assert (0 < boardSum b1)%Z as Hpos1.
  { rewrite Hsum1, Hsum0. destruct (tileFor_2_or_4 u2) as [->| ->]; lia. }
  destruct (addRandomTile u3 u4 b1) as [[b2 co2]|] eqn:H2; [simpl|done].
  pose proof (shaped_addRandomTile _ _ _ _ _ _ Hsh1 H2) as Hsh2.
  pose proof (allCells_addRandomTile _ _ _ _ _ _ Hc1 (Htile u4) H2) as Hc2.
  pose proof (boardSum_addRandomTile _ _ _ _ _ H2) as Hsum2.
  assert (∀ j, j < 3 → (0, j) ≠ (r1, c1) → cell b1 0 j = Some 0%Z) as Hz1.
  { intros j Hj Hne. rewrite Hb1, cell_setCell_ne by done.
    apply createEmptyBoard_cell; lia. }
  apply addRandomTile_cases in H2
    as [(-> & -> & Hfull)|(r2 & c2 & -> & _ & Hb2)].
  - intros [= <- _]. split; [done|]. split; [done|]. split; [done|].
    destruct (decide ((0, 0) = (r1, c1))) as [Heq|Hne].
    + exists 0, 1. apply Hz1; [lia|]. injection Heq as <- <-. congruence.
    + exists 0, 0. by apply Hz1; [lia|].
  - intros [= <- _]. split; [done|]. split; [done|]. split.
    { rewrite Hsum2. destruct (tileFor_2_or_4 u4) as [->| ->]; lia. }
    assert (∃ j, j < 3 ∧ (0, j) ≠ (r1, c1) ∧ (0, j) ≠ (r2, c2)) as (j & Hj & N1 & N2).
    { destruct (decide ((0, 0) = (r1, c1))) as [E1|N1];
        destruct (decide ((0, 0) = (r2, c2))) as [E2|N2].
      - exists 1. injection E1 as <- <-. injection E2 as <- <-.
        split; [lia|]. split; congruence.
      - destruct (decide ((0, 1) = (r2, c2))) as [E3|N3].
        + exists 2. injection E1 as <- <-. injection E3 as <- <-.
          split; [lia|]. split; congruence.
        + exists 1. injection E1 as <- <-. split; [lia|]. split; congruence.
      - destruct (decide ((0, 1) = (r1, c1))) as [E3|N3].
        + exists 2. injection E2 as <- <-. injection E3 as <- <-.
          split; [lia|]. split; congruence.
        + exists 1. injection E2 as <- <-. split; [lia|]. split; congruence.
      - exists 0. split; [lia|]. done. }
    exists 0, j. rewrite Hb2, cell_setCell_ne by done. by apply Hz1.
Qed.

Lemma gameInv_fresh (n : nat) (b : BoardType) (h : Z) :
  shaped n b → allCells (λ v, v = 0 ∨ v = 2 ∨ v = 4)%Z b →
  (0 < boardSum b)%Z → hasEmptyCell b → (0 ≤ h)%Z →
  gameInv n (mkGameState b 0 h false false).
Proof.
  intros Hsh Hcells Hpos He Hh. unfold gameInv. simpl.
  assert (checkWin b = false) as ->.
  { apply hasWon_false. intros r c v Hv. destruct (Hcells r c v Hv) as [->|[->| ->]]; lia. }
  assert (checkGameOver b = false) as -> by by apply isGameOver_empty.
  split; [done|]. split; [|done].
  intros r c v Hv. destruct (Hcells r c v Hv) as [->|[->| ->]].
  - by left.
  - right. by exists 0.
  - right. by exists 1.
Qed.

Lemma handleMove_gameInv (n : nat) (d : Direction) (u1 u2 : Q)
    (g g' : GameState) :
  gameInv n g → handleMove (moveFunc d) u1 u2 g = Some g' → gameInv n g'.
Proof.
  intros (Hsh & Hvalid & Hpos & Hwon & Hover & Hscore & Hhigh)
    [[_ ->]|(Hacc & b' & co & Hadd & ->)]%handleMove_cases; [done|].
  pose proof (shaped_square _ _ Hsh) as Hsq.
  unfold accepted in Hacc. apply andb_true_iff in Hacc as [Hnot _].
  apply negb_true_iff in Hnot. rewrite Hnot in Hover. symmetry in Hover.
  apply orb_false_iff in Hover as [Hwin _]. rewrite Hwin in Hwon.
  unfold gameInv. simpl. rewrite Hwon, orb_false_r.
  split; [by eapply shaped_addRandomTile; [apply shaped_moveFunc|]|].
  split.
  { eapply (allCells_addRandomTile isTile); [|apply isTile_tileFor|exact Hadd].
    by apply validBoard_move. }
  split.
  { rewrite (boardSum_addRandomTile _ _ _ _ _ Hadd), boardSum_move by done.
    destruct co; [|lia]. pose proof (isTile_nonneg _ (isTile_tileFor u2)). lia. }
  split; [done|]. split; [done|]. split; [|done].
  pose proof (move_score_bounds d (board g) Hsq Hvalid). lia.
Qed.

Lemma syncHighScore_gameInv (n : nat) (g : GameState) :
  gameInv n g →
  gameInv n (syncHighScore g)
  ∧ (score (syncHighScore g) ≤ highScore (syncHighScore g))%Z.
Proof.
  intros (Hsh & Hvalid & Hpos & Hwon & Hover & Hscore & Hhigh).
  unfold syncHighScore.
  destruct (highScore g <? score g)%Z eqn:H1, (0 <? score g)%Z eqn:H2; simpl;
    (split; [done|]); lia.
Qed.

Lemma keyDown_gameInv (n : nat) (i : Input) (g g' : GameState) :
  gameInv n g → keyDown i g = Some g' →
  gameInv n g' ∧ (score g' ≤ highScore g')%Z.
Proof.
  intros Hinv. unfold keyDown.
  destruct (handleMove (moveFunc i.1) i.2.1 i.2.2 g) as [g1|] eqn:Hm; [|done].
  intros [= <-]. apply syncHighScore_gameInv. by eapply handleMove_gameInv.
Qed.

Lemma restartGame_gameInv (n : nat) (u1 u2 u3 u4 : Q) (g g' : GameState) :
  3 ≤ n → (0 ≤ highScore g)%Z →
  restartGame n u1 u2 u3 u4 g = Some g' →
  gameInv n (syncHighScore g')
  ∧ (score (syncHighScore g') ≤ highScore (syncHighScore g'))%Z.
Proof.
  intros Hn Hh. unfold restartGame.
  destruct (initBoard n u1 u2 u3 u4) as [[b tiles]|] eqn:Hinit; [simpl|done].
  intros [= <-].
  destruct (initBoard_inv n u1 u2 u3 u4 b tiles Hn Hinit)
    as (Hsh & Hcells & Hpos & He).
  by apply syncHighScore_gameInv, gameInv_fresh.
Qed.

(** ** The invariant of the application *)

Lemma loadHighScore_fresh (parsed : option Z) (b : BoardType) :
  ∃ h, (0 ≤ h)%Z
       ∧ loadHighScore parsed (mkGameState b 0 0 false false)
         = mkGameState b 0 h false false.
Proof.
  destruct parsed as [v|]; simpl; [|by exists 0%Z].
  destruct (Z.leb_spec 0 v); [exists v|exists 0%Z]; done.
Qed.

Lemma handleSizeChange_inv (newSize : Z) (u1 u2 u3 u4 : Q) (st st' : AppState) :
  appInv st → handleSizeChange newSize u1 u2 u3 u4 st = Some st' → appInv st'.
Proof.
  intros (Hsize & Hg & Hle). unfold handleSizeChange.
  destruct (Z.leb_spec 3 newSize), (Z.leb_spec newSize 8); simpl;
    try (by intros [= <-]).
  destruct (newSize =? boardSize st)%Z; [by intros [= <-]|].
  destruct (restartGame _ u1 u2 u3 u4 (game st)) as [g|] eqn:Hr; [simpl|done].
  intros [= <-]. unfold appInv. simpl. split; [lia|].
  apply (restartGame_gameInv _ u1 u2 u3 u4 (game st)); [lia| |done].
  by destruct Hg as (_ & _ & _ & _ & _ & _ & ?).
Qed.

Lemma dispatch_inv (e : Event) (st st' : AppState) :
  appInv st → dispatch e st = Some st' → appInv st'.
Proof.
  intros Hinv. pose proof Hinv as (Hsize & Hg & Hle).
  destruct e as [key u1 u2|d u1 u2|u1 u2 u3 u4|u1 u2 u3 u4|u1 u2 u3 u4]; simpl.
  - destruct (keyMove key) as [d|]; [|by intros [= <-]].
    destruct (keyDown _ (game st)) as [g|] eqn:Hk; [simpl|done].
    intros [= <-]. split; [done|]. by eapply keyDown_gameInv.
  - destruct (keyDown _ (game st)) as [g|] eqn:Hk; [simpl|done].
    intros [= <-]. split; [done|]. by eapply keyDown_gameInv.
  - destruct (boardSize st <=? 3)%Z; [by intros [= <-]|].
    by apply handleSizeChange_inv.
  - destruct (8 <=? boardSize st)%Z; [by intros [= <-]|].
    by apply handleSizeChange_inv.
  - destruct (restartGame _ u1 u2 u3 u4 (game st)) as [g|] eqn:Hr; [simpl|done].
    intros [= <-]. split; [done|]. simpl.
    apply (restartGame_gameInv _ u1 u2 u3 u4 (game st)); [lia| |done].
    by destruct Hg as (_ & _ & _ & _ & _ & _ & ?).
Qed.

Lemma reachable_inv (st : AppState) : reachable st → appInv st.
Proof.
  induction 1 as [parsed u1 u2 u3 u4 st H1 H3 Hinit|e st st' _ IH He Hd].
  - unfold initialApp, initialSession in Hinit.
    destruct (initBoard 4 u1 u2 u3 u4) as [[b tiles]|] eqn:Hb; [simpl in Hinit|done].
    injection Hinit as <-.
    destruct (initBoard_inv 4 u1 u2 u3 u4 b tiles ltac:(lia) Hb)
      as (Hsh & Hcells & Hpos & Hempty).
    destruct (loadHighScore_fresh parsed b) as (h & Hh & ->).
    split; [simpl; lia|]. simpl.
    by apply syncHighScore_gameInv, gameInv_fresh.
  - by eapply dispatch_inv.
Qed.

(** X10: whatever the user does, the side of the board stays between 3 and
    8 and the board of the game is a square of that side. *)
Theorem app_board_size (st : AppState) :
  reachable st →
  (3 ≤ boardSize st ≤ 8)%Z
  ∧ shaped (Z.to_nat (boardSize st)) (board (game st))
  ∧ square (board (game st)).
Proof.
  intros (Hsize & (Hsh & _) & _)%reachable_inv.
  split; [done|]. split; [done|]. by eapply shaped_square.
Qed.

Lemma app_board_size_witness :
  ∃ st, initialApp None (1 # 2) (1 # 3) (1 # 4) (19 # 20) = Some st
        ∧ (3 ≤ boardSize st ≤ 8)%Z
        ∧ shaped (Z.to_nat (boardSize st)) (board (game st))
        ∧ square (board (game st)).
Proof.
  eexists. split; [reflexivity|]. apply app_board_size.
  eapply (reach_init None (1 # 2) (1 # 3) (1 # 4) (19 # 20));
    [valid_draw|valid_draw|reflexivity].
Defined.

(** X11: whatever the user does, every cell of the board holds 0 or a power
    of two from 2 on, and the board holds at least one tile. *)
Theorem app_board_tiles (st : AppState) :
  reachable st → validBoard (board (game st)) ∧ hasTile (board (game st)).
Proof.
  intros (_ & (_ & Hvalid & Hpos & _) & _)%reachable_inv.
  split; [done|]. by apply hasTile_positive.
Qed.

Lemma app_board_tiles_witness :
  ∃ st, initialApp None (1 # 2) (1 # 3) (1 # 4) (19 # 20) = Some st
        ∧ validBoard (board (game st)) ∧ hasTile (board (game st)).
Proof.
  eexists. split; [reflexivity|]. apply app_board_tiles.
  eapply (reach_init None (1 # 2) (1 # 3) (1 # 4) (19 # 20));
    [valid_draw|valid_draw|reflexivity].
Defined.

(** X12: whatever the user does, the win flag says whether the board holds
    2048, and the terminal flag says whether the board holds 2048 or has no
    legal move left. *)
Theorem app_flags_show_board (st : AppState) :
  reachable st →
  hasWon (game st) = Board.hasWon (board (game st))
  ∧ isGameOver (game st)
    = Board.hasWon (board (game st)) || Board.isGameOver (board (game st)).
Proof.
  by intros (_ & (_ & _ & _ & Hwon & Hover & _) & _)%reachable_inv.
Qed.

Lemma app_flags_show_board_witness :
  ∃ st, initialApp None (1 # 2) (1 # 3) (1 # 4) (19 # 20) = Some st
        ∧ hasWon (game st) = Board.hasWon (board (game st))
        ∧ isGameOver (game st)
          = Board.hasWon (board (game st)) || Board.isGameOver (board (game st)).
Proof.
  eexists. split; [reflexivity|]. apply app_flags_show_board.
  eapply (reach_init None (1 # 2) (1 # 3) (1 # 4) (19 # 20));
    [valid_draw|valid_draw|reflexivity].
Defined.

(** X13: whatever the user does, the score is not negative and the high
    score is at least the score. *)
Theorem app_scores_ordered (st : AppState) :
  reachable st → (0 ≤ score (game st) ≤ highScore (game st))%Z.
Proof.
  intros (_ & (_ & _ & _ & _ & _ & Hscore & _) & Hle)%reachable_inv. lia.
Qed.

Lemma app_scores_ordered_witness :
  ∃ st, initialApp (Some 120%Z) (1 # 2) (1 # 3) (1 # 4) (19 # 20) = Some st
        ∧ (0 ≤ score (game st) ≤ highScore (game st))%Z.
Proof.
  eexists. split; [reflexivity|]. apply app_scores_ordered.
  eapply (reach_init (Some 120%Z) (1 # 2) (1 # 3) (1 # 4) (19 # 20));
    [valid_draw|valid_draw|reflexivity].
Defined.

(** X14: as long as the game is not won, the terminal flag is set exactly
    when none of the four moves changes the board. *)
Theorem app_over_iff_stuck (st : AppState) :
  reachable st → hasWon (game st) = false →
  (isGameOver (game st) = true
   ↔ ∀ d, (moveFunc d (board (game st))).1 = board (game st)).
Proof.
  intros Hreach Hnot. pose proof (reachable_inv st Hreach)
    as (_ & (Hsh & _ & Hpos & Hwon & Hover & _) & _).
  pose proof (shaped_square _ _ Hsh) as Hsq.
  rewrite Hnot in Hwon. unfold checkWin in *. rewrite <- Hwon in Hover.
  simpl in Hover. rewrite Hover. unfold checkGameOver. split.
  - intros Hterm d. by apply no_move_on_terminal.
  - intros Hfix. destruct (Board.isGameOver (board (game st))) eqn:Hb; [done|].
    destruct (some_move_changes _ Hsq (hasTile_positive _ Hpos) Hb) as [d Hd].
    by destruct (Hd (Hfix d)).
Qed.

Lemma app_over_iff_stuck_witness :
  ∃ st, initialApp None (1 # 2) (1 # 3) (1 # 4) (19 # 20) = Some st
        ∧ (isGameOver (game st) = true
           ↔ ∀ d, (moveFunc d (board (game st))).1 = board (game st)).
Proof.
  eexists. split; [reflexivity|]. apply app_over_iff_stuck.
  - eapply (reach_init None (1 # 2) (1 # 3) (1 # 4) (19 # 20));
      [valid_draw|valid_draw|reflexivity].
  - reflexivity.
Defined.

(** ** What one event does *)

Lemma syncHighScore_board (g : GameState) : board (syncHighScore g) = board g.
Proof. unfold syncHighScore. by destruct (_ && _). Qed.

Lemma syncHighScore_highScore (g : GameState) :
  (highScore g ≤ highScore (syncHighScore g))%Z.
Proof.
  unfold syncHighScore.
  destruct (Z.ltb_spec (highScore g) (score g)), (0 <? score g)%Z; simpl; lia.
Qed.

Lemma handleMove_highScore (moveFn : BoardType → BoardType * Z) (u1 u2 : Q)
    (g g' : GameState) :
  handleMove moveFn u1 u2 g = Some g' → highScore g' = highScore g.
Proof. by intros [[_ ->]|(_ & b' & co & _ & ->)]%handleMove_cases. Qed.

Lemma keyDown_highScore (i : Input) (g g' : GameState) :
  keyDown i g = Some g' → (highScore g ≤ highScore g')%Z.
Proof.
  unfold keyDown.
  destruct (handleMove (moveFunc i.1) i.2.1 i.2.2 g) as [g1|] eqn:Hm; [|done].
  intros [= <-]. rewrite <- (handleMove_highScore _ _ _ _ _ Hm).
  apply syncHighScore_highScore.
Qed.

Lemma restartGame_total (n : nat) (u1 u2 u3 u4 : Q) (g : GameState) :
  validDraw u1 → validDraw u3 →
  ∃ g', restartGame n u1 u2 u3 u4 g = Some g' ∧ highScore g' = highScore g
        ∧ score g' = 0%Z.
Proof.
  intros H1 H3. unfold restartGame.
  destruct (initBoard_total n u1 u2 u3 u4 H1 H3) as [[b tiles] ->]. simpl.
  by eexists.
Qed.

Lemma handleSizeChange_total (newSize : Z) (u1 u2 u3 u4 : Q) (st : AppState) :
  validDraw u1 → validDraw u3 →
  ∃ st', handleSizeChange newSize u1 u2 u3 u4 st = Some st'
         ∧ (highScore (game st) ≤ highScore (game st'))%Z.
Proof.
  intros H1 H3. unfold handleSizeChange.
  destruct ((3 <=? newSize)%Z && (newSize <=? 8)%Z); [|by exists st].
  destruct (newSize =? boardSize st)%Z; [by exists st|].
  destruct (restartGame_total (Z.to_nat newSize) u1 u2 u3 u4 (game st) H1 H3)
    as (g' & -> & Hh & _).
  simpl. eexists. split; [done|]. simpl. rewrite <- Hh.
  apply syncHighScore_highScore.
Qed.

(** X15: with draws in [0, 1) no event makes a handler throw, and no event
    lowers the high score. *)
Theorem app_event_keeps_high_score (e : Event) (st : AppState) :
  validEvent e →
  ∃ st', dispatch e st = Some st'
         ∧ (highScore (game st) ≤ highScore (game st'))%Z.
Proof.
  destruct e as [key u1 u2|d u1 u2|u1 u2 u3 u4|u1 u2 u3 u4|u1 u2 u3 u4]; simpl.
  - intros Hu. destruct (keyMove key) as [d|]; [|by exists st].
    destruct (keyDown_total (d, (u1, u2)) (game st) Hu) as [g' Hk].
    rewrite Hk. simpl. eexists. split; [done|]. simpl.
    by eapply keyDown_highScore.
  - intros Hu.
    destruct (keyDown_total (d, (u1, u2)) (game st) Hu) as [g' Hk].
    rewrite Hk. simpl. eexists. split; [done|]. simpl.
    by eapply keyDown_highScore.
  - intros [H1 H3]. destruct (boardSize st <=? 3)%Z; [by exists st|].
    by apply handleSizeChange_total.
  - intros [H1 H3]. destruct (8 <=? boardSize st)%Z; [by exists st|].
    by apply handleSizeChange_total.
  - intros [H1 H3].
    destruct (restartGame_total (Z.to_nat (boardSize st)) u1 u2 u3 u4
                (game st) H1 H3) as (g' & -> & Hh & _).
    simpl. eexists. split; [done|]. simpl. rewrite <- Hh.
    apply syncHighScore_highScore.
Qed.

Lemma app_event_keeps_high_score_witness :
  ∃ st', dispatch (ClickRestart (1 # 2) (1 # 3) (1 # 4) (1 # 5))
           (mkApp 4 (mkGameState [[2; 2]; [0; 4]]%Z 8 20 false false))
         = Some st'
         ∧ (20 ≤ highScore (game st'))%Z.
Proof.
  apply (app_event_keeps_high_score
           (ClickRestart (1 # 2) (1 # 3) (1 # 4) (1 # 5))
           (mkApp 4 (mkGameState [[2; 2]; [0; 4]]%Z 8 20 false false))).
  split; valid_draw.
Defined.

(** X16: a move input in a reachable state keeps the side of the board;
    when the session takes the move the score grows by the score of the
    move, which is between 0 and the total of the board, and the total of
    the board grows by the spawned 2 or 4; when it does not, the score and
    the board stay as they are. *)
Theorem app_move_effect (d : Direction) (u1 u2 : Q) (st : AppState) :
  reachable st → validDraw u1 →
  ∃ st', dispatch (Swipe d u1 u2) st = Some st'
    ∧ boardSize st' = boardSize st
    ∧ (if accepted (moveFunc d) (game st)
       then score (game st')
            = (score (game st) + (moveFunc d (board (game st))).2)%Z
            ∧ (0 ≤ (moveFunc d (board (game st))).2
                 ≤ boardSum (board (game st)))%Z
            ∧ boardSum (board (game st'))
              = (boardSum (board (game st)) + tileFor u2)%Z
       else score (game st') = score (game st)
            ∧ board (game st') = board (game st)).
Proof.
  intros Hreach Hu. pose proof (reachable_inv st Hreach)
    as (_ & (Hsh & Hvalid & _) & _).
  pose proof (shaped_square _ _ Hsh) as Hsq. simpl. unfold keyDown. simpl.
  destruct (handleMove_total (moveFunc d) u1 u2 (game st) Hu) as [g1 Hm].
  rewrite Hm. simpl. eexists. split; [done|]. simpl. split; [done|].
  rewrite syncHighScore_score, syncHighScore_board.
  apply handleMove_cases in Hm as [[-> ->]|(Hacc & b' & co & Hadd & ->)];
    [done|].
  rewrite Hacc. simpl. split; [done|].
  split; [by apply move_score_bounds|].
  rewrite (boardSum_addRandomTile _ _ _ _ _ Hadd), boardSum_move by done.
  apply addRandomTile_cases in Hadd
    as [(_ & _ & Hfull)|(r & c & -> & _ & _)]; [|done].
  destruct Hfull. apply move_changed_empty; [done|].
  unfold accepted in Hacc. apply andb_true_iff in Hacc as [_ Hne].
  apply negb_true_iff, areBoardsEqual_false in Hne. congruence.
Qed.

Lemma app_move_effect_witness :
  ∃ st, initialApp None (1 # 2) (1 # 3) (1 # 4) (19 # 20) = Some st
    ∧ ∃ st', dispatch (Swipe ArrowLeft (1 # 2) (1 # 3)) st = Some st'
      ∧ boardSize st' = boardSize st
      ∧ (if accepted (moveFunc ArrowLeft) (game st)
         then score (game st')
              = (score (game st) + (moveFunc ArrowLeft (board (game st))).2)%Z
              ∧ (0 ≤ (moveFunc ArrowLeft (board (game st))).2
                   ≤ boardSum (board (game st)))%Z
              ∧ boardSum (board (game st'))
                = (boardSum (board (game st)) + tileFor (1 # 3))%Z
         else score (game st') = score (game st)
              ∧ board (game st') = board (game st)).
Proof.
  eexists. split; [reflexivity|]. apply app_move_effect; [|valid_draw].
  eapply (reach_init None (1 # 2) (1 # 3) (1 # 4) (19 # 20));
    [valid_draw|valid_draw|reflexivity].
Defined.

(** * Further properties: rotations, the empty board, the random choice *)

Section HalfTurn.
Context {T : Type}.
Implicit Types (g : list (list T)) (undef : T).

Lemma shaped_half_turn (n : nat) g : shaped n g → shaped n (reverse (reverse <$> g)).
Proof.
  intros [Hlen Hrows]. split; [by rewrite length_reverse, length_fmap|].
  apply Forall_reverse, Forall_fmap.
  eapply Forall_impl; [exact Hrows|]. intros row Hrow. simpl.
  by rewrite length_reverse.
Qed.

Lemma cell_half_turn g (i j : nat) :
  square g → i < length g → j < length g →
  cell (reverse (reverse <$> g)) i j = cell g (length g - 1 - i) (length g - 1 - j).
Proof.
  intros Hsq Hi Hj. unfold cell.
  rewrite reverse_lookup by (rewrite length_fmap; lia).
  rewrite length_fmap, list_lookup_fmap.
  replace (length g - S i) with (length g - 1 - i) by lia.
  destruct (g !! (length g - 1 - i)) as [row|] eqn:Hrow; [simpl|done].
  pose proof (square_row_length _ _ _ Hsq Hrow) as Hlen.
  rewrite reverse_lookup by lia. f_equal. lia.
Qed.

(** X17: on a square grid two clockwise quarter turns are two
    counter-clockwise quarter turns, namely the grid with its rows in
    reverse order and each row reversed; four quarter turns give back the
    grid. *)
Theorem rotations_compose undef g :
  square g →
  rotateRight undef (rotateRight undef g) = reverse (reverse <$> g)
  ∧ rotateLeft undef (rotateLeft undef g) = reverse (reverse <$> g)
  ∧ rotateRight undef (rotateRight undef
      (rotateRight undef (rotateRight undef g))) = g
  ∧ rotateLeft undef (rotateLeft undef
      (rotateLeft undef (rotateLeft undef g))) = g.
Proof.
  intros Hsq.
  assert (rotateRight undef (rotateRight undef g) = reverse (reverse <$> g))
    as HRR.
  { apply (grid_ext (length g)).
    - rewrite <- (rotateRight_length undef g) at 1. apply rotateRight_shaped.
    - by apply shaped_half_turn.
    - intros i j Hi Hj.
      rewrite rotateRight_cell_at;
        rewrite ?rotateRight_length; [|apply rotateRight_square|lia..].
      rewrite rotateRight_cell_at by (done || lia).
      by rewrite cell_half_turn. }
  assert (rotateLeft undef (rotateLeft undef g) = reverse (reverse <$> g))
    as HLL.
  { apply (grid_ext (length g)).
    - rewrite <- (rotateLeft_length undef g) at 1. apply rotateLeft_shaped.
    - by apply shaped_half_turn.
    - intros i j Hi Hj.
      rewrite rotateLeft_cell_at;
        rewrite ?rotateLeft_length; [|apply rotateLeft_square|lia..].
      rewrite rotateLeft_cell_at by (done || lia).
      by rewrite cell_half_turn. }
  split; [done|]. split; [done|]. split.
  - rewrite HRR, <- HLL.
    rewrite (rotateRight_rotateLeft undef (rotateLeft undef g))
      by apply rotateLeft_square.
    by apply rotateRight_rotateLeft.
  - rewrite HLL, <- HRR.
    rewrite (rotateLeft_rotateRight undef (rotateRight undef g))
      by apply rotateRight_square.
    by apply rotateLeft_rotateRight.
Qed.
End HalfTurn.

Lemma rotations_compose_witness :
  rotateRight 0 (rotateRight 0 [[1; 2]; [3; 4]])
  = reverse (reverse <$> [[1; 2]; [3; 4]]).
Proof.
  apply (rotations_compose 0 [[1; 2]; [3; 4]]).
  split; [reflexivity|]. repeat constructor.
Defined.

(** ** The empty board *)

Lemma emptyInRow_zeros (r c n : nat) :
  length (emptyInRow r c (replicate n 0%Z)) = n.
Proof. revert c. induction n as [|n IH]; intros c; simpl; [done|]. by rewrite IH. Qed.

Lemma emptyFrom_zeros (r m n : nat) :
  length (emptyFrom r (replicate m (replicate n 0%Z))) = m * n.
Proof.
  revert r. induction m as [|m IH]; intros r; [done|].
  cbn [replicate emptyFrom]. rewrite length_app, emptyInRow_zeros, IH. lia.
Qed.

Lemma newRowOf_zeros (n : nat) :
  slideAndMerge (replicate n 0%Z) = (replicate n 0%Z, 0%Z).
Proof.
  apply (slideAndMerge_packed_fixed [] n); [apply not_elem_of_nil|].
  by intros i v ?.
Qed.

Lemma newRows_empty (n : nat) :
  newRowOf <$> createEmptyBoard n = createEmptyBoard n
  ∧ sumZ (scoreOf <$> createEmptyBoard n) = 0%Z.
Proof.
  unfold createEmptyBoard. split.
  - apply fmap_fixed. intros row [-> _]%elem_of_replicate.
    unfold newRowOf. by rewrite newRowOf_zeros.
  - apply sumZ_fmap_zero. intros row [-> _]%elem_of_replicate.
    unfold scoreOf. by rewrite newRowOf_zeros.
Qed.

Lemma rotateLeft_empty (n : nat) :
  rotateLeft undefinedTile (createEmptyBoard n) = createEmptyBoard n.
Proof.
  pose proof (createEmptyBoard_shaped n) as Hsh.
  pose proof (shaped_square _ _ Hsh) as Hsq.
  assert (length (createEmptyBoard n) = n) as Hlen by apply Hsh.
  apply (grid_ext n); [|done|].
  - rewrite <- Hlen at 1. apply rotateLeft_shaped.
  - intros r c Hr Hc. rewrite rotateLeft_cell_at by (done || lia).
    rewrite !createEmptyBoard_cell by lia. done.
Qed.

Lemma rotateRight_empty (n : nat) :
  rotateRight undefinedTile (createEmptyBoard n) = createEmptyBoard n.
Proof.
  pose proof (createEmptyBoard_shaped n) as Hsh.
  pose proof (shaped_square _ _ Hsh) as Hsq.
  assert (length (createEmptyBoard n) = n) as Hlen by apply Hsh.
  apply (grid_ext n); [|done|].
  - rewrite <- Hlen at 1. apply rotateRight_shaped.
  - intros r c Hr Hc. rewrite rotateRight_cell_at by (done || lia).
    rewrite !createEmptyBoard_cell by lia. done.
Qed.

Lemma reverse_replicate {A : Type} (n : nat) (x : A) :
  reverse (replicate n x) = replicate n x.
Proof.
  induction n as [|n IH]; [done|].
  rewrite replicate_S_end at 2. simpl. by rewrite reverse_cons, IH.
Qed.

Lemma mirror_empty (n : nat) :
  reverse <$> createEmptyBoard n = createEmptyBoard n.
Proof.
  unfold createEmptyBoard. apply fmap_fixed.
  intros row [-> _]%elem_of_replicate. apply reverse_replicate.
Qed.

(** X18: [createEmptyBoard n] is an [n] x [n] board of zeros; all its
    [n * n] cells are empty; no move changes it and every move scores 0;
    yet [isGameOver] holds of it only when [n] is 0. *)
Theorem createEmptyBoard_empty (n : nat) :
  shaped n (createEmptyBoard n)
  ∧ (∀ r c, r < n → c < n → cell (createEmptyBoard n) r c = Some 0%Z)
  ∧ length (getEmptyCells (createEmptyBoard n)) = n * n
  ∧ (∀ d, moveFunc d (createEmptyBoard n) = (createEmptyBoard n, 0%Z))
  ∧ (Board.isGameOver (createEmptyBoard n) = true ↔ n = 0).
Proof.
  destruct (newRows_empty n) as [Hrows Hscore].
  split; [apply createEmptyBoard_shaped|].
  split; [intros r c; apply createEmptyBoard_cell|].
  split; [apply emptyFrom_zeros|]. split.
  - intros d. destruct d; simpl.
    + by rewrite moveUp_rows, rotateLeft_empty, Hrows, Hscore, rotateRight_empty.
    + by rewrite moveDown_rows, rotateRight_empty, Hrows, Hscore, rotateLeft_empty.
    + by rewrite moveLeft_rows, Hrows, Hscore.
    + by rewrite moveRight_rows, mirror_empty, Hrows, Hscore, mirror_empty.
  - destruct n as [|n]; [done|]. split; [|done].
    rewrite isGameOver_empty; [done|].
    exists 0, 0. apply createEmptyBoard_cell; lia.
Qed.

(** ** The random choice of [addRandomTile] *)








(** * The stored high score *)

Import Storage.

(** The decimal notation of a non-empty digit sequence starts with a digit
    and holds digits only. *)
Lemma digitPrefix_digits (d : Decimal.uint) (junk : string) :
  digitPrefix junk = EmptyString →
  digitPrefix (String.append (NilEmpty.string_of_uint d) junk)
  = NilEmpty.string_of_uint d.
Proof.
  intros Hjunk. induction d; simpl; rewrite ?IHd; done.
Qed.

Lemma digits_head (d : Decimal.uint) :
  d ≠ Decimal.Nil →
  ∃ ch rest, NilEmpty.string_of_uint d = String ch rest
             ∧ isWhiteSpace ch = false
             ∧ Ascii.eqb ch "-" = false ∧ Ascii.eqb ch "+" = false.
Proof. destruct d; [done|..]; intros _; simpl; by eexists _, _. Qed.

Lemma parseInt10_unsigned (ch : ascii) (rest : string) :
  isWhiteSpace ch = false → Ascii.eqb ch "-" = false → Ascii.eqb ch "+" = false →
  parseInt10 (String ch rest)
  = match digitPrefix (String ch rest) with
    | EmptyString => None
    | digits =>
        option_map (λ d, (1 * Z.of_uint d)%Z) (NilEmpty.uint_of_string digits)
    end.
Proof.
  intros Hw Hm Hp. unfold parseInt10. cbn [trimStart]. by rewrite Hw, Hm, Hp.
Qed.

Lemma parseInt10_digits (d : Decimal.uint) (junk : string) :
  d ≠ Decimal.Nil → digitPrefix junk = EmptyString →
  parseInt10 (String.append (NilEmpty.string_of_uint d) junk)
  = Some (Z.of_uint d).
Proof.
  intros Hd Hjunk. destruct (digits_head d Hd) as (ch & rest & Hs & Hw & Hm & Hp).
  pose proof (digitPrefix_digits d junk Hjunk) as Hpre.
  pose proof (NilEmpty.usu d) as Husu.
  rewrite Hs in Hpre, Husu |- *.
  change (String.append (String ch rest) junk)
    with (String ch (String.append rest junk)) in *.
  rewrite parseInt10_unsigned, Hpre, Husu by done.
  simpl. f_equal. by destruct (Z.of_uint d).
Qed.

Lemma append_empty (s : string) : String.append s EmptyString = s.
Proof.
  induction s as [|ch s IH]; [done|].
  change (String ch (String.append s EmptyString) = String ch s). by rewrite IH.
Qed.

Lemma numberToString_nonneg (n : Z) :
  (0 ≤ n)%Z →
  ∃ d, d ≠ Decimal.Nil ∧ numberToString n = NilEmpty.string_of_uint d
       ∧ Z.of_uint d = n.
Proof.
  intros Hn. destruct n as [|p|p]; [| |lia].
  - by exists (Decimal.D0 Decimal.Nil).
  - exists (Pos.to_uint p). split; [apply Unsigned.to_uint_nonnil|].
    split.
    + unfold numberToString. simpl.
      pose proof (Unsigned.to_uint_nonnil p). by destruct (Pos.to_uint p).
    + unfold Z.of_uint. by rewrite Unsigned.of_to.
Qed.

Lemma parseInt10_numberToString (n : Z) (junk : string) :
  (0 ≤ n)%Z → digitPrefix junk = EmptyString →
  parseInt10 (String.append (numberToString n) junk) = Some n.
Proof.
  intros Hn Hjunk.
  destruct (numberToString_nonneg n Hn) as (d & Hd & -> & <-).
  by apply parseInt10_digits.
Qed.

Lemma parseInt10_negative (p : positive) :
  parseInt10 (numberToString (Z.neg p)) = Some (Z.neg p).
Proof.
  destruct (numberToString_nonneg (Z.pos p) ltac:(lia)) as (d & Hd & Hs & Hv).
  destruct (digits_head d Hd) as (ch & rest & Hch & Hw & Hm & Hp).
  change (numberToString (Z.neg p)) with (String "-" (numberToString (Z.pos p))).
  pose proof (digitPrefix_digits d EmptyString eq_refl) as Hpre.
  pose proof (NilEmpty.usu d) as Husu.
  rewrite append_empty in Hpre. rewrite Hs.
  unfold parseInt10. cbn [trimStart].
  change (isWhiteSpace "-") with false. cbv iota.
  change (Ascii.eqb "-" "-") with true. cbv iota beta.
  rewrite Hpre. rewrite Hch in Husu |- *. rewrite Husu. simpl.
  rewrite Hv. done.
Qed.

Lemma numberToString_not_empty (n : Z) (junk : string) :
  String.eqb (String.append (numberToString n) junk) "" = false.
Proof.
  destruct n as [|p|p]; [done| |done].
  destruct (numberToString_nonneg (Z.pos p) ltac:(lia)) as (d & Hd & -> & _).
  destruct (digits_head d Hd) as (ch & rest & -> & _). done.
Qed.

(** X20: for scores that are safe integers (below 2^53), the text that the
    save effect writes is read back by the load effect as the same high
    score; a stored negative number is refused; a stored number followed by
    other text is read as that number; nothing stored, or the empty text,
    leaves the state as it is. *)
Theorem high_score_round_trip (g g0 : GameState) (item : option string) :
  ((highScore g < score g)%Z → (0 < score g)%Z → (score g < 2 ^ 53)%Z →
     highScore (loadHighScore (storedScore (saveHighScore true g item)) g0)
     = highScore (syncHighScore g)
     ∧ highScore (syncHighScore g) = score g)
  ∧ (∀ n : Z, (- 2 ^ 53 < n)%Z → (n < 0)%Z →
       loadHighScore (storedScore (Some (numberToString n))) g0 = g0)
  ∧ (∀ (n : Z) (junk : string),
       (0 ≤ n)%Z → (n < 2 ^ 53)%Z → digitPrefix junk = EmptyString →
       highScore (loadHighScore
                    (storedScore (Some (String.append (numberToString n) junk)))
                    g0) = n)
  ∧ loadHighScore (storedScore None) g0 = g0
  ∧ loadHighScore (storedScore (Some EmptyString)) g0 = g0.
Proof.
  split; [|split; [|split; [|done]]].
  - intros Hlt Hpos _. unfold saveHighScore, syncHighScore.
    assert ((highScore g <? score g)%Z = true) as -> by by apply Z.ltb_lt.
    assert ((0 <? score g)%Z = true) as -> by by apply Z.ltb_lt.
    simpl. split; [|done].
    rewrite <- (append_empty (numberToString (score g))).
    rewrite numberToString_not_empty.
    rewrite parseInt10_numberToString by (done || lia). simpl.
    assert ((0 <=? score g)%Z = true) as -> by (apply Z.leb_le; lia). done.
  - intros n _ Hn. destruct n as [|p|p]; [lia|lia|].
    unfold storedScore.
    rewrite <- (append_empty (numberToString (Z.neg p))) at 1.
    rewrite numberToString_not_empty, parseInt10_negative. done.
  - intros n junk Hn _ Hjunk. unfold storedScore.
    rewrite numberToString_not_empty, parseInt10_numberToString by done.
    simpl. assert ((0 <=? n)%Z = true) as -> by by apply Z.leb_le. done.
Qed.

Lemma high_score_round_trip_witness :
  highScore (loadHighScore
               (storedScore
                  (saveHighScore true
                     (mkGameState [[2; 4]; [0; 8]]%Z 36 20 false false) None))
               (mkGameState [[2; 0]; [0; 2]]%Z 0 0 false false))
  = highScore (syncHighScore (mkGameState [[2; 4]; [0; 8]]%Z 36 20 false false))
  ∧ highScore (syncHighScore (mkGameState [[2; 4]; [0; 8]]%Z 36 20 false false))
    = score (mkGameState [[2; 4]; [0; 8]]%Z 36 20 false false).
Proof.
  apply (proj1 (high_score_round_trip
                  (mkGameState [[2; 4]; [0; 8]]%Z 36 20 false false)
                  (mkGameState [[2; 0]; [0; 2]]%Z 0 0 false false) None));
    reflexivity.
Defined.

Example parseInt10_samples :
  parseInt10 "  42" = Some 42%Z
  ∧ parseInt10 "12abc" = Some 12%Z
  ∧ parseInt10 "abc" = None
  ∧ parseInt10 "-5" = Some (-5)%Z
  ∧ parseInt10 "+7" = Some 7%Z
  ∧ parseInt10 "" = None
  ∧ parseInt10 "007" = Some 7%Z
  ∧ parseInt10 "1.5" = Some 1%Z.
Proof. repeat split; reflexivity. Qed.
